(** * Vendor analytics scoring engine: a shallow embedding of
      [src/routes/vendorAnalytics.ts] and the properties of its scorecards.

    The handlers of that file fetch aggregate rows from the database and
    turn each row into a scorecard with plain JavaScript arithmetic.  The
    database is an external collaborator: the rows it returns are the
    inputs of the functions below.

    Numbers.  A JavaScript number is modelled by [JS.number]: the
    rational it stands for, or one of the three special values
    [+Infinity], [-Infinity] and [NaN].  The special values are kept
    because the source divides by request parameters and by lengths that
    can be zero; the sign of zero is left out.  The arithmetic comes in
    three readings:

    - [IEEE] is the arithmetic of the source: every [+], [-], [*] and [/]
      returns the binary64 value nearest to the exact result.  The
      [Rounded] module of each handler is the handler's code in this
      arithmetic, and every statement about the numbers a response shows
      is made there.
    - [JS] has the same operations without the rounding.  The handlers
      are written in it once more; the statements kept on this reading
      are bounds, orderings and the shape of the result, which the
      rounding does not touch.
    - [Binary64] evaluates the scenarios on the binary64 numbers of the
      kernel, and serves to check [IEEE] against them.

    Objects.  Two handlers group their rows in a plain object keyed by
    vendor name.  [Keys] has what such an object adds to a map: the
    properties it inherits from [Object.prototype], and the order in
    which its own properties are listed. *)

From Stdlib Require Import ZArith NArith QArith Qround Qminmax Qpower.
From Stdlib Require Import Qreduction Qabs List String Ascii Bool Lia Lqa.
From Stdlib Require Import Permutation Sorted.
From Stdlib Require PrimFloat FloatOps SpecFloat.
Import ListNotations.

Open Scope Z_scope.

(* ================================================================== *)
(** ** JavaScript numbers and the built-ins the handlers use *)
(* ================================================================== *)

Module JS.

Inductive number : Type :=
| Fin (q : Q)
| PosInf
| NegInf
| NaN.

Definition of_Z (z : Z) : number := Fin (inject_Z z).

(** Same-value comparison of two numbers; finite values are compared as
    rationals, so [1/2] and [2/4] are the same number. *)
Definition same (a b : number) : Prop :=
  match a, b with
  | Fin x, Fin y => (x == y)%Q
  | PosInf, PosInf | NegInf, NegInf | NaN, NaN => True
  | _, _ => False
  end.

Definition neg (a : number) : number :=
  match a with
  | Fin x => Fin (- x)
  | PosInf => NegInf
  | NegInf => PosInf
  | NaN => NaN
  end.

(** [a + b] *)
Definition add (a b : number) : number :=
  match a, b with
  | NaN, _ | _, NaN => NaN
  | Fin x, Fin y => Fin (x + y)
  | PosInf, NegInf | NegInf, PosInf => NaN
  | PosInf, _ | _, PosInf => PosInf
  | NegInf, _ | _, NegInf => NegInf
  end.

(** [a - b] *)
Definition sub (a b : number) : number := add a (neg b).

(** An infinity scaled by the sign of a finite factor; [Infinity * 0] is
    [NaN]. *)
Definition scale_inf (inf : number) (x : Q) : number :=
  match (x ?= 0)%Q with
  | Eq => NaN
  | Gt => inf
  | Lt => neg inf
  end.

(** [a * b] *)
Definition mul (a b : number) : number :=
  match a, b with
  | NaN, _ | _, NaN => NaN
  | Fin x, Fin y => Fin (x * y)
  | Fin x, PosInf | PosInf, Fin x => scale_inf PosInf x
  | Fin x, NegInf | NegInf, Fin x => scale_inf NegInf x
  | PosInf, PosInf | NegInf, NegInf => PosInf
  | PosInf, NegInf | NegInf, PosInf => NegInf
  end.

(** [a / b].  A finite non-zero value over zero is an infinity of the
    sign of the numerator, and [0 / 0] is [NaN]. *)
Definition div (a b : number) : number :=
  match a, b with
  | NaN, _ | _, NaN => NaN
  | Fin x, Fin y =>
      if Qeq_bool y 0 then
        match (x ?= 0)%Q with
        | Eq => NaN
        | Gt => PosInf
        | Lt => NegInf
        end
      else Fin (x / y)
  | Fin _, (PosInf | NegInf) => Fin 0
  | (PosInf | NegInf), (PosInf | NegInf) => NaN
  | PosInf, Fin y => match (y ?= 0)%Q with Lt => NegInf | _ => PosInf end
  | NegInf, Fin y => match (y ?= 0)%Q with Lt => PosInf | _ => NegInf end
  end.

(** [a > b]; every comparison with [NaN] is false. *)
Definition gt (a b : number) : bool :=
  match a, b with
  | NaN, _ | _, NaN => false
  | Fin x, Fin y => match (x ?= y)%Q with Gt => true | _ => false end
  | PosInf, PosInf => false
  | PosInf, _ => true
  | NegInf, _ => false
  | Fin _, NegInf => true
  | Fin _, PosInf => false
  end.

(** [Math.min(a, b)] and [Math.max(a, b)]: [NaN] as soon as one argument
    is. *)
Definition Math_min (a b : number) : number :=
  match a, b with
  | NaN, _ | _, NaN => NaN
  | NegInf, _ | _, NegInf => NegInf
  | PosInf, c | c, PosInf => c
  | Fin x, Fin y => Fin (Qmin x y)
  end.

Definition Math_max (a b : number) : number :=
  match a, b with
  | NaN, _ | _, NaN => NaN
  | PosInf, _ | _, PosInf => PosInf
  | NegInf, c | c, NegInf => c
  | Fin x, Fin y => Fin (Qmax x y)
  end.

(** The integer nearest to [q], ties going up: [floor (q + 1/2)]. *)
Definition round_half_up (q : Q) : Z := Qfloor (q + (1 # 2)).

(** [Math.round(a)] *)
Definition Math_round (a : number) : number :=
  match a with
  | Fin q => of_Z (round_half_up q)
  | other => other
  end.

(** The idiom [Math.round(a * 100) / 100] of the handlers. *)
Definition round2 (a : number) : number :=
  div (Math_round (mul a (of_Z 100))) (of_Z 100).

(** Truncation toward zero, as in [ToIntegerOrInfinity]. *)
Definition trunc (q : Q) : Z :=
  if Qle_bool 0 q then Qfloor q else Qceiling q.

(** The index [Array.prototype.slice] derives from one argument on an
    array of length [len]: [NaN] counts as 0, a negative value counts
    from the end, and the result is clamped to [0 .. len]. *)
Definition relative_index (len : Z) (a : number) : Z :=
  match a with
  | NaN => 0
  | NegInf => 0
  | PosInf => len
  | Fin q =>
      let r := trunc q in
      if r <? 0 then Z.max (len + r) 0 else Z.min r len
  end.

(** [arr.slice(start, end)]; [None] for an [end] left out. *)
Definition slice {A : Type} (arr : list A) (start : number)
           (end_ : option number) : list A :=
  let len := Z.of_nat (List.length arr) in
  let k := relative_index len start in
  let final :=
    match end_ with
    | None => len
    | Some e => relative_index len e
    end in
  let count := Z.max (final - k) 0 in
  firstn (Z.to_nat count) (skipn (Z.to_nat k) arr).

(** [arr.length] as a number. *)
Definition length_of {A : Type} (arr : list A) : number :=
  of_Z (Z.of_nat (List.length arr)).

(** [arr.reduce((sum, t) => sum + f(t), 0)] *)
Definition sum_by {A : Type} (f : A -> number) (arr : list A) : number :=
  fold_left (fun sum t => add sum (f t)) arr (of_Z 0).

(** [arr.sort(cmp)]: the stable sort by a comparator whose negative
    result puts its first argument first.  [x] comes from an earlier
    index than everything in [sorted], so it passes only the elements the
    comparator puts strictly before it. *)
Fixpoint sort_insert {A : Type} (cmp : A -> A -> number) (x : A)
         (sorted : list A) : list A :=
  match sorted with
  | [] => [x]
  | y :: rest =>
      if gt (of_Z 0) (cmp y x) then y :: sort_insert cmp x rest
      else x :: sorted
  end.

Definition sort {A : Type} (cmp : A -> A -> number) (arr : list A)
  : list A :=
  fold_right (sort_insert cmp) [] arr.

(** [arr.filter(p).length] *)
Definition count_if {A : Type} (p : A -> bool) (arr : list A) : Z :=
  Z.of_nat (List.length (filter p arr)).

End JS.


(* ================================================================== *)
(** ** Arithmetic rounded to IEEE-754 binary64 *)
(* ================================================================== *)

(** JavaScript rounds the result of every [+], [-], [*] and [/] to the
    nearest binary64 value, ties going to the even significand.  [IEEE]
    adds that rounding to the arithmetic of [JS]: a finite number is
    still written as the rational it stands for, and each operation
    returns the rounding of the exact result.  The sign of zero is left
    out. *)
Module IEEE.

Import JS.
Local Open Scope Q_scope.

(** The integer nearest to [q], ties going to the even one. *)
Definition rne (q : Q) : Z :=
  let f := Qfloor q in
  match Qcompare (q - inject_Z f) (1 # 2) with
  | Lt => f
  | Gt => (f + 1)%Z
  | Eq => if Z.even f then f else (f + 1)%Z
  end.

(** [floor (log2 q)] of a positive [q]. *)
Definition exponent (q : Q) : Z :=
  let e := (Z.log2 (Qnum q) - Z.log2 (Zpos (Qden q)))%Z in
  if Qle_bool (2 ^ e) q then e else (e - 1)%Z.

(** The exponent of the last place of the binary64 values around a
    positive [q]: 53 significant bits, and no exponent below that of the
    subnormal values. *)
Definition quantum (q : Q) : Z := (Z.max (exponent q) (-1022) - 52)%Z.

(** The multiple of [2 ^ quantum q] nearest to a positive [q]. *)
Definition nearest (q : Q) : Q :=
  inject_Z (rne (q / 2 ^ quantum q)) * 2 ^ quantum q.

(** The binary64 value of a positive [q]; a result of [2^1024] or more
    overflows to [Infinity]. *)
Definition round_pos (q : Q) : number :=
  if Qle_bool (2 ^ 1024) (nearest q) then PosInf else Fin (Qred (nearest q)).

(** The binary64 value nearest to [q].  This is also what [parseFloat]
    and a numeric literal give for the decimal [q]. *)
Definition round (q : Q) : number :=
  match Qcompare q 0 with
  | Eq => Fin 0
  | Gt => round_pos q
  | Lt => neg (round_pos (- q))
  end.

(** [a <= b] on numbers; false as soon as one is [NaN]. *)
Definition le (a b : number) : Prop :=
  match a, b with
  | NaN, _ | _, NaN => False
  | NegInf, _ | _, PosInf => True
  | Fin x, Fin y => x <= y
  | _, _ => False
  end.

Definition rnd (a : number) : number :=
  match a with
  | Fin q => round q
  | other => other
  end.

(** [a + b], [a - b], [a * b] and [a / b] as JavaScript computes
    them. *)
Definition add (a b : number) : number := rnd (JS.add a b).
Definition sub (a b : number) : number := rnd (JS.sub a b).
Definition mul (a b : number) : number := rnd (JS.mul a b).
Definition div (a b : number) : number := rnd (JS.div a b).

(** The idiom [Math.round(a * 100) / 100] of the handlers. *)
Definition round2 (a : number) : number :=
  div (Math_round (mul a (of_Z 100))) (of_Z 100).

(** [arr.reduce((sum, t) => sum + f(t), 0)] *)
Definition sum_by {A : Type} (f : A -> number) (arr : list A) : number :=
  fold_left (fun sum t => add sum (f t)) arr (of_Z 0).

End IEEE.

(* ================================================================== *)
(** ** The scores on the binary64 numbers of the kernel *)
(* ================================================================== *)

(** The scores once more, on the primitive binary64 numbers of the
    kernel, which round every operation the way JavaScript does.  These
    definitions take the columns a score depends on instead of a whole
    row; they serve to evaluate the scenarios of the specification with
    the rounding error that [JS.number] leaves out. *)
Module Binary64.

Import PrimFloat.
Local Open Scope float_scope.
Local Set Warnings "-inexact-float".

Definition gt (a b : float) : bool := b <? a.

Definition is_nan (a : float) : bool := negb (a =? a).

Definition Math_min (a b : float) : float :=
  if is_nan a || is_nan b then nan else if b <? a then b else a.

Definition Math_max (a b : float) : float :=
  if is_nan a || is_nan b then nan else if a <? b then b else a.

(** [2^52]: from this magnitude on every binary64 value is an integer,
    and adding it to a smaller non-negative value rounds that value to
    an integer. *)
Definition two52 : float := 4503599627370496.

Definition floor_nonneg (a : float) : float :=
  let r := (a + two52) - two52 in
  if a <? r then r - 1 else r.

Definition ceil_nonneg (a : float) : float :=
  let r := (a + two52) - two52 in
  if r <? a then r + 1 else r.

Definition floor (a : float) : float :=
  if two52 <=? abs a then a
  else if a <? 0 then - ceil_nonneg (- a)
  else if 0 <=? a then floor_nonneg a
  else a.

(** [Math.round(a)]: the nearest integer, ties going up; [a - floor a]
    is exact.  A zero result can differ from JavaScript's in sign. *)
Definition Math_round (a : float) : float :=
  let f := floor a in
  if 0.5 <=? a - f then f + 1 else f.

Definition round2 (a : float) : float := Math_round (a * 100) / 100.

Record performance_score : Type := {
  overall : float;
  consistency : float;
  volume : float;
  reliability : float
}.

(** The [performanceScore] object of a scorecard entry, from the window
    and the three columns it depends on. *)
Definition performanceScore
           (timeframe active_months invoice_count avg_payment_terms : float)
  : performance_score :=
  let consistencyScore := Math_min 100 ((active_months / timeframe) * 100) in
  let volumeScore := Math_min 100 ((invoice_count / 50) * 100) in
  let reliabilityScore :=
    if gt avg_payment_terms 0
    then Math_max 0 (100 - (avg_payment_terms - 30))
    else 50 in
  let overallScore :=
    Math_round ((consistencyScore + volumeScore + reliabilityScore) / 3) in
  {| overall := overallScore;
     consistency := Math_round consistencyScore;
     volume := Math_round volumeScore;
     reliability := Math_round reliabilityScore |}.

(** The reported [overdueRate] and [reliabilityScore] of a payment
    reliability entry. *)
Definition paymentReliability (overdue_count payment_records : float)
  : float * float :=
  let overdueRate :=
    if gt payment_records 0
    then (overdue_count / payment_records) * 100
    else 0 in
  let reliabilityScore := Math_max 0 (100 - (overdueRate * 2)) in
  (round2 overdueRate, Math_round reliabilityScore).

Record risk_scores : Type := {
  r_overall : float;
  exposure : float;
  variability : float;
  timeliness : float;
  payment : float
}.

Definition category_of (overallRisk : float) : string :=
  if gt overallRisk 70 then "High"
  else if gt overallRisk 40 then "Medium"
  else "Low".

(** The [riskScores] object and the category of a risk entry. *)
Definition riskScores
           (totalInvoices totalExposure avgInvoiceValue invoiceVariability
            late_invoices overdue_payments : float)
  : risk_scores * string :=
  let lateInvoiceRate :=
    if gt totalInvoices 0 then (late_invoices / totalInvoices) * 100 else 0 in
  let overdueRate :=
    if gt totalInvoices 0
    then (overdue_payments / totalInvoices) * 100
    else 0 in
  let exposureRisk := Math_min 100 ((totalExposure / 1000000) * 100) in
  let variabilityRisk :=
    if gt avgInvoiceValue 0
    then Math_min 100 ((invoiceVariability / avgInvoiceValue) * 100)
    else 0 in
  let timelinessRisk := Math_min 100 (lateInvoiceRate * 2) in
  let paymentRisk := Math_min 100 (overdueRate * 3) in
  let overallRisk :=
    Math_round (exposureRisk * 0.3 + variabilityRisk * 0.2 +
                timelinessRisk * 0.25 + paymentRisk * 0.25) in
  ({| r_overall := overallRisk;
      exposure := Math_round exposureRisk;
      variability := Math_round variabilityRisk;
      timeliness := Math_round timelinessRisk;
      payment := Math_round paymentRisk |},
   category_of overallRisk).

(** The reported [growthRate] of a vendor, from the monthly spends in
    ascending order of month. *)
Definition spend_sum (arr : list float) : float :=
  fold_left (fun sum t => sum + t) arr 0.

Definition length_of (arr : list float) : float :=
  fold_left (fun n _ => n + 1) arr 0.

Definition growthRate (sortedSpends : list float) : float :=
  let recent := JS.slice sortedSpends (JS.of_Z (-3)) None in
  let previous :=
    JS.slice sortedSpends (JS.of_Z (-6)) (Some (JS.of_Z (-3))) in
  let recentAvg := spend_sum recent / length_of recent in
  let previousAvg :=
    if gt (length_of previous) 0
    then spend_sum previous / length_of previous
    else recentAvg in
  let growth :=
    if gt previousAvg 0
    then ((recentAvg - previousAvg) / previousAvg) * 100
    else 0 in
  round2 growth.


(** The number a binary64 value stands for. *)
Definition to_number (a : float) : JS.number :=
  match FloatOps.Prim2SF a with
  | SpecFloat.S754_zero _ => JS.Fin 0%Q
  | SpecFloat.S754_infinity s => if s then JS.NegInf else JS.PosInf
  | SpecFloat.S754_nan => JS.NaN
  | SpecFloat.S754_finite s m e =>
      JS.Fin (Qred ((if s then -1 else 1) * inject_Z (Z.pos m) * 2 ^ e)%Q)
  end.

End Binary64.

(** What [await prisma.$queryRaw] gives a handler: the rows, or an error
    thrown with a message. *)
Inductive query_result (A : Type) : Type :=
| Rows (rows : list A)
| Throws (message : string).
Arguments Rows {A} rows.
Arguments Throws {A} message.

(** What a handler sends: [res.json] with [success: true], or status 500
    with [success: false] and an error text. *)
Inductive reply (B : Type) : Type :=
| Success (body : B)
| Failure500 (error : string).
Arguments Success {B} body.
Arguments Failure500 {B} error.

(** [error.message || fallback] *)
Definition message_or (message fallback : string) : string :=
  if String.eqb message EmptyString then fallback else message.

Import JS.

(** Numeric literals of the source. *)
Definition n0 : number := of_Z 0.
Definition n3 : number := of_Z 3.
Definition n30 : number := of_Z 30.
Definition n40 : number := of_Z 40.
Definition n50 : number := of_Z 50.
Definition n70 : number := of_Z 70.
Definition n100 : number := of_Z 100.


(** What evaluating a piece of code gives: a value, or an error thrown
    with a message. *)
Inductive outcome (A : Type) : Type :=
| Returned (value : A)
| Thrown (message : string).
Arguments Returned {A} value.
Arguments Thrown {A} message.

(** [arr.reduce(step, acc)] for a callback that can throw. *)
Fixpoint reduce {A R : Type} (step : A -> R -> outcome A) (arr : list R)
         (acc : A) : outcome A :=
  match arr with
  | [] => Returned acc
  | x :: rest =>
      match step acc x with
      | Returned acc' => reduce step rest acc'
      | Thrown message => Thrown message
      end
  end.

(* ================================================================== *)
(** ** Property names of a plain object *)
(* ================================================================== *)

(** Two handlers group their rows in an object created by [{}], with the
    vendor name as the property name.  Such an object inherits the
    properties of [Object.prototype], and lists its own properties with
    the array indices first. *)
Module Keys.

Local Open Scope string_scope.

(** The properties an object created by [{}] inherits from
    [Object.prototype]. *)
Definition prototype_keys : list string :=
  ["constructor"; "__defineGetter__"; "__defineSetter__"; "hasOwnProperty";
   "__lookupGetter__"; "__lookupSetter__"; "isPrototypeOf";
   "propertyIsEnumerable"; "toString"; "valueOf"; "__proto__";
   "toLocaleString"].

(** [acc[name]] is an inherited property, as long as [acc] has no own
    property of that name. *)
Definition inherited (name : string) : bool :=
  existsb (String.eqb name) prototype_keys.

Definition digit_of (c : ascii) : option N :=
  let n := N_of_ascii c in
  if ((48 <=? n) && (n <=? 57))%N then Some (n - 48)%N else None.

Fixpoint decimal (s : string) (acc : N) : option N :=
  match s with
  | EmptyString => Some acc
  | String c rest =>
      match digit_of c with
      | Some d => decimal rest (10 * acc + d)%N
      | None => None
      end
  end.

(** The array index a property name stands for: the canonical decimal
    text of an integer from 0 to [2^32 - 2]. *)
Definition array_index (name : string) : option N :=
  match name with
  | EmptyString => None
  | String c rest =>
      if (Ascii.eqb c "0" && negb (String.eqb rest EmptyString))%bool
      then None
      else
        match decimal name 0 with
        | Some n => if (n <? 2 ^ 32 - 1)%N then Some n else None
        | None => None
        end
  end.

Definition is_index (name : string) : bool :=
  match array_index name with Some _ => true | None => false end.

Definition index_of (name : string) : N :=
  match array_index name with Some n => n | None => 0%N end.

Section Order.

Context {A : Type}.
Variable key : A -> string.

Fixpoint insert_by_index (x : A) (sorted : list A) : list A :=
  match sorted with
  | [] => [x]
  | y :: rest =>
      if (index_of (key x) <=? index_of (key y))%N then x :: sorted
      else y :: insert_by_index x rest
  end.

(** The order in which [Object.keys], [Object.values] and
    [Object.entries] list own properties given in creation order: the
    array indices first, in ascending numeric order, then the other
    names in creation order. *)
Definition own_order (props : list A) : list A :=
  fold_right insert_by_index [] (filter (fun a => is_index (key a)) props)
  ++ filter (fun a => negb (is_index (key a))) props.

End Order.

End Keys.

(* ================================================================== *)
(** ** GET /performance-scorecard *)
(* ================================================================== *)

Module PerformanceScorecard.

(** One row of the aggregate query.  [::int] columns are integers,
    [::decimal] columns are rationals, dates are timestamps. *)
Record row : Type := {
  vendorName : string;
  vendorTaxId : option string;
  invoice_count : Z;
  total_spend : Q;
  avg_invoice_value : Q;
  first_invoice : Z;
  last_invoice : Z;
  active_months : Z;
  avg_payment_terms : Q
}.

Record performance_score : Type := {
  overall : number;
  consistency : number;
  volume : number;
  reliability : number
}.

Record entry : Type := {
  e_vendorName : string;
  e_vendorTaxId : option string;
  totalSpend : number;
  invoiceCount : number;
  avgInvoiceValue : number;
  firstInvoice : Z;
  lastInvoice : Z;
  activeMonths : number;
  avgPaymentTerms : number;
  performanceScore : performance_score
}.

Section Scores.

(** The value of [parseInt(timeframe)]. *)
Variable timeframe : number.
Variable vendor : row.

Definition consistencyScore : number :=
  Math_min n100 (mul (div (of_Z (active_months vendor)) timeframe) n100).

Definition volumeScore : number :=
  Math_min n100 (mul (div (of_Z (invoice_count vendor)) n50) n100).

Definition reliabilityScore : number :=
  if gt (Fin (avg_payment_terms vendor)) n0
  then Math_max n0 (sub n100 (sub (Fin (avg_payment_terms vendor)) n30))
  else n50.

Definition overallScore : number :=
  Math_round
    (div (add (add consistencyScore volumeScore) reliabilityScore) n3).

(** The callback of [vendorPerformance.map]. *)
Definition scorecard_entry : entry :=
  {| e_vendorName := vendorName vendor;
     e_vendorTaxId := vendorTaxId vendor;
     totalSpend := Fin (total_spend vendor);
     invoiceCount := of_Z (invoice_count vendor);
     avgInvoiceValue := Fin (avg_invoice_value vendor);
     firstInvoice := first_invoice vendor;
     lastInvoice := last_invoice vendor;
     activeMonths := of_Z (active_months vendor);
     avgPaymentTerms := Fin (avg_payment_terms vendor);
     performanceScore :=
       {| overall := overallScore;
          consistency := Math_round consistencyScore;
          volume := Math_round volumeScore;
          reliability := Math_round reliabilityScore |} |}.

End Scores.

(** [scorecardData = vendorPerformance.map(...)] *)
Definition scorecardData (timeframe : number) (vendorPerformance : list row)
  : list entry :=
  map (scorecard_entry timeframe) vendorPerformance.

(** The scores with every operation rounded to binary64. *)
Module Rounded.

Section Scores.

Variable timeframe : number.
Variable vendor : row.

Definition consistencyScore : number :=
  Math_min n100
    (IEEE.mul (IEEE.div (of_Z (active_months vendor)) timeframe) n100).

Definition volumeScore : number :=
  Math_min n100 (IEEE.mul (IEEE.div (of_Z (invoice_count vendor)) n50) n100).

(** [vendor.avg_payment_terms] is a decimal; the comparison and the
    subtraction convert it to a number. *)
Definition reliabilityScore : number :=
  if gt (IEEE.round (avg_payment_terms vendor)) n0
  then Math_max n0
         (IEEE.sub n100 (IEEE.sub (IEEE.round (avg_payment_terms vendor)) n30))
  else n50.

Definition overallScore : number :=
  Math_round
    (IEEE.div (IEEE.add (IEEE.add consistencyScore volumeScore)
                        reliabilityScore) n3).

(** The callback of [vendorPerformance.map]. *)
Definition scorecard_entry : entry :=
  {| e_vendorName := vendorName vendor;
     e_vendorTaxId := vendorTaxId vendor;
     totalSpend := IEEE.round (total_spend vendor);
     invoiceCount := of_Z (invoice_count vendor);
     avgInvoiceValue := IEEE.round (avg_invoice_value vendor);
     firstInvoice := first_invoice vendor;
     lastInvoice := last_invoice vendor;
     activeMonths := of_Z (active_months vendor);
     avgPaymentTerms := IEEE.round (avg_payment_terms vendor);
     performanceScore :=
       {| overall := overallScore;
          consistency := Math_round consistencyScore;
          volume := Math_round volumeScore;
          reliability := Math_round reliabilityScore |} |}.

End Scores.

(** [scorecardData = vendorPerformance.map(...)] *)
Definition scorecardData (timeframe : number) (vendorPerformance : list row)
  : list entry :=
  map (scorecard_entry timeframe) vendorPerformance.

End Rounded.


(** A row with the three aggregates that drive the scores; the other
    columns do not enter any score. *)
Definition aggregate (invoiceCount activeMonths : Z) (avgPaymentTerms : Q)
  : row :=
  {| vendorName := "Tech Solutions Inc";
     vendorTaxId := None;
     invoice_count := invoiceCount;
     total_spend := 125000;
     avg_invoice_value := 2777.78;
     first_invoice := 0;
     last_invoice := 0;
     active_months := activeMonths;
     avg_payment_terms := avgPaymentTerms |}.

End PerformanceScorecard.


(* ================================================================== *)
(** ** GET /payment-reliability *)
(* ================================================================== *)

Module PaymentReliability.

Record row : Type := {
  vendorName : string;
  payment_records : Z;
  avg_payment_terms : Q;
  avg_discount_rate : Q;
  overdue_count : Z;
  discount_eligible : Z;
  potential_savings : Q;
  earliest_due : Z;
  latest_due : Z
}.

Record entry : Type := {
  e_vendorName : string;
  paymentRecords : number;
  avgPaymentTerms : number;
  avgDiscountRate : number;
  overdueCount : number;
  overdueRate : number;
  discountEligible : number;
  discountUtilization : number;
  potentialSavings : number;
  reliabilityScore : number;
  paymentWindow : Z * Z
}.

Section Scores.

Variable vendor : row.

Definition overdueRate_raw : number :=
  if gt (of_Z (payment_records vendor)) n0
  then mul (div (of_Z (overdue_count vendor))
                (of_Z (payment_records vendor))) n100
  else n0.

Definition discountUtilization_raw : number :=
  if gt (of_Z (payment_records vendor)) n0
  then mul (div (of_Z (discount_eligible vendor))
                (of_Z (payment_records vendor))) n100
  else n0.

Definition reliabilityScore_raw : number :=
  Math_max n0 (sub n100 (mul overdueRate_raw (of_Z 2))).

(** The callback of [paymentReliability.map]. *)
Definition reliability_entry : entry :=
  {| e_vendorName := vendorName vendor;
     paymentRecords := of_Z (payment_records vendor);
     avgPaymentTerms := Fin (avg_payment_terms vendor);
     avgDiscountRate := Fin (avg_discount_rate vendor);
     overdueCount := of_Z (overdue_count vendor);
     overdueRate := round2 overdueRate_raw;
     discountEligible := of_Z (discount_eligible vendor);
     discountUtilization := round2 discountUtilization_raw;
     potentialSavings := Fin (potential_savings vendor);
     reliabilityScore := Math_round reliabilityScore_raw;
     paymentWindow := (earliest_due vendor, latest_due vendor) |}.

End Scores.

Definition reliabilityData (paymentReliability : list row) : list entry :=
  map reliability_entry paymentReliability.

(** The rates and the score with every operation rounded to binary64. *)
Module Rounded.

Section Scores.

Variable vendor : row.

Definition overdueRate_raw : number :=
  if gt (of_Z (payment_records vendor)) n0
  then IEEE.mul (IEEE.div (of_Z (overdue_count vendor))
                          (of_Z (payment_records vendor))) n100
  else n0.

Definition discountUtilization_raw : number :=
  if gt (of_Z (payment_records vendor)) n0
  then IEEE.mul (IEEE.div (of_Z (discount_eligible vendor))
                          (of_Z (payment_records vendor))) n100
  else n0.

Definition reliabilityScore_raw : number :=
  Math_max n0 (IEEE.sub n100 (IEEE.mul overdueRate_raw (of_Z 2))).

(** The callback of [paymentReliability.map]. *)
Definition reliability_entry : entry :=
  {| e_vendorName := vendorName vendor;
     paymentRecords := of_Z (payment_records vendor);
     avgPaymentTerms := IEEE.round (avg_payment_terms vendor);
     avgDiscountRate := IEEE.round (avg_discount_rate vendor);
     overdueCount := of_Z (overdue_count vendor);
     overdueRate := IEEE.round2 overdueRate_raw;
     discountEligible := of_Z (discount_eligible vendor);
     discountUtilization := IEEE.round2 discountUtilization_raw;
     potentialSavings := IEEE.round (potential_savings vendor);
     reliabilityScore := Math_round reliabilityScore_raw;
     paymentWindow := (earliest_due vendor, latest_due vendor) |}.

End Scores.

Definition reliabilityData (paymentReliability : list row) : list entry :=
  map reliability_entry paymentReliability.

End Rounded.


(** A row with the two counts that drive the score. *)
Definition aggregate (overdueCount paymentRecords : Z) : row :=
  {| vendorName := "Tech Solutions Inc";
     payment_records := paymentRecords;
     avg_payment_terms := 30.5;
     avg_discount_rate := 2.5;
     overdue_count := overdueCount;
     discount_eligible := 0;
     potential_savings := 0;
     earliest_due := 0;
     latest_due := 0 |}.

End PaymentReliability.

(* ================================================================== *)
(** ** GET /spending-trends *)
(* ================================================================== *)

Module SpendingTrends.

(** One element of a vendor's [trends] array; [month] is the timestamp
    [new Date(month).getTime()] of the month's first day. *)
Record trend : Type := {
  month : Z;
  invoiceCount : Z;
  monthlySpend : Q;
  avgInvoiceValue : Q
}.

Record summary : Type := {
  totalSpend : number;
  avgMonthlySpend : number;
  growthRate : number;
  activeMonths : Z;
  totalInvoices : number
}.

Record entry : Type := {
  vendorName : string;
  trends : list trend;
  summary_of : summary
}.

(** [(a, b) => new Date(a.month).getTime() - new Date(b.month).getTime()] *)
Definition by_month (a b : trend) : number :=
  sub (of_Z (month a)) (of_Z (month b)).

(** [arr.reduce((sum, t) => sum + t.monthlySpend, 0)] *)
Definition spend_sum (arr : list trend) : number :=
  sum_by (fun t => Fin (monthlySpend t)) arr.

Section Vendor.

Variable name : string.
Variable vendor_trends : list trend.

Definition sortedTrends : list trend := sort by_month vendor_trends.

Definition recent : list trend := slice sortedTrends (of_Z (-3)) None.

Definition previous : list trend :=
  slice sortedTrends (of_Z (-6)) (Some (of_Z (-3))).

Definition recentAvg : number := div (spend_sum recent) (length_of recent).

Definition previousAvg : number :=
  if gt (length_of previous) n0
  then div (spend_sum previous) (length_of previous)
  else recentAvg.

Definition growthRate_raw : number :=
  if gt previousAvg n0
  then mul (div (sub recentAvg previousAvg) previousAvg) n100
  else n0.

(** [trends.sort] sorts in place, so [trends] below is the sorted
    array as well. *)
Definition total_spend : number := spend_sum sortedTrends.

Definition avgMonthlySpend_raw : number :=
  div total_spend (length_of sortedTrends).

(** The callback of [Object.entries(trendsByVendor).map]. *)
Definition trend_entry : entry :=
  {| vendorName := name;
     trends := sortedTrends;
     summary_of :=
       {| totalSpend := total_spend;
          avgMonthlySpend := round2 avgMonthlySpend_raw;
          growthRate := round2 growthRate_raw;
          activeMonths := Z.of_nat (List.length sortedTrends);
          totalInvoices :=
            sum_by (fun t => of_Z (invoiceCount t)) sortedTrends |} |}.

End Vendor.

(** A month with the given spend; [k] numbers the months. *)
Definition point (k : Z) (spend : Q) : trend :=
  {| month := k; invoiceCount := 1; monthlySpend := spend;
     avgInvoiceValue := spend |}.

(** The summary with every operation rounded to binary64. *)
Module Rounded.

(** [arr.reduce((sum, t) => sum + t.monthlySpend, 0)], where
    [monthlySpend] is [parseFloat(record.monthly_spend)]. *)
Definition spend_sum (arr : list trend) : number :=
  IEEE.sum_by (fun t => IEEE.round (monthlySpend t)) arr.

Section Vendor.

Variable name : string.
Variable vendor_trends : list trend.

Definition recentAvg : number :=
  IEEE.div (spend_sum (recent vendor_trends))
           (length_of (recent vendor_trends)).

Definition previousAvg : number :=
  if gt (length_of (previous vendor_trends)) n0
  then IEEE.div (spend_sum (previous vendor_trends))
                (length_of (previous vendor_trends))
  else recentAvg.

Definition growthRate_raw : number :=
  if gt previousAvg n0
  then IEEE.mul (IEEE.div (IEEE.sub recentAvg previousAvg) previousAvg) n100
  else n0.

Definition total_spend : number := spend_sum (sortedTrends vendor_trends).

Definition avgMonthlySpend_raw : number :=
  IEEE.div total_spend (length_of (sortedTrends vendor_trends)).

(** The callback of [Object.entries(trendsByVendor).map]. *)
Definition trend_entry : entry :=
  {| vendorName := name;
     trends := sortedTrends vendor_trends;
     summary_of :=
       {| totalSpend := total_spend;
          avgMonthlySpend := IEEE.round2 avgMonthlySpend_raw;
          growthRate := IEEE.round2 growthRate_raw;
          activeMonths := Z.of_nat (List.length (sortedTrends vendor_trends));
          totalInvoices :=
            IEEE.sum_by (fun t => of_Z (invoiceCount t))
                        (sortedTrends vendor_trends) |} |}.

End Vendor.

End Rounded.


(** One row of the monthly query: a (vendor, month) pair. *)
Record row : Type := {
  r_vendorName : string;
  r_month : Z;
  invoice_count : Z;
  monthly_spend : Q;
  avg_invoice_value : Q
}.

(** The object pushed to a vendor's array for a row. *)
Definition to_trend (record : row) : trend :=
  {| month := r_month record;
     invoiceCount := invoice_count record;
     monthlySpend := monthly_spend record;
     avgInvoiceValue := avg_invoice_value record |}.

(** [if (!acc[vendorName]) acc[vendorName] = []; acc[vendorName].push(t)]
    for a [vendorName] the object does not inherit.  The own properties
    of the grouping object are kept with their values, in the order in
    which they were created. *)
Fixpoint push_trend (name : string) (t : trend)
         (acc : list (string * list trend)) : list (string * list trend) :=
  match acc with
  | [] => [(name, [t])]
  | (key, pushed) :: rest =>
      if String.eqb key name then (key, pushed ++ [t]) :: rest
      else (key, pushed) :: push_trend name t rest
  end.

(** The callback of [spendingTrends.reduce].  For a vendor named like a
    property of [Object.prototype], [acc[vendorName]] is that property:
    no array is created, and [.push] throws. *)
Definition collect (acc : list (string * list trend)) (record : row)
  : outcome (list (string * list trend)) :=
  if Keys.inherited (r_vendorName record)
  then Thrown "acc[vendorName].push is not a function"
  else Returned (push_trend (r_vendorName record) (to_trend record) acc).

(** [trendsByVendor = spendingTrends.reduce(..., {})]: the own properties
    in creation order. *)
Definition trendsByVendor (spendingTrends : list row)
  : outcome (list (string * list trend)) :=
  reduce collect spendingTrends [].

(** [trendsData = Object.entries(trendsByVendor).map(...)] *)
Definition trendsData (obj : list (string * list trend)) : list entry :=
  map (fun kv => Rounded.trend_entry (fst kv) (snd kv))
      (Keys.own_order fst obj).

(** One row of the first query, which picks the top vendors. *)
Record top_vendor : Type := {
  id : string;
  t_vendorName : string;
  t_total_spend : Q
}.

Record response : Type := {
  data : list entry;
  topVendorsCount : number
}.

(** The body of [res.json] on the success path; [topVendors] is the
    value of [parseInt(topVendors)].  The [timeframe] text and the
    [timestamp] are left out. *)
Definition respond (topVendors : number) (obj : list (string * list trend))
  : response :=
  {| data := trendsData obj; topVendorsCount := topVendors |}.

(** The handler around its two queries and the grouping: an error thrown
    by any of them becomes a 500. *)
Definition handler (topVendors : number)
           (topVendorsList : query_result top_vendor)
           (spendingTrends : query_result row) : reply response :=
  match topVendorsList with
  | Throws message =>
      Failure500 (message_or message "Failed to get spending trends data")
  | Rows _ =>
      match spendingTrends with
      | Throws message =>
          Failure500 (message_or message "Failed to get spending trends data")
      | Rows monthly =>
          match trendsByVendor monthly with
          | Thrown message =>
              Failure500
                (message_or message "Failed to get spending trends data")
          | Returned obj => Success (respond topVendors obj)
          end
      end
  end.

End SpendingTrends.

(* ================================================================== *)
(** ** GET /risk-assessment *)
(* ================================================================== *)

Module RiskAssessment.

Record row : Type := {
  vendorName : string;
  vendorTaxId : option string;
  total_invoices : Z;
  total_exposure : Q;
  avg_invoice_value : Q;
  invoice_variability : Q;
  late_invoices : Z;
  overdue_payments : Z;
  avg_payment_window : Q;
  relationship_start : Z;
  last_activity : Z;
  active_months : Z
}.

Record risk_scores : Type := {
  overall : number;
  exposure : number;
  variability : number;
  timeliness : number;
  payment : number
}.

Record entry : Type := {
  e_vendorName : string;
  e_vendorTaxId : option string;
  totalInvoices : number;
  totalExposure : number;
  avgInvoiceValue : number;
  invoiceVariability : number;
  lateInvoices : number;
  lateInvoiceRate : number;
  overduePayments : number;
  overdueRate : number;
  avgPaymentWindow : number;
  relationshipDuration : Z * Z * Z;
  riskScores : risk_scores;
  riskCategory : string
}.

(** The weights of the overall risk. *)
Definition w_exposure : number := Fin 0.3.
Definition w_variability : number := Fin 0.2.
Definition w_timeliness : number := Fin 0.25.
Definition w_payment : number := Fin 0.25.

(** [let riskCategory = 'Low'; if (overallRisk > 70) ... else if
    (overallRisk > 40) ...] *)
Definition category_of (overallRisk : number) : string :=
  if gt overallRisk n70 then "High"
  else if gt overallRisk n40 then "Medium"
  else "Low".

Section Scores.

Variable vendor : row.

Definition lateInvoiceRate_raw : number :=
  if gt (of_Z (total_invoices vendor)) n0
  then mul (div (of_Z (late_invoices vendor))
                (of_Z (total_invoices vendor))) n100
  else n0.

Definition overdueRate_raw : number :=
  if gt (of_Z (total_invoices vendor)) n0
  then mul (div (of_Z (overdue_payments vendor))
                (of_Z (total_invoices vendor))) n100
  else n0.

Definition exposureRisk : number :=
  Math_min n100
    (mul (div (Fin (total_exposure vendor)) (of_Z 1000000)) n100).

Definition variabilityRisk : number :=
  if gt (Fin (avg_invoice_value vendor)) n0
  then Math_min n100
         (mul (div (Fin (invoice_variability vendor))
                   (Fin (avg_invoice_value vendor))) n100)
  else n0.

Definition timelinessRisk : number :=
  Math_min n100 (mul lateInvoiceRate_raw (of_Z 2)).

Definition paymentRisk : number :=
  Math_min n100 (mul overdueRate_raw (of_Z 3)).

Definition overallRisk : number :=
  Math_round
    (add (add (add (mul exposureRisk w_exposure)
                   (mul variabilityRisk w_variability))
              (mul timelinessRisk w_timeliness))
         (mul paymentRisk w_payment)).

(** The callback of [riskAssessment.map]. *)
Definition risk_entry : entry :=
  {| e_vendorName := vendorName vendor;
     e_vendorTaxId := vendorTaxId vendor;
     totalInvoices := of_Z (total_invoices vendor);
     totalExposure := Fin (total_exposure vendor);
     avgInvoiceValue := Fin (avg_invoice_value vendor);
     invoiceVariability := Fin (invoice_variability vendor);
     lateInvoices := of_Z (late_invoices vendor);
     lateInvoiceRate := round2 lateInvoiceRate_raw;
     overduePayments := of_Z (overdue_payments vendor);
     overdueRate := round2 overdueRate_raw;
     avgPaymentWindow := Fin (avg_payment_window vendor);
     relationshipDuration :=
       (relationship_start vendor, last_activity vendor,
        active_months vendor);
     riskScores :=
       {| overall := overallRisk;
          exposure := Math_round exposureRisk;
          variability := Math_round variabilityRisk;
          timeliness := Math_round timelinessRisk;
          payment := Math_round paymentRisk |};
     riskCategory := category_of overallRisk |}.

End Scores.

(** The risk scores with every operation rounded to binary64; the
    weights are the binary64 values of their literals. *)
Module Rounded.

Section Scores.

Variable vendor : row.

Definition lateInvoiceRate_raw : number :=
  if gt (of_Z (total_invoices vendor)) n0
  then IEEE.mul (IEEE.div (of_Z (late_invoices vendor))
                          (of_Z (total_invoices vendor))) n100
  else n0.

Definition overdueRate_raw : number :=
  if gt (of_Z (total_invoices vendor)) n0
  then IEEE.mul (IEEE.div (of_Z (overdue_payments vendor))
                          (of_Z (total_invoices vendor))) n100
  else n0.

Definition exposureRisk : number :=
  Math_min n100
    (IEEE.mul (IEEE.div (IEEE.round (total_exposure vendor)) (of_Z 1000000))
              n100).

Definition variabilityRisk : number :=
  if gt (IEEE.round (avg_invoice_value vendor)) n0
  then Math_min n100
         (IEEE.mul (IEEE.div (IEEE.round (invoice_variability vendor))
                             (IEEE.round (avg_invoice_value vendor))) n100)
  else n0.

Definition timelinessRisk : number :=
  Math_min n100 (IEEE.mul lateInvoiceRate_raw (of_Z 2)).

Definition paymentRisk : number :=
  Math_min n100 (IEEE.mul overdueRate_raw (of_Z 3)).

Definition overallRisk : number :=
  Math_round
    (IEEE.add
       (IEEE.add
          (IEEE.add (IEEE.mul exposureRisk (IEEE.round 0.3))
                    (IEEE.mul variabilityRisk (IEEE.round 0.2)))
          (IEEE.mul timelinessRisk (IEEE.round 0.25)))
       (IEEE.mul paymentRisk (IEEE.round 0.25))).

(** The callback of [riskAssessment.map]. *)
Definition risk_entry : entry :=
  {| e_vendorName := vendorName vendor;
     e_vendorTaxId := vendorTaxId vendor;
     totalInvoices := of_Z (total_invoices vendor);
     totalExposure := IEEE.round (total_exposure vendor);
     avgInvoiceValue := IEEE.round (avg_invoice_value vendor);
     invoiceVariability := IEEE.round (invoice_variability vendor);
     lateInvoices := of_Z (late_invoices vendor);
     lateInvoiceRate := IEEE.round2 lateInvoiceRate_raw;
     overduePayments := of_Z (overdue_payments vendor);
     overdueRate := IEEE.round2 overdueRate_raw;
     avgPaymentWindow := IEEE.round (avg_payment_window vendor);
     relationshipDuration :=
       (relationship_start vendor, last_activity vendor,
        active_months vendor);
     riskScores :=
       {| overall := overallRisk;
          exposure := Math_round exposureRisk;
          variability := Math_round variabilityRisk;
          timeliness := Math_round timelinessRisk;
          payment := Math_round paymentRisk |};
     riskCategory := category_of overallRisk |}.

End Scores.

End Rounded.

Record risk_distribution : Type := {
  high : Z;
  medium : Z;
  low : Z
}.

Record metadata : Type := {
  totalVendors : Z;
  riskDistribution : risk_distribution
}.

Record response : Type := {
  data : list entry;
  metadata_of : metadata
}.

(** [v => v.riskCategory === label] *)
Definition in_category (label : string) (v : entry) : bool :=
  String.eqb (riskCategory v) label.

(** The body of [res.json] on the success path; the [timestamp] field is
    the wall clock and is left out. *)
Definition respond (riskAssessment : list row) : response :=
  let riskData := map risk_entry riskAssessment in
  {| data := riskData;
     metadata_of :=
       {| totalVendors := Z.of_nat (List.length riskData);
          riskDistribution :=
            {| high := count_if (in_category "High") riskData;
               medium := count_if (in_category "Medium") riskData;
               low := count_if (in_category "Low") riskData |} |} |}.

(** The handler around the query: a thrown error becomes a 500. *)
Definition handler (queried : query_result row) : reply response :=
  match queried with
  | Rows riskAssessment => Success (respond riskAssessment)
  | Throws message =>
      Failure500 (message_or message "Failed to get risk assessment data")
  end.

(** A row built from the aggregates that drive the risk scores. *)
Definition aggregate (invoices : Z) (exposureTotal avgValue stddev : Q)
           (late overdue : Z) : row :=
  {| vendorName := "Tech Solutions Inc";
     vendorTaxId := None;
     total_invoices := invoices;
     total_exposure := exposureTotal;
     avg_invoice_value := avgValue;
     invoice_variability := stddev;
     late_invoices := late;
     overdue_payments := overdue;
     avg_payment_window := 30.5;
     relationship_start := 0;
     last_activity := 0;
     active_months := 1 |}.

End RiskAssessment.

(* ================================================================== *)
(** ** GET /category-analysis *)
(* ================================================================== *)

Module CategoryAnalysis.

(** One row of the aggregate query: a (vendor, line-item description)
    pair. *)
Record row : Type := {
  vendorName : string;
  category : string;
  item_count : Z;
  category_spend : Q;
  avg_unit_price : Q;
  avg_quantity : Q
}.

(** An element of [categories]; [percentage] is absent until the final
    [map] adds it. *)
Record category_item : Type := {
  c_category : string;
  itemCount : Z;
  categorySpend : number;
  avgUnitPrice : number;
  avgQuantity : number;
  percentage : option number
}.

Record vendor_group : Type := {
  g_vendorName : string;
  categories : list category_item;
  totalSpend : number;
  totalItems : number
}.

(** [acc[vendorName]] created when missing, then updated in place, for
    a [vendorName] the object does not inherit.  The own properties of
    the grouping object are kept as the list of their values, in the
    order in which they were created. *)
Fixpoint upsert (name : string) (update : vendor_group -> vendor_group)
         (acc : list vendor_group) : list vendor_group :=
  match acc with
  | [] =>
      [update {| g_vendorName := name; categories := [];
                 totalSpend := n0; totalItems := n0 |}]
  | g :: rest =>
      if String.eqb (g_vendorName g) name then update g :: rest
      else g :: upsert name update rest
  end.

(** The callback of [categoryAnalysis.reduce] in exact arithmetic, on
    vendor names the object does not inherit. *)
Definition collect (acc : list vendor_group) (record : row)
  : list vendor_group :=
  let spend := Fin (category_spend record) in
  upsert (vendorName record)
    (fun g =>
       {| g_vendorName := g_vendorName g;
          categories :=
            categories g ++
            [{| c_category := category record;
                itemCount := item_count record;
                categorySpend := spend;
                avgUnitPrice := Fin (avg_unit_price record);
                avgQuantity := Fin (avg_quantity record);
                percentage := None |}];
          totalSpend := add (totalSpend g) spend;
          totalItems := add (totalItems g) (of_Z (item_count record)) |})
    acc.

(** The groups in the order in which they were created. *)
Definition vendorCategories (categoryAnalysis : list row)
  : list vendor_group :=
  fold_left collect categoryAnalysis [].

(** [(a, b) => b.categorySpend - a.categorySpend] *)
Definition by_category_spend (a b : category_item) : number :=
  sub (categorySpend b) (categorySpend a).

(** [(a, b) => b.totalSpend - a.totalSpend] *)
Definition by_total_spend (a b : vendor_group) : number :=
  sub (totalSpend b) (totalSpend a).

(** The callback of the first [map]: categories sorted by spend, each
    with its share of the vendor's total. *)
Definition with_percentages (vendor : vendor_group) : vendor_group :=
  {| g_vendorName := g_vendorName vendor;
     categories :=
       map (fun cat =>
              {| c_category := c_category cat;
                 itemCount := itemCount cat;
                 categorySpend := categorySpend cat;
                 avgUnitPrice := avgUnitPrice cat;
                 avgQuantity := avgQuantity cat;
                 percentage :=
                   Some (if gt (totalSpend vendor) n0
                         then div (Math_round
                                     (mul (div (categorySpend cat)
                                               (totalSpend vendor))
                                          (of_Z 10000)))
                                  n100
                         else n0) |})
           (sort by_category_spend (categories vendor));
     totalSpend := totalSpend vendor;
     totalItems := totalItems vendor |}.

(** The vendors ranked by total spend, before the cut. *)
Definition ranked (groups : list vendor_group) : list vendor_group :=
  sort by_total_spend (map with_percentages groups).

(** [categoryData]: the ranking cut by [.slice(0, parseInt(limit))];
    [limit] is the value of [parseInt(limit)]. *)
Definition categoryData (limit : number) (groups : list vendor_group)
  : list vendor_group :=
  slice (ranked groups) n0 (Some limit).

Record response : Type := {
  data : list vendor_group;
  totalVendors : Z
}.

Definition respond (limit : number) (categoryAnalysis : list row)
  : response :=
  let result := categoryData limit (vendorCategories categoryAnalysis) in
  {| data := result; totalVendors := Z.of_nat (List.length result) |}.

(** The analysis with the keys of the grouping object and with every
    operation rounded to binary64. *)
Module Rounded.

(** The element pushed to [categories]; the decimals go through
    [parseFloat]. *)
Definition item (record : row) : category_item :=
  {| c_category := category record;
     itemCount := item_count record;
     categorySpend := IEEE.round (category_spend record);
     avgUnitPrice := IEEE.round (avg_unit_price record);
     avgQuantity := IEEE.round (avg_quantity record);
     percentage := None |}.

(** What the callback does to [acc[vendorName]]. *)
Definition add_row (record : row) (g : vendor_group) : vendor_group :=
  {| g_vendorName := g_vendorName g;
     categories := categories g ++ [item record];
     totalSpend :=
       IEEE.add (totalSpend g) (IEEE.round (category_spend record));
     totalItems := IEEE.add (totalItems g) (of_Z (item_count record)) |}.

(** The callback of [categoryAnalysis.reduce].  For a vendor named like
    a property of [Object.prototype], [acc[vendorName]] is that
    property: no group is created, and [.categories.push] throws. *)
Definition collect (acc : list vendor_group) (record : row)
  : outcome (list vendor_group) :=
  if Keys.inherited (vendorName record)
  then Thrown "Cannot read properties of undefined (reading 'push')"
  else Returned (upsert (vendorName record) (add_row record) acc).

(** [vendorCategories = categoryAnalysis.reduce(..., {})]: the own
    properties in creation order. *)
Definition vendorCategories (categoryAnalysis : list row)
  : outcome (list vendor_group) :=
  reduce collect categoryAnalysis [].

(** [(a, b) => b.categorySpend - a.categorySpend] *)
Definition by_category_spend (a b : category_item) : number :=
  IEEE.sub (categorySpend b) (categorySpend a).

(** [(a, b) => b.totalSpend - a.totalSpend] *)
Definition by_total_spend (a b : vendor_group) : number :=
  IEEE.sub (totalSpend b) (totalSpend a).

(** The callback of the first [map]. *)
Definition with_percentages (vendor : vendor_group) : vendor_group :=
  {| g_vendorName := g_vendorName vendor;
     categories :=
       map (fun cat =>
              {| c_category := c_category cat;
                 itemCount := itemCount cat;
                 categorySpend := categorySpend cat;
                 avgUnitPrice := avgUnitPrice cat;
                 avgQuantity := avgQuantity cat;
                 percentage :=
                   Some (if gt (totalSpend vendor) n0
                         then IEEE.div
                                (Math_round
                                   (IEEE.mul
                                      (IEEE.div (categorySpend cat)
                                                (totalSpend vendor))
                                      (of_Z 10000)))
                                n100
                         else n0) |})
           (sort by_category_spend (categories vendor));
     totalSpend := totalSpend vendor;
     totalItems := totalItems vendor |}.

(** [Object.values(vendorCategories).map(...).sort(...)]: the vendors
    ranked by total spend, before the cut. *)
Definition ranked (obj : list vendor_group) : list vendor_group :=
  sort by_total_spend
       (map with_percentages (Keys.own_order g_vendorName obj)).

(** [categoryData]: the ranking cut by [.slice(0, parseInt(limit))]. *)
Definition categoryData (limit : number) (obj : list vendor_group)
  : list vendor_group :=
  slice (ranked obj) n0 (Some limit).

Definition respond (limit : number) (obj : list vendor_group) : response :=
  let result := categoryData limit obj in
  {| data := result; totalVendors := Z.of_nat (List.length result) |}.

End Rounded.

(** The handler around the query and the grouping: an error thrown by
    either becomes a 500. *)
Definition handler (limit : number) (queried : query_result row)
  : reply response :=
  match queried with
  | Rows categoryAnalysis =>
      match Rounded.vendorCategories categoryAnalysis with
      | Returned obj => Success (Rounded.respond limit obj)
      | Thrown message =>
          Failure500
            (message_or message "Failed to get category analysis data")
      end
  | Throws message =>
      Failure500
        (message_or message "Failed to get category analysis data")
  end.

(** A query row for one vendor and one category. *)
Definition line (vendor cat : string) (spend : Q) : row :=
  {| vendorName := vendor; category := cat; item_count := 1;
     category_spend := spend; avg_unit_price := spend;
     avg_quantity := 1 |}.

(** A query result with three vendors. *)
Definition three_vendors : list row :=
  [line "a" "x" 10; line "b" "x" 30; line "c" "z" 5].

End CategoryAnalysis.

(* ================================================================== *)
(** ** Predicates used in the statements *)
(* ================================================================== *)


(** [a] is a finite value between [lo] and [hi]. *)
Definition within (lo hi : Q) (a : number) : Prop :=
  match a with
  | Fin q => (lo <= q <= hi)%Q
  | _ => False
  end.

(** The normalizer as the specification words it:
    [min(100, max(0, (rawValue / referenceScale) * 100))], and 0 for a
    reference scale of 0. *)
Definition spec_normalize (rawValue referenceScale : Q) : Q :=
  if Qeq_bool referenceScale 0 then 0%Q
  else Qmin 100 (Qmax 0 (rawValue / referenceScale * 100)).


(** The last [n] elements of a list, and the list without them. *)
Definition last_n {A : Type} (n : nat) (l : list A) : list A :=
  skipn (List.length l - n) l.

Definition drop_last_n {A : Type} (n : nat) (l : list A) : list A :=
  firstn (List.length l - n) l.

(** Sum and mean of a list of rationals. *)
Definition Qsum (l : list Q) : Q := fold_left Qplus l 0%Q.



(** [a]'s month is not after [b]'s. *)
Definition month_le (a b : SpendingTrends.trend) : Prop :=
  (SpendingTrends.month a <= SpendingTrends.month b)%Z.

(** The sum of a list of integers. *)
Definition Zsum (l : list Z) : Z := fold_right Z.add 0%Z l.

(** The rows of one vendor in the monthly query, in query order. *)
Definition trend_rows_of (name : string) (rows : list SpendingTrends.row)
  : list SpendingTrends.row :=
  filter (fun r => String.eqb (SpendingTrends.r_vendorName r) name) rows.

(** The array stored under a key of the grouping, [[]] for a missing
    key. *)
Fixpoint trends_under (name : string)
         (groups : list (string * list SpendingTrends.trend))
  : list SpendingTrends.trend :=
  match groups with
  | [] => []
  | (key, pushed) :: rest =>
      if String.eqb key name then pushed else trends_under name rest
  end.

(** An entry of the grouping holds the rows of its vendor, in query
    order, and at least one. *)
Definition trend_group_of (rows : list SpendingTrends.row)
           (kv : string * list SpendingTrends.trend) : Prop :=
  snd kv = map SpendingTrends.to_trend (trend_rows_of (fst kv) rows) /\
  snd kv <> [].

(** The rows of one vendor in the category query, in query order. *)
Definition category_rows_of (name : string) (rows : list CategoryAnalysis.row)
  : list CategoryAnalysis.row :=
  filter (fun r => String.eqb (CategoryAnalysis.vendorName r) name) rows.






(** The vendor's total spend is the finite value [x]. *)
Definition has_total (x : Q) (g : CategoryAnalysis.vendor_group) : bool :=
  match CategoryAnalysis.totalSpend g with
  | Fin t => Qeq_bool t x
  | _ => false
  end.




(** The names of a list in the order of their first appearance. *)
Definition first_appearances (names : list string) : list string :=
  fold_left (fun seen x =>
               if existsb (String.eqb x) seen then seen else seen ++ [x])
            names [].

(** The names [shown] are the names [created], in the order in which
    [Object.keys] lists properties created in that order: the array
    indices first, in ascending order, then the other names as they were
    created. *)
Definition own_key_order (created shown : list string) : Prop :=
  exists indices others : list string,
    shown = indices ++ others /\
    Forall (fun name => Keys.is_index name = true) indices /\
    Permutation indices (filter Keys.is_index created) /\
    StronglySorted (fun a b => (Keys.index_of a <= Keys.index_of b)%N)
                   indices /\
    others = filter (fun name => negb (Keys.is_index name)) created.

(** The arrays the grouping of the monthly rows creates, in creation
    order, when no row makes it throw. *)
Definition trends_pushed (rows : list SpendingTrends.row)
  : list (string * list SpendingTrends.trend) :=
  fold_left (fun acc record =>
               SpendingTrends.push_trend (SpendingTrends.r_vendorName record)
                 (SpendingTrends.to_trend record) acc)
            rows [].

(** The groups the reduction of the category rows creates, in creation
    order, when no row makes it throw. *)
Definition groups_built (rows : list CategoryAnalysis.row)
  : list CategoryAnalysis.vendor_group :=
  fold_left (fun acc record =>
               CategoryAnalysis.upsert (CategoryAnalysis.vendorName record)
                 (CategoryAnalysis.Rounded.add_row record) acc)
            rows [].

(** A group holds the rows of its vendor, at least one, in query order;
    its totals are the running binary64 sums over these rows. *)
Definition rounded_group_of (rows : list CategoryAnalysis.row)
           (g : CategoryAnalysis.vendor_group) : Prop :=
  let own := category_rows_of (CategoryAnalysis.g_vendorName g) rows in
  own <> [] /\
  CategoryAnalysis.categories g = map CategoryAnalysis.Rounded.item own /\
  CategoryAnalysis.totalSpend g =
  IEEE.sum_by (fun r => IEEE.round (CategoryAnalysis.category_spend r)) own /\
  CategoryAnalysis.totalItems g =
  IEEE.sum_by (fun r => of_Z (CategoryAnalysis.item_count r)) own.

(** The percentages of a vendor's categories lie between 0 and 100, and
    are 0 when the vendor's total is. *)
Definition percentages_in_range (g : CategoryAnalysis.vendor_group) : Prop :=
  exists total : Q,
    CategoryAnalysis.totalSpend g = Fin total /\ (0 <= total)%Q /\
    Forall (fun c =>
              exists p : Q,
                CategoryAnalysis.percentage c = Some (Fin p) /\
                (0 <= p <= 100)%Q /\ ((total == 0)%Q -> (p == 0)%Q))
           (CategoryAnalysis.categories g).

(* ================================================================== *)
(** ** Facts about numbers *)
(* ================================================================== *)

Section NumberFacts.

Local Open Scope Q_scope.

Lemma Qcompare_gt_iff (x y : Q) : (x ?= y) = Gt <-> y < x.
Proof.
  rewrite Qgt_alt. reflexivity.
Qed.

Lemma gt_fin (x y : Q) : gt (Fin x) (Fin y) = true <-> y < x.
Proof.
  unfold gt. rewrite <- Qcompare_gt_iff.
  destruct (x ?= y); split; intro H; try reflexivity; discriminate.
Qed.

Lemma gt_fin_false (x y : Q) : gt (Fin x) (Fin y) = false <-> x <= y.
Proof.
  rewrite <- not_true_iff_false, gt_fin. split.
  - apply Qnot_lt_le.
  - intros H H'. apply (Qlt_not_le _ _ H' H).
Qed.



Lemma div_fin_zero_pos (x y : Q) :
  y == 0 -> 0 < x -> div (Fin x) (Fin y) = PosInf.
Proof.
  intros Hy Hx. unfold div.
  apply Qeq_bool_iff in Hy. rewrite Hy.
  apply Qcompare_gt_iff in Hx. rewrite Hx. reflexivity.
Qed.

Lemma div_fin_zero_zero (x y : Q) :
  y == 0 -> x == 0 -> div (Fin x) (Fin y) = NaN.
Proof.
  intros Hy Hx. unfold div.
  apply Qeq_bool_iff in Hy. rewrite Hy.
  apply Qeq_alt in Hx. rewrite Hx. reflexivity.
Qed.



Lemma inject_Z_nonneg (z : Z) : (0 <= z)%Z -> 0 <= inject_Z z.
Proof.
  intro H. change 0 with (inject_Z 0). rewrite <- Zle_Qle. assumption.
Qed.




(** The rounded value is within one half of the argument. *)
Lemma round_half_up_near (x : Q) :
  x - (1 # 2) < inject_Z (round_half_up x) <= x + (1 # 2).
Proof.
  unfold round_half_up. split.
  - pose proof (Qlt_floor (x + (1 # 2))) as H.
    rewrite inject_Z_plus in H. change (inject_Z 1) with 1 in H. lra.
  - apply Qfloor_le.
Qed.


End NumberFacts.

(* ================================================================== *)
(** ** The performance scorecard *)
(* ================================================================== *)

Section UpperBounds.

Local Open Scope Q_scope.







End UpperBounds.


Section CappedRatios.

Local Open Scope Q_scope.



End CappedRatios.

Section PerformanceFacts.

Import PerformanceScorecard.
Local Open Scope Q_scope.

Variable timeframe : number.
Variable vendor : row.







End PerformanceFacts.

Section PerformanceClaims.

Import PerformanceScorecard.
Local Open Scope Q_scope.

(** C1 (as the specification states it) does not hold: on the row
    [{invoiceCount: 45, activeMonths: 8, avgPaymentTerms: 30.5}] with a
    window of 12 months the scorecard is not
    [{overall: 86, consistency: 67, volume: 90, reliability: 100}]. *)
Lemma scenario_overall_is_not_86 :
  performanceScore (scorecard_entry (of_Z 12) (aggregate 45 8 30.5)) <>
  {| overall := of_Z 86; consistency := of_Z 67; volume := of_Z 90;
     reliability := of_Z 100 |}.
Proof.
  intro H. vm_compute in H. discriminate H.
Qed.

(** C1, amended.  On every row with [invoice_count = 45],
    [active_months = 8] and [avg_payment_terms = 30.5], and a window of
    12 months, the scorecard reports consistency 67, volume 90,
    reliability 100 and overall 85: the overall score is the rounded
    mean of the unrounded sub-scores, [(66.67 + 90 + 99.5) / 3 = 85.39]. *)
Theorem scenario_scores (name : string) (taxId : option string)
        (spend avgValue : Q) (first last : Z) :
  performanceScore
    (scorecard_entry (of_Z 12)
       {| vendorName := name; vendorTaxId := taxId;
          invoice_count := 45; total_spend := spend;
          avg_invoice_value := avgValue; first_invoice := first;
          last_invoice := last; active_months := 8;
          avg_payment_terms := 30.5 |}) =
  {| overall := of_Z 85; consistency := of_Z 67; volume := of_Z 90;
     reliability := of_Z 100 |}.
Proof.
  reflexivity.
Qed.

(** C2, at the failing input.  With a window of 0 months the
    consistency sub-score is not 0: it is 100 for a vendor with active
    months, [NaN] for one with none, where the normalizer of the
    specification gives 0; the row of the scenario is reported with
    consistency 100. *)
Theorem consistency_with_zero_window :
  (forall vendor : row,
      consistencyScore n0 vendor =
      match (active_months vendor ?= 0)%Z with
      | Gt => n100
      | Eq => NaN
      | Lt => NegInf
      end) /\
  consistency
    (performanceScore (scorecard_entry n0 (aggregate 45 8 30.5))) =
  of_Z 100 /\
  spec_normalize 8 0 = 0.
Proof.
  split; [|split; reflexivity].
  intro vendor. unfold consistencyScore, n0, of_Z, div.
  change (Qeq_bool (inject_Z 0) 0) with true. cbv iota.
  unfold Qcompare, inject_Z. simpl Qnum. simpl Qden.
  rewrite Z.mul_1_r. change (0 * 1)%Z with 0%Z.
  destruct (active_months vendor ?= 0)%Z; reflexivity.
Qed.



End PerformanceClaims.

(* ================================================================== *)
(** ** The payment reliability scorecard *)
(* ================================================================== *)

Lemma gt_of_Z (a b : Z) : gt (of_Z a) (of_Z b) = (b <? a)%Z.
Proof.
  unfold gt, of_Z, Qcompare, inject_Z. simpl Qnum. simpl Qden.
  rewrite !Z.mul_1_r. unfold Z.ltb. rewrite (Z.compare_antisym a b).
  destruct (a ?= b)%Z; reflexivity.
Qed.



(* ================================================================== *)
(** ** The risk assessment scorecard *)
(* ================================================================== *)

Section RiskClaims.

Import RiskAssessment.
Local Open Scope Q_scope.





(** C4, at the failing input.  A vendor whose two invoices are credit
    notes of -100000 each has a total exposure of -200000: the response
    shows an exposure risk of -20 and an overall risk of -6, and neither
    the exposure risk nor the overall risk lies in [0, 100].  The exact
    reading of the arithmetic gives the same scores. *)
Theorem negative_exposure_risk :
  riskScores (Rounded.risk_entry (aggregate 2 (-200000) (-100000) 0 0 0)) =
  {| overall := of_Z (-6); exposure := of_Z (-20); variability := of_Z 0;
     timeliness := of_Z 0; payment := of_Z 0 |} /\
  ~ within 0 100
      (Rounded.exposureRisk (aggregate 2 (-200000) (-100000) 0 0 0)) /\
  ~ within 0 100
      (Rounded.overallRisk (aggregate 2 (-200000) (-100000) 0 0 0)) /\
  riskScores (risk_entry (aggregate 2 (-200000) (-100000) 0 0 0)) =
  {| overall := of_Z (-6); exposure := of_Z (-20); variability := of_Z 0;
     timeliness := of_Z 0; payment := of_Z 0 |} /\
  ~ within 0 100 (exposureRisk (aggregate 2 (-200000) (-100000) 0 0 0)) /\
  ~ within 0 100 (overallRisk (aggregate 2 (-200000) (-100000) 0 0 0)).
Proof.
  split; [vm_compute; reflexivity|].
  split; [|split; [|split; [reflexivity|split]]];
    intro H; vm_compute in H; destruct H as [H _]; apply H; reflexivity.
Qed.

(** The weighted sum is rounded at each step.  A vendor with three
    invoices of 50000, one of them overdue, has a payment risk of
    99.99999999999999 and an overall risk of 29, where the exact sum
    [4.5 + 25] rounds to 30. *)
Example weighted_sum_at_a_tie :
  Rounded.paymentRisk (aggregate 3 150000 50000 0 0 1) =
  IEEE.round 99.99999999999999 /\
  Rounded.overallRisk (aggregate 3 150000 50000 0 0 1) = of_Z 29 /\
  overallRisk (aggregate 3 150000 50000 0 0 1) = of_Z 30.
Proof. vm_compute. repeat split; reflexivity. Qed.





End RiskClaims.

(* ================================================================== *)
(** ** Slices *)
(* ================================================================== *)

Section SliceFacts.

Context {A : Type}.
Implicit Types arr : list A.

(** [arr.slice(-3)] is the last three elements. *)
Lemma slice_last_3 arr : slice arr (of_Z (-3)) None = last_n 3 arr.
Proof.
  unfold slice, last_n, relative_index, of_Z.
  change (trunc (inject_Z (-3))) with (-3)%Z. cbv zeta.
  change (-3 <? 0)%Z with true. cbv iota.
  set (len := List.length arr).
  replace (Z.to_nat (Z.max (Z.of_nat len + -3) 0)) with (len - 3)%nat by lia.
  apply firstn_all2. rewrite length_skipn. fold len. lia.
Qed.

(** [arr.slice(-6, -3)] is the last three elements of what precedes the
    last three. *)
Lemma slice_previous_3 arr :
  slice arr (of_Z (-6)) (Some (of_Z (-3))) = last_n 3 (drop_last_n 3 arr).
Proof.
  unfold slice, last_n, drop_last_n, relative_index, of_Z.
  change (trunc (inject_Z (-3))) with (-3)%Z.
  change (trunc (inject_Z (-6))) with (-6)%Z. cbv zeta.
  change (-3 <? 0)%Z with true. change (-6 <? 0)%Z with true. cbv iota.
  rewrite length_firstn, skipn_firstn_comm.
  set (len := List.length arr).
  f_equal; [|f_equal]; lia.
Qed.

(** [arr.slice(0, limit)] is a prefix, of the length [limit] resolves
    to. *)
Lemma slice_from_0 arr (limit : number) :
  slice arr n0 (Some limit) =
  firstn (Z.to_nat (relative_index (Z.of_nat (List.length arr)) limit)) arr.
Proof.
  unfold slice.
  set (len := Z.of_nat (List.length arr)).
  assert (Hstart : relative_index len n0 = 0%Z).
  { unfold relative_index, n0, of_Z.
    change (trunc (inject_Z 0)) with 0%Z. cbv zeta.
    change (0 <? 0)%Z with false. cbv iota. lia. }
  rewrite Hstart. change (Z.to_nat 0) with 0%nat. rewrite skipn_0.
  f_equal. lia.
Qed.

Lemma relative_index_0 (len : Z) : (0 <= len)%Z -> relative_index len n0 = 0%Z.
Proof.
  intro Hlen. unfold relative_index, n0, of_Z.
  change (trunc (inject_Z 0)) with 0%Z. cbv zeta.
  change (0 <? 0)%Z with false. cbv iota. lia.
Qed.

End SliceFacts.

(* ================================================================== *)
(** ** Sorting *)
(* ================================================================== *)

Section SortFacts.

Context {A : Type}.
Variable cmp : A -> A -> number.

Lemma sort_insert_perm (x : A) (l : list A) :
  Permutation (x :: l) (sort_insert cmp x l).
Proof.
  induction l as [|y rest IH]; cbn [sort_insert]; [apply Permutation_refl|].
  destruct (gt (of_Z 0) (cmp y x)); [|apply Permutation_refl].
  apply perm_trans with (y :: x :: rest); [apply perm_swap|].
  apply perm_skip, IH.
Qed.

Lemma sort_perm (l : list A) : Permutation l (sort cmp l).
Proof.
  induction l as [|x rest IH]; cbn [sort fold_right]; [apply perm_nil|].
  apply perm_trans with (x :: sort cmp rest); [apply perm_skip, IH|].
  apply sort_insert_perm.
Qed.

Lemma sort_length (l : list A) : List.length (sort cmp l) = List.length l.
Proof.
  symmetry. apply Permutation_length, sort_perm.
Qed.

End SortFacts.

Section MonthOrder.

Import SpendingTrends.

Lemma by_month_before (a b : trend) :
  gt (of_Z 0) (by_month a b) = (month a <? month b)%Z.
Proof.
  unfold by_month, sub, neg, add, of_Z.
  destruct (month a <? month b)%Z eqn:Hlt.
  - apply Z.ltb_lt in Hlt. apply gt_fin.
    rewrite <- inject_Z_opp, <- inject_Z_plus.
    change 0%Q with (inject_Z 0). rewrite <- Zlt_Qlt. lia.
  - apply Z.ltb_ge in Hlt. apply gt_fin_false.
    rewrite <- inject_Z_opp, <- inject_Z_plus.
    change 0%Q with (inject_Z 0). rewrite <- Zle_Qle. lia.
Qed.

Lemma sort_insert_by_month_sorted (x : trend) (l : list trend) :
  Sorted month_le l -> Sorted month_le (sort_insert by_month x l).
Proof.
  induction 1 as [|y rest Hrest IH Hhd]; cbn [sort_insert].
  - repeat constructor.
  - rewrite by_month_before.
    destruct (month y <? month x)%Z eqn:Hlt.
    + apply Z.ltb_lt in Hlt. constructor; [exact IH|].
      destruct rest as [|z rest']; cbn [sort_insert].
      * constructor. unfold month_le. lia.
      * rewrite by_month_before.
        destruct (month z <? month x)%Z; constructor.
        -- inversion Hhd; assumption.
        -- unfold month_le. lia.
    + apply Z.ltb_ge in Hlt.
      constructor; [constructor; assumption|].
      constructor. exact Hlt.
Qed.

(** [sortedTrends] holds the vendor's months in ascending order. *)
Lemma sortedTrends_sorted (vendor_trends : list trend) :
  Sorted month_le (sortedTrends vendor_trends) /\
  Permutation vendor_trends (sortedTrends vendor_trends).
Proof.
  split; [|apply sort_perm].
  unfold sortedTrends.
  induction vendor_trends as [|x rest IH]; cbn [sort fold_right].
  - constructor.
  - apply sort_insert_by_month_sorted, IH.
Qed.

End MonthOrder.

(* ================================================================== *)
(** ** The spending trends *)
(* ================================================================== *)

Section TrendClaims.

Import SpendingTrends.
Local Open Scope Q_scope.




Lemma average_empty : div (spend_sum []) (length_of (@nil trend)) = NaN.
Proof. reflexivity. Qed.

Lemma length_of_positive (l : list trend) :
  gt (length_of l) n0 = match l with [] => false | _ :: _ => true end.
Proof.
  unfold length_of, n0. rewrite gt_of_Z.
  destruct l; [reflexivity|]. cbn [List.length]. apply Z.ltb_lt. lia.
Qed.



End TrendClaims.

(* ================================================================== *)
(** ** The scenarios in binary64 *)
(* ================================================================== *)

Section Binary64Scenarios.

Import PrimFloat Binary64.
Local Open Scope float_scope.

(** The scenario of C1 with binary64 rounding: overall 85. *)
Example binary64_scenario :
  performanceScore 12 8 45 30.5 =
  {| overall := 85; consistency := 67; volume := 90; reliability := 100 |}.
Proof. vm_compute. reflexivity. Qed.

(** The row of the counterexample to C3: overall 58 beside 42, 34 and
    100. *)
Example binary64_reported_mean :
  performanceScore 12 5 17 30.5 =
  {| overall := 58; consistency := 42; volume := 34; reliability := 100 |}.
Proof. vm_compute. reflexivity. Qed.

(** The failing input of C2: a window of 0 months. *)
Example binary64_zero_window :
  consistency (performanceScore 0 8 45 30.5) = 100 /\
  is_nan (consistency (performanceScore 0 0 45 30.5)) = true /\
  is_nan (overall (performanceScore 0 0 45 30.5)) = true.
Proof. vm_compute. repeat split. Qed.

(** The failing input of C4: a negative exposure. *)
Example binary64_negative_exposure :
  riskScores 2 (-200000) (-100000) 0 0 0 =
  ({| r_overall := -6; exposure := -20; variability := 0; timeliness := 0;
      payment := 0 |}, "Low"%string).
Proof. vm_compute. reflexivity. Qed.

(** The boundaries of C5. *)
Example binary64_categories :
  map category_of [70; 71; 40; 41] =
  ["Medium"; "High"; "Low"; "Medium"]%string.
Proof. vm_compute. reflexivity. Qed.

(** The two examples of C6. *)
Example binary64_payment_reliability :
  paymentReliability 0 10 = (0, 100) /\
  paymentReliability 5 10 = (50, 0).
Proof. vm_compute. split; reflexivity. Qed.

(** The example of C7, and seven months growing from 10 to 70. *)
Example binary64_growth :
  growthRate [100] = 0 /\
  growthRate [10; 20; 30; 40; 50; 60; 70] = 100.
Proof. vm_compute. split; reflexivity. Qed.

End Binary64Scenarios.

(* ================================================================== *)
(** ** Further properties of the performance scorecard *)
(* ================================================================== *)

Section PerformanceRanges.

Import PerformanceScorecard.
Local Open Scope Q_scope.










End PerformanceRanges.

(* ================================================================== *)
(** ** Rounding to two decimals, and the payment reliability scores *)
(* ================================================================== *)

Section RoundingAndPayment.

Import PaymentReliability.
Local Open Scope Q_scope.








End RoundingAndPayment.

(* ================================================================== *)
(** ** Further properties of the risk assessment *)
(* ================================================================== *)

Section RiskRanges.

Import RiskAssessment.
Local Open Scope Q_scope.










End RiskRanges.

(* ================================================================== *)
(** ** Further properties of the spending trends *)
(* ================================================================== *)

Section TrendWindows.

Import SpendingTrends.
Local Open Scope Q_scope.

(** X11.  The two windows of the growth rate are adjacent: [previous]
    followed by [recent] is the last six months of the vendor, [recent]
    holding the last three (or all, when there are fewer) and [previous]
    up to three of the months before. *)
Theorem trend_windows_adjacent (vendor_trends : list trend) :
  previous vendor_trends ++ recent vendor_trends =
  last_n 6 (sortedTrends vendor_trends) /\
  List.length (recent vendor_trends) =
  Nat.min 3 (List.length vendor_trends) /\
  List.length (previous vendor_trends) =
  Nat.min 3 (List.length vendor_trends - 3).
Proof.
  unfold recent, previous. rewrite slice_last_3, slice_previous_3.
  pose proof (sort_length by_month vendor_trends) as Hlen.
  fold (sortedTrends vendor_trends) in Hlen.
  set (s := sortedTrends vendor_trends) in *.
  unfold last_n, drop_last_n. rewrite length_firstn, !length_skipn,
    length_firstn, Hlen.
  set (n := List.length vendor_trends) in *.
  split; [|split; lia].
  rewrite <- (firstn_skipn (n - 3) s) at 3.
  rewrite skipn_app, length_firstn, Hlen. fold n.
  replace (n - 6 - Nat.min (n - 3) n)%nat with 0%nat by lia.
  rewrite skipn_0. f_equal. f_equal. lia.
Qed.

Lemma fold_Qplus_shift (l : list Q) (a : Q) :
  fold_left Qplus l a == a + Qsum l.
Proof.
  unfold Qsum. revert a. induction l as [|x rest IH]; intro a; cbn [fold_left].
  - ring.
  - rewrite IH, (IH (0 + x)). ring.
Qed.

Lemma Qsum_cons (x : Q) (l : list Q) : Qsum (x :: l) == x + Qsum l.
Proof.
  unfold Qsum at 1. cbn [fold_left]. rewrite fold_Qplus_shift. ring.
Qed.

Lemma Qsum_perm (l l' : list Q) : Permutation l l' -> Qsum l == Qsum l'.
Proof.
  induction 1 as [|x l l' _ IH|x y l|l l' l'' _ IH1 _ IH2].
  - reflexivity.
  - rewrite !Qsum_cons, IH. reflexivity.
  - rewrite !Qsum_cons. ring.
  - rewrite IH1. exact IH2.
Qed.







End TrendWindows.

Section TrendSummaries.

Import SpendingTrends.
Local Open Scope Q_scope.

(** Months already in ascending order are left as they are. *)
Lemma sort_by_month_sorted_id (l : list trend) :
  Sorted month_le l -> sort by_month l = l.
Proof.
  induction 1 as [|x rest Hrest IH Hhd]; [reflexivity|].
  cbn [sort fold_right]. fold (sort by_month rest). rewrite IH.
  destruct Hhd as [|y rest' Hxy]; [reflexivity|].
  cbn [sort_insert]. rewrite by_month_before.
  unfold month_le in Hxy.
  destruct (month y <? month x)%Z eqn:Hlt; [apply Z.ltb_lt in Hlt; lia|].
  reflexivity.
Qed.

(** X13.  The months of a response entry are the vendor's months in
    ascending order: a rearrangement of the input, of the same length,
    that sorting again leaves unchanged. *)
Theorem trends_are_chronological (name : string) (vendor_trends : list trend) :
  let shown := trends (trend_entry name vendor_trends) in
  Sorted month_le shown /\
  Permutation vendor_trends shown /\
  List.length shown = List.length vendor_trends /\
  trends (trend_entry name shown) = shown.
Proof.
  cbn [trend_entry trends].
  destruct (sortedTrends_sorted vendor_trends) as [Hsorted Hperm].
  split; [exact Hsorted|]. split; [exact Hperm|].
  split; [apply sort_length|].
  apply sort_by_month_sorted_id, Hsorted.
Qed.


Lemma Zsum_perm (l l' : list Z) : Permutation l l' -> Zsum l = Zsum l'.
Proof.
  assert (Hcons : forall x l, Zsum (x :: l) = (x + Zsum l)%Z) by reflexivity.
  induction 1 as [|x l l' _ IH|x y l|l l' l'' _ IH1 _ IH2];
    rewrite ?Hcons; lia.
Qed.

End TrendSummaries.

Section TrendGrouping.

Import SpendingTrends.
Local Open Scope Q_scope.

Lemma push_trend_keys (name : string) (t : trend)
      (acc : list (string * list trend)) (k : string) :
  In k (map fst (push_trend name t acc)) <-> k = name \/ In k (map fst acc).
Proof.
  induction acc as [|[key pushed] rest IH]; cbn [push_trend map fst In].
  - intuition congruence.
  - destruct (String.eqb key name) eqn:Hkey; cbn [map fst In].
    + apply String.eqb_eq in Hkey. intuition congruence.
    + rewrite IH. intuition congruence.
Qed.

Lemma push_trend_nodup (name : string) (t : trend)
      (acc : list (string * list trend)) :
  NoDup (map fst acc) -> NoDup (map fst (push_trend name t acc)).
Proof.
  induction acc as [|[key pushed] rest IH]; cbn [push_trend map fst];
    intro Hnodup.
  - repeat constructor. intros [].
  - inversion Hnodup as [|? ? Hnotin Hrest]; subst.
    destruct (String.eqb key name) eqn:Hkey; cbn [map fst].
    + constructor; assumption.
    + apply String.eqb_neq in Hkey. constructor; [|apply IH, Hrest].
      rewrite push_trend_keys. intuition congruence.
Qed.

Lemma push_trend_under (name : string) (t : trend)
      (acc : list (string * list trend)) (k : string) :
  trends_under k (push_trend name t acc) =
  if String.eqb k name then trends_under name acc ++ [t]
  else trends_under k acc.
Proof.
  induction acc as [|[key pushed] rest IH]; cbn [push_trend trends_under].
  - rewrite (String.eqb_sym name k). destruct (String.eqb k name); reflexivity.
  - destruct (String.eqb key name) eqn:Hkey; cbn [trends_under].
    + apply String.eqb_eq in Hkey. subst key.
      rewrite (String.eqb_sym name k).
      destruct (String.eqb k name); reflexivity.
    + rewrite IH. destruct (String.eqb k name) eqn:Hk; [|reflexivity].
      apply String.eqb_eq in Hk. subst k. rewrite Hkey. reflexivity.
Qed.

Lemma push_trend_size (name : string) (t : trend)
      (acc : list (string * list trend)) :
  list_sum (map (fun kv => List.length (snd kv)) (push_trend name t acc)) =
  S (list_sum (map (fun kv => List.length (snd kv)) acc)).
Proof.
  assert (Hcons : forall (kv : string * list trend) l,
             list_sum (map (fun kv => List.length (snd kv)) (kv :: l)) =
             (List.length (snd kv) +
              list_sum (map (fun kv => List.length (snd kv)) l))%nat)
    by reflexivity.
  induction acc as [|[key pushed] rest IH]; cbn [push_trend].
  - reflexivity.
  - destruct (String.eqb key name); rewrite !Hcons; cbn [snd].
    + rewrite length_app. cbn [List.length]. lia.
    + rewrite IH. lia.
Qed.

Lemma trends_under_in (groups : list (string * list trend))
      (k : string) (v : list trend) :
  NoDup (map fst groups) -> In (k, v) groups -> trends_under k groups = v.
Proof.
  induction groups as [|[key pushed] rest IH]; cbn [map fst In trends_under];
    intros Hnodup Hin; [contradiction|].
  inversion Hnodup as [|? ? Hnotin Hrest]; subst.
  destruct Hin as [Heq|Hin].
  - injection Heq as -> ->. rewrite String.eqb_refl. reflexivity.
  - destruct (String.eqb key k) eqn:Hkey; [|apply IH; assumption].
    apply String.eqb_eq in Hkey. subst key. exfalso. apply Hnotin.
    apply (in_map fst) in Hin. exact Hin.
Qed.

Lemma trends_pushed_snoc (rows : list row) (r : row) :
  trends_pushed (rows ++ [r]) =
  push_trend (r_vendorName r) (to_trend r) (trends_pushed rows).
Proof.
  unfold trends_pushed. rewrite fold_left_app. reflexivity.
Qed.

Lemma trends_pushed_invariant (rows : list row) :
  NoDup (map fst (trends_pushed rows)) /\
  (forall k, In k (map fst (trends_pushed rows)) <->
             exists r, In r rows /\ r_vendorName r = k) /\
  (forall k, trends_under k (trends_pushed rows) =
             map to_trend (trend_rows_of k rows)) /\
  list_sum (map (fun kv => List.length (snd kv)) (trends_pushed rows)) =
  List.length rows.
Proof.
  induction rows as [|r rows (Hnodup & Hkeys & Hunder & Hsize)] using rev_ind.
  - split; [constructor|]. split; [|split; reflexivity].
    intro k. cbn. split; [intros []|intros (r & [] & _)].
  - rewrite trends_pushed_snoc.
    split; [apply push_trend_nodup, Hnodup|]. split; [|split].
    + intro k. rewrite push_trend_keys, Hkeys. split.
      * intros [->|(r' & Hin & Hname)].
        -- exists r. split; [apply in_or_app; right; left|]; reflexivity.
        -- exists r'. split; [apply in_or_app; left|]; assumption.
      * intros (r' & Hin & Hname). apply in_app_or in Hin as [Hin|[->|[]]].
        -- right. exists r'. split; assumption.
        -- left. symmetry. exact Hname.
    + intro k. rewrite push_trend_under, !Hunder.
      unfold trend_rows_of. rewrite filter_app, map_app. cbn [filter].
      rewrite (String.eqb_sym (r_vendorName r) k).
      destruct (String.eqb k (r_vendorName r)) eqn:Hk.
      * apply String.eqb_eq in Hk. subst k. reflexivity.
      * cbn [map]. rewrite app_nil_r. reflexivity.
    + rewrite push_trend_size, Hsize, length_app. cbn [List.length]. lia.
Qed.

(** The groups against the rows they were built from. *)
Lemma trend_groups_hold_rows (spendingTrends : list row) :
  let groups := trends_pushed spendingTrends in
  NoDup (map fst groups) /\
  Forall (trend_group_of spendingTrends) groups /\
  Forall (fun r => In (r_vendorName r) (map fst groups)) spendingTrends /\
  list_sum (map (fun kv => List.length (snd kv)) groups) =
  List.length spendingTrends.
Proof.
  intro groups.
  destruct (trends_pushed_invariant spendingTrends)
    as (Hnodup & Hkeys & Hunder & Hsize).
  split; [exact Hnodup|]. split; [|split; [|exact Hsize]].
  - apply Forall_forall. intros [k v] Hin. unfold trend_group_of.
    cbn [fst snd].
    assert (Hv : v = map to_trend (trend_rows_of k spendingTrends)).
    { rewrite <- Hunder. symmetry. apply trends_under_in; assumption. }
    split; [exact Hv|].
    assert (Hk : In k (map fst groups)) by (apply (in_map fst) in Hin; exact Hin).
    apply Hkeys in Hk as (r & Hr & Hname).
    rewrite Hv. intro Hnil. apply map_eq_nil in Hnil.
    assert (Hin' : In r (trend_rows_of k spendingTrends)).
    { apply filter_In. split; [exact Hr|]. apply String.eqb_eq, Hname. }
    rewrite Hnil in Hin'. exact Hin'.
  - apply Forall_forall. intros r Hr. apply Hkeys. exists r.
    split; [exact Hr | reflexivity].
Qed.

End TrendGrouping.

(* ================================================================== *)
(** ** Further properties of the category analysis *)
(* ================================================================== *)

Section CategoryGrouping.

Import CategoryAnalysis.
Local Open Scope Q_scope.

Section Upsert.

Variable name : string.
Variable update : vendor_group -> vendor_group.
Hypothesis update_keeps_name :
  forall g, g_vendorName (update g) = g_vendorName g.

Lemma upsert_names (acc : list vendor_group) (k : string) :
  In k (map g_vendorName (upsert name update acc)) <->
  k = name \/ In k (map g_vendorName acc).
Proof.
  induction acc as [|g rest IH]; cbn [upsert map In].
  - rewrite update_keeps_name. cbn [g_vendorName].
    clear update_keeps_name. intuition congruence.
  - destruct (String.eqb (g_vendorName g) name) eqn:Hkey; cbn [map In].
    + apply String.eqb_eq in Hkey. rewrite update_keeps_name.
      clear update_keeps_name IH. intuition congruence.
    + rewrite IH. clear update_keeps_name IH. intuition congruence.
Qed.

Lemma upsert_nodup (acc : list vendor_group) :
  NoDup (map g_vendorName acc) ->
  NoDup (map g_vendorName (upsert name update acc)).
Proof.
  induction acc as [|g rest IH]; cbn [upsert map]; intro Hnodup.
  - repeat constructor. intros [].
  - inversion Hnodup as [|? ? Hnotin Hrest]; subst.
    destruct (String.eqb (g_vendorName g) name) eqn:Hkey; cbn [map].
    + rewrite update_keeps_name. constructor; assumption.
    + apply String.eqb_neq in Hkey. constructor; [|apply IH, Hrest].
      rewrite upsert_names. intuition congruence.
Qed.

(** The groups after an upsert: the untouched ones, the updated one, or
    the one created for a new name. *)
Lemma upsert_in (acc : list vendor_group) (g' : vendor_group) :
  NoDup (map g_vendorName acc) ->
  In g' (upsert name update acc) ->
  (In g' acc /\ g_vendorName g' <> name) \/
  (exists g, In g acc /\ g_vendorName g = name /\ g' = update g) \/
  (~ In name (map g_vendorName acc) /\
   g' = update {| g_vendorName := name; categories := [];
                  totalSpend := n0; totalItems := n0 |}).
Proof.
  induction acc as [|g rest IH]; cbn [upsert map In]; intros Hnodup Hin.
  - destruct Hin as [<-|[]]. right. right. split; [intros []|reflexivity].
  - inversion Hnodup as [|? ? Hnotin Hrest]; subst.
    destruct (String.eqb (g_vendorName g) name) eqn:Hkey.
    + apply String.eqb_eq in Hkey. destruct Hin as [<-|Hin].
      * right. left. exists g. repeat split; [left; reflexivity|exact Hkey].
      * left. split; [right; exact Hin|].
        intro Hname. apply Hnotin. rewrite Hkey, <- Hname.
        apply in_map, Hin.
    + apply String.eqb_neq in Hkey. destruct Hin as [<-|Hin].
      * left. split; [left; reflexivity|exact Hkey].
      * destruct (IH Hrest Hin) as [[H1 H2]|[(g0 & H1 & H2 & H3)|[H1 H2]]].
        -- left. split; [right; exact H1|exact H2].
        -- right. left. exists g0. repeat split; [right|..]; assumption.
        -- right. right. split; [|exact H2]. intros [Heq|Hin'];
             [exact (Hkey Heq)|exact (H1 Hin')].
Qed.

End Upsert.


Lemma category_rows_of_snoc (k : string) (rows : list row) (r : row) :
  category_rows_of k (rows ++ [r]) =
  category_rows_of k rows ++
  (if String.eqb (vendorName r) k then [r] else []).
Proof.
  unfold category_rows_of. rewrite filter_app. cbn [filter].
  destruct (String.eqb (vendorName r) k); reflexivity.
Qed.




End CategoryGrouping.

Section CategoryRanking.

Import CategoryAnalysis.
Local Open Scope Q_scope.











End CategoryRanking.

Section CategoryOrder.

Import CategoryAnalysis.
Local Open Scope Q_scope.






End CategoryOrder.

(* ================================================================== *)
(** ** Rounding to binary64 *)
(* ================================================================== *)

(** Turns a comparison that evaluated to [Eq], [Lt] or [Gt] into the
    equation or inequality it stands for. *)
Ltac compared H :=
  match type of H with
  | (_ ?= _)%Q = Eq => apply (proj2 (Qeq_alt _ _)) in H
  | (_ ?= _)%Q = Lt => apply (proj2 (Qlt_alt _ _)) in H
  | (_ ?= _)%Q = Gt => apply (proj2 (Qgt_alt _ _)) in H
  end.

Section RoundingFacts.

Import IEEE.
Local Open Scope Q_scope.

Lemma pow2_pos (e : Z) : 0 < 2 ^ e.
Proof. apply Qpower_0_lt. reflexivity. Qed.

Lemma pow2_add (a b : Z) : 2 ^ (a + b) == 2 ^ a * 2 ^ b.
Proof. apply Qpower_plus. discriminate. Qed.

Lemma pow2_sub (a b : Z) : 2 ^ (a - b) == 2 ^ a / 2 ^ b.
Proof. apply Qpower_minus. discriminate. Qed.

Lemma pow2_le (a b : Z) : (a <= b)%Z -> 2 ^ a <= 2 ^ b.
Proof. intro H. apply Qpower_le_compat_l; [exact H | discriminate]. Qed.

Lemma pow2_lt (a b : Z) : (a < b)%Z -> 2 ^ a < 2 ^ b.
Proof. intro H. apply Qpower_lt_compat_l; [exact H | reflexivity]. Qed.

Lemma pow2_lt_inv (a b : Z) : 2 ^ a < 2 ^ b -> (a < b)%Z.
Proof. intro H. apply (Qpower_lt_compat_l_inv 2); [exact H | reflexivity]. Qed.

Lemma pow2_Z (n : Z) : (0 <= n)%Z -> 2 ^ n == inject_Z (2 ^ n).
Proof. intro H. rewrite Zpower_Qpower by exact H. reflexivity. Qed.

Lemma rne_comp (p q : Q) : p == q -> rne p = rne q.
Proof.
  intro H. unfold rne.
  assert (Hf : Qfloor p = Qfloor q) by (rewrite H; reflexivity).
  rewrite Hf.
  assert (Hc : (p - inject_Z (Qfloor q) ?= 1 # 2) =
               (q - inject_Z (Qfloor q) ?= 1 # 2)).
  { rewrite H. reflexivity. }
  rewrite Hc. reflexivity.
Qed.

Lemma rne_Z (z : Z) : rne (inject_Z z) = z.
Proof.
  unfold rne. rewrite Qfloor_Z.
  assert (H : (inject_Z z - inject_Z z ?= 1 # 2) = Lt).
  { apply (proj1 (Qlt_alt _ _)). lra. }
  rewrite H. reflexivity.
Qed.

Lemma rne_cases (q : Q) :
  (rne q = Qfloor q /\ q - inject_Z (Qfloor q) <= 1 # 2) \/
  (rne q = (Qfloor q + 1)%Z /\ (1 # 2) <= q - inject_Z (Qfloor q)).
Proof.
  unfold rne.
  destruct (q - inject_Z (Qfloor q) ?= 1 # 2) eqn:E.
  - apply Qeq_alt in E.
    destruct (Z.even (Qfloor q)); [left | right]; split;
      try reflexivity; rewrite E; apply Qle_refl.
  - apply Qlt_alt in E. left. split; [reflexivity | apply Qlt_le_weak, E].
  - apply Qgt_alt in E. right. split; [reflexivity | apply Qlt_le_weak, E].
Qed.

Lemma floor_bounds (q : Q) :
  inject_Z (Qfloor q) <= q < inject_Z (Qfloor q) + 1.
Proof.
  split; [apply Qfloor_le|].
  pose proof (Qlt_floor q) as H. rewrite inject_Z_plus in H. exact H.
Qed.

(** The nearest integer is within a half. *)
Lemma rne_near (q : Q) : Qabs (inject_Z (rne q) - q) <= 1 # 2.
Proof.
  destruct (floor_bounds q) as [L U].
  apply Qabs_Qle_condition.
  destruct (rne_cases q) as [[E H]|[E H]]; rewrite E;
    rewrite ?inject_Z_plus; change (inject_Z 1) with 1; split.
  all: lra.
Qed.

Lemma rne_mono (p q : Q) : p <= q -> (rne p <= rne q)%Z.
Proof.
  intro H.
  pose proof (Qfloor_resp_le _ _ H) as Hf.
  destruct (Z.eq_dec (Qfloor p) (Qfloor q)) as [Heq|Hne].
  - unfold rne. rewrite Heq.
    destruct (p - inject_Z (Qfloor q) ?= 1 # 2) eqn:E1;
      destruct (q - inject_Z (Qfloor q) ?= 1 # 2) eqn:E2;
      try (destruct (Z.even (Qfloor q))); try lia; exfalso;
      compared E1; compared E2; lra.
  - assert (Hlt : (Qfloor p + 1 <= Qfloor q)%Z) by lia.
    destruct (rne_cases p) as [[E _]|[E _]];
      destruct (rne_cases q) as [[E' _]|[E' _]]; lia.
Qed.

(** [exponent q] is the power of two at or below a positive [q]. *)
Lemma exponent_spec (q : Q) :
  0 < q -> 2 ^ exponent q <= q < 2 ^ (exponent q + 1).
Proof.
  intro Hq. destruct q as [n d]. unfold exponent. cbn [Qnum Qden].
  assert (Hn : (0 < n)%Z).
  { unfold Qlt in Hq. cbn in Hq. lia. }
  set (a := Z.log2 n). set (b := Z.log2 (Z.pos d)).
  destruct (Z.log2_spec n Hn) as [La Ua]. fold a in La, Ua.
  destruct (Z.log2_spec (Z.pos d) (Pos2Z.is_pos d)) as [Lb Ub].
  fold b in Lb, Ub.
  assert (Ha : (0 <= a)%Z) by apply Z.log2_nonneg.
  assert (Hb : (0 <= b)%Z) by apply Z.log2_nonneg.
  assert (QLa : 2 ^ a <= inject_Z n).
  { rewrite pow2_Z by exact Ha. rewrite <- Zle_Qle. exact La. }
  assert (QUa : inject_Z n < 2 ^ (a + 1)).
  { rewrite pow2_Z by lia. rewrite <- Zlt_Qlt. exact Ua. }
  assert (QLb : 2 ^ b <= inject_Z (Z.pos d)).
  { rewrite pow2_Z by exact Hb. rewrite <- Zle_Qle. exact Lb. }
  assert (QUb : inject_Z (Z.pos d) < 2 ^ (b + 1)).
  { rewrite pow2_Z by lia. rewrite <- Zlt_Qlt. exact Ub. }
  assert (Hq' : (n # d) * inject_Z (Z.pos d) == inject_Z n).
  { rewrite (Qmake_Qdiv n d). field. discriminate. }
  set (x := n # d) in *.
  pose proof (pow2_pos b) as Pb. pose proof (pow2_pos (b + 1)) as Pb1.
  assert (Up : x < 2 ^ (a - b + 1)).
  { replace (a - b + 1)%Z with ((a + 1) - b)%Z by ring.
    rewrite pow2_sub. apply Qlt_shift_div_l; [exact Pb|]. nra. }
  assert (Lo : 2 ^ (a - b - 1) < x).
  { replace (a - b - 1)%Z with (a - (b + 1))%Z by ring.
    rewrite pow2_sub. apply Qlt_shift_div_r; [exact Pb1|]. nra. }
  destruct (Qle_bool (2 ^ (a - b)) x) eqn:E.
  - apply Qle_bool_iff in E. split; assumption.
  - assert (Hlt : x < 2 ^ (a - b)).
    { apply Qnot_le_lt. intro H. apply Qle_bool_iff in H. congruence. }
    split; [apply Qlt_le_weak, Lo|].
    replace (a - b - 1 + 1)%Z with (a - b)%Z by ring. exact Hlt.
Qed.

Lemma exponent_mono (p q : Q) : 0 < p -> p <= q -> (exponent p <= exponent q)%Z.
Proof.
  intros Hp H.
  destruct (exponent_spec p Hp) as [Lp _].
  destruct (exponent_spec q) as [_ Uq]; [lra|].
  assert (Hlt : 2 ^ exponent p < 2 ^ (exponent q + 1)) by lra.
  apply pow2_lt_inv in Hlt. lia.
Qed.

Lemma exponent_le (q : Q) (k : Z) : 0 < q -> q <= 2 ^ k -> (exponent q <= k)%Z.
Proof.
  intros Hq H. destruct (exponent_spec q Hq) as [L _].
  destruct (Z_le_gt_dec (exponent q) k) as [Hle|Hgt]; [exact Hle|].
  exfalso.
  assert (Hlt : 2 ^ k < 2 ^ exponent q).
  { apply pow2_lt. lia. }
  lra.
Qed.

Lemma quantum_le (q : Q) (k : Z) :
  0 < q -> q <= 2 ^ k -> (-1022 <= k)%Z -> (quantum q <= k - 52)%Z.
Proof.
  intros Hq H Hk. unfold quantum.
  pose proof (exponent_le q k Hq H). lia.
Qed.

Lemma nearest_gap (q : Q) :
  Qabs (nearest q - q) <= 2 ^ (quantum q - 1).
Proof.
  unfold nearest. set (u := quantum q).
  pose proof (pow2_pos u) as Pu.
  pose proof (rne_near (q / 2 ^ u)) as Hn.
  set (z := inject_Z (rne (q / 2 ^ u))) in *.
  assert (E : z * 2 ^ u - q == (z - q / 2 ^ u) * 2 ^ u) by (field; lra).
  rewrite E, Qabs_Qmult, (Qabs_pos (2 ^ u)) by lra.
  rewrite pow2_sub. change (2 ^ 1) with 2.
  set (d := Qabs (z - q / 2 ^ u)) in *.
  assert (E' : 2 ^ u / 2 == (1 # 2) * 2 ^ u) by field.
  rewrite E'. apply Qmult_le_compat_r; [exact Hn | lra].
Qed.

Lemma nearest_error (q : Q) (k : Z) :
  0 < q -> q <= 2 ^ k -> (-1022 <= k)%Z ->
  Qabs (nearest q - q) <= 2 ^ (k - 53).
Proof.
  intros Hq H Hk.
  eapply Qle_trans; [apply nearest_gap|].
  apply pow2_le. pose proof (quantum_le q k Hq H Hk). lia.
Qed.

Lemma nearest_nonneg (q : Q) : 0 < q -> 0 <= nearest q.
Proof.
  intro Hq. unfold nearest. set (u := quantum q).
  pose proof (pow2_pos u) as Pu.
  apply Qmult_le_0_compat; [|lra].
  assert (H : (rne 0 <= rne (q / 2 ^ u))%Z).
  { apply rne_mono. apply Qle_shift_div_l; [exact Pu | lra]. }
  change (rne 0) with (rne (inject_Z 0)) in H. rewrite rne_Z in H.
  rewrite Zle_Qle in H. exact H.
Qed.

Lemma nearest_mono (p q : Q) : 0 < p -> p <= q -> nearest p <= nearest q.
Proof.
  intros Hp H.
  assert (Hq : 0 < q) by lra.
  pose proof (exponent_mono p q Hp H) as HE.
  destruct (exponent_spec p Hp) as [Lp Up].
  destruct (exponent_spec q Hq) as [Lq Uq].
  unfold nearest.
  destruct (Z.eq_dec (quantum p) (quantum q)) as [Heq|Hne].
  - rewrite Heq. set (u := quantum q). pose proof (pow2_pos u) as Pu.
    apply Qmult_le_compat_r; [|lra].
    rewrite <- Zle_Qle. apply rne_mono.
    apply Qmult_le_compat_r; [exact H|].
    apply Qlt_le_weak, Qinv_lt_0_compat, Pu.
  - unfold quantum in *.
    set (mp := Z.max (exponent p) (-1022)) in *.
    set (mq := Z.max (exponent q) (-1022)) in *.
    assert (Hmq : mq = exponent q) by lia.
    assert (Hlt : (mp + 1 <= exponent q)%Z) by lia.
    pose proof (pow2_pos (mp - 52)) as Pp.
    pose proof (pow2_pos (mq - 52)) as Pq.
    apply Qle_trans with (2 ^ exponent q).
    + apply Qle_trans with (2 ^ (mp + 1)); [|apply pow2_le, Hlt].
      assert (Hr : (rne (p / 2 ^ (mp - 52)) <= 2 ^ 53)%Z).
      { rewrite <- (rne_Z (2 ^ 53)). apply rne_mono.
        apply Qle_shift_div_r; [exact Pp|].
        rewrite <- pow2_Z by lia. rewrite <- pow2_add.
        replace (53 + (mp - 52))%Z with (mp + 1)%Z by ring.
        apply Qle_trans with (2 ^ (exponent p + 1));
          [lra | apply pow2_le; lia]. }
      rewrite Zle_Qle in Hr. rewrite <- pow2_Z in Hr by lia.
      replace (mp + 1)%Z with (53 + (mp - 52))%Z by ring.
      rewrite pow2_add. apply Qmult_le_compat_r; [exact Hr | lra].
    + assert (Hr : (2 ^ 52 <= rne (q / 2 ^ (mq - 52)))%Z).
      { rewrite <- (rne_Z (2 ^ 52)) at 1. apply rne_mono.
        apply Qle_shift_div_l; [exact Pq|].
        rewrite <- pow2_Z by lia. rewrite <- pow2_add.
        replace (52 + (mq - 52))%Z with (exponent q) by lia. exact Lq. }
      rewrite Zle_Qle in Hr. rewrite <- pow2_Z in Hr by lia.
      replace (exponent q) with (52 + (mq - 52))%Z at 1 by lia.
      rewrite pow2_add. apply Qmult_le_compat_r; [exact Hr | lra].
Qed.

Lemma Qred_inject_Z (z : Z) : Qred (inject_Z z) = inject_Z z.
Proof.
  unfold Qred, inject_Z.
  generalize (Z.ggcd_gcd z 1) (Z.ggcd_correct_divisors z 1).
  destruct (Z.ggcd z 1) as [g [aa bb]]. cbn [fst snd].
  rewrite Z.gcd_1_r. intros Hg [Ha Hb]. subst g.
  rewrite Z.mul_1_l in Ha, Hb. subst aa bb. reflexivity.
Qed.

Lemma nearest_Z (z : Z) :
  (0 < z < 2 ^ 53)%Z -> nearest (inject_Z z) == inject_Z z.
Proof.
  intros [Hz Hb].
  assert (Hq : 0 < inject_Z z).
  { change 0 with (inject_Z 0). rewrite <- Zlt_Qlt. exact Hz. }
  destruct (exponent_spec _ Hq) as [L _].
  assert (HE : (0 <= exponent (inject_Z z) <= 52)%Z).
  { split.
    - destruct (exponent_spec _ Hq) as [_ U].
      assert (H1 : 2 ^ 0 < 2 ^ (exponent (inject_Z z) + 1)).
      { apply Qle_lt_trans with (inject_Z z); [|exact U].
        change (2 ^ 0) with (inject_Z 1). rewrite <- Zle_Qle. lia. }
      apply pow2_lt_inv in H1. lia.
    - assert (H1 : 2 ^ exponent (inject_Z z) < 2 ^ 53).
      { apply Qle_lt_trans with (inject_Z z); [exact L|].
        rewrite pow2_Z by lia. rewrite <- Zlt_Qlt. exact Hb. }
      apply pow2_lt_inv in H1. lia. }
  unfold nearest, quantum.
  set (e := exponent (inject_Z z)) in *.
  replace (Z.max e (-1022) - 52)%Z with (- (52 - e))%Z by lia.
  set (s := (52 - e)%Z).
  assert (Hs : (0 <= s)%Z) by (unfold s; lia).
  pose proof (pow2_pos s) as Ps.
  assert (E : inject_Z z / 2 ^ (- s) == inject_Z (z * 2 ^ s)).
  { rewrite Qpower_opp, inject_Z_mult, <- pow2_Z by exact Hs. field. lra. }
  rewrite (rne_comp _ _ E), rne_Z.
  rewrite inject_Z_mult, <- pow2_Z by exact Hs.
  rewrite Qpower_opp. field. lra.
Qed.

Lemma exponent_unique (q : Q) (e : Z) :
  0 < q -> 2 ^ e <= q < 2 ^ (e + 1) -> exponent q = e.
Proof.
  intros Hq [L U]. destruct (exponent_spec q Hq) as [L' U'].
  assert (H1 : 2 ^ e < 2 ^ (exponent q + 1)) by lra.
  assert (H2 : 2 ^ exponent q < 2 ^ (e + 1)) by lra.
  apply pow2_lt_inv in H1, H2. lia.
Qed.

Lemma exponent_comp (p q : Q) : 0 < p -> p == q -> exponent p = exponent q.
Proof.
  intros Hp E. apply exponent_unique; [exact Hp|].
  rewrite E. apply exponent_spec. rewrite <- E. exact Hp.
Qed.

Lemma nearest_comp (p q : Q) : 0 < p -> p == q -> nearest p == nearest q.
Proof.
  intros Hp E. unfold nearest, quantum.
  rewrite (exponent_comp p q Hp E).
  set (u := (Z.max (exponent q) (-1022) - 52)%Z).
  assert (E' : p / 2 ^ u == q / 2 ^ u) by (rewrite E; reflexivity).
  rewrite (rne_comp _ _ E'). reflexivity.
Qed.

Lemma round_pos_spec (q : Q) :
  (round_pos q = PosInf /\ 2 ^ 1024 <= nearest q) \/
  (round_pos q = Fin (Qred (nearest q)) /\ nearest q < 2 ^ 1024).
Proof.
  unfold round_pos. destruct (Qle_bool (2 ^ 1024) (nearest q)) eqn:E.
  - left. split; [reflexivity | apply Qle_bool_iff, E].
  - right. split; [reflexivity|].
    apply Qnot_le_lt. intro H. apply Qle_bool_iff in H. congruence.
Qed.

Lemma round_pos_comp (p q : Q) : 0 < p -> p == q -> round_pos p = round_pos q.
Proof.
  intros Hp E. pose proof (nearest_comp p q Hp E) as En.
  destruct (round_pos_spec p) as [[-> H]|[-> H]];
    destruct (round_pos_spec q) as [[-> H']|[-> H']];
    try reflexivity; try (exfalso; lra).
  f_equal. apply Qred_complete, En.
Qed.

(** Rounding sees the value of a rational, not its fraction. *)
Lemma round_comp (p q : Q) : p == q -> round p = round q.
Proof.
  intro E. unfold round.
  assert (Hc : (p ?= 0) = (q ?= 0)) by (rewrite E; reflexivity).
  rewrite <- Hc. destruct (p ?= 0) eqn:C; compared C.
  - reflexivity.
  - f_equal. apply round_pos_comp; [lra | rewrite E; reflexivity].
  - apply round_pos_comp; [lra | exact E].
Qed.

Lemma round_pos_mono (p q : Q) :
  0 < p -> p <= q -> le (round_pos p) (round_pos q).
Proof.
  intros Hp H. pose proof (nearest_mono p q Hp H) as Hn.
  destruct (round_pos_spec p) as [[-> Hp']|[-> Hp']];
    destruct (round_pos_spec q) as [[-> Hq']|[-> Hq']]; cbn [le]; auto.
  - lra.
  - rewrite !Qred_correct. exact Hn.
Qed.

Lemma round_pos_nonneg (q : Q) : 0 < q -> le (Fin 0) (round_pos q).
Proof.
  intro Hq. pose proof (nearest_nonneg q Hq).
  destruct (round_pos_spec q) as [[-> _]|[-> _]]; cbn [le]; auto.
  rewrite Qred_correct. assumption.
Qed.

Lemma le_opposite (a b : number) : le a b -> le (neg b) (neg a).
Proof.
  destruct a, b; cbn [le neg]; try tauto. intro H. lra.
Qed.

Lemma le_transitive (a b c : number) : le a b -> le b c -> le a c.
Proof.
  destruct a, b, c; cbn [le]; try tauto. intros. lra.
Qed.

(** Rounding is monotone. *)
Lemma round_mono (p q : Q) : p <= q -> le (round p) (round q).
Proof.
  intro H. unfold round.
  destruct (p ?= 0) eqn:Cp; compared Cp;
    destruct (q ?= 0) eqn:Cq; compared Cq; try (exfalso; lra).
  - cbn [le]. lra.
  - apply round_pos_nonneg. lra.
  - change (Fin 0) with (neg (Fin 0)). apply le_opposite, round_pos_nonneg. lra.
  - apply le_opposite, round_pos_mono; lra.
  - apply le_transitive with (Fin 0).
    + change (Fin 0) with (neg (Fin 0)). apply le_opposite, round_pos_nonneg. lra.
    + apply round_pos_nonneg. lra.
  - apply round_pos_mono; lra.
Qed.

(** Rounding keeps a value between two values that are their own
    roundings. *)
Lemma round_between (a b a' b' q : Q) :
  round a = Fin a' -> round b = Fin b' -> a <= q <= b ->
  exists r : Q, round q = Fin r /\ a' <= r <= b'.
Proof.
  intros Ha Hb [L U].
  pose proof (round_mono a q L) as H1. pose proof (round_mono q b U) as H2.
  rewrite Ha in H1. rewrite Hb in H2.
  destruct (round q) as [r| | |]; cbn [le] in H1, H2; try contradiction.
  exists r. split; [reflexivity | split; assumption].
Qed.

Lemma round_pos_error (q : Q) (k : Z) :
  0 < q -> q <= 2 ^ k -> (-1022 <= k <= 1023)%Z ->
  exists r : Q, round_pos q = Fin r /\ Qabs (r - q) <= 2 ^ (k - 53).
Proof.
  intros Hq H Hk.
  pose proof (nearest_error q k Hq H (proj1 Hk)) as He.
  destruct (round_pos_spec q) as [[_ Hbig]|[-> _]].
  - exfalso. apply Qabs_Qle_condition in He.
    assert (H1 : 2 ^ (k - 53) < 2 ^ k) by (apply pow2_lt; lia).
    assert (H2 : 2 ^ k + 2 ^ k == 2 ^ (k + 1)).
    { rewrite pow2_add. change (2 ^ 1) with 2. ring. }
    assert (H3 : 2 ^ (k + 1) <= 2 ^ 1024) by (apply pow2_le; lia).
    lra.
  - eexists. split; [reflexivity|]. rewrite Qred_correct. exact He.
Qed.

(** The rounding error of a value of magnitude at most [2^k]. *)
Lemma round_error (q : Q) (k : Z) :
  Qabs q <= 2 ^ k -> (-1022 <= k <= 1023)%Z ->
  exists r : Q, round q = Fin r /\ Qabs (r - q) <= 2 ^ (k - 53).
Proof.
  intros H Hk. apply Qabs_Qle_condition in H. unfold round.
  destruct (q ?= 0) eqn:C; compared C.
  - exists 0. split; [reflexivity|]. rewrite C.
    change (Qabs (0 - 0)) with 0. apply Qlt_le_weak, pow2_pos.
  - destruct (round_pos_error (- q) k) as (r & -> & He); [lra | lra | exact Hk|].
    exists (- r). split; [reflexivity|].
    assert (E : - r - q == - (r - - q)) by ring.
    rewrite E, Qabs_opp. exact He.
  - apply round_pos_error; [lra | lra | exact Hk].
Qed.

(** Integers below [2^53] in magnitude are binary64 values. *)
Lemma round_Z (z : Z) :
  (Z.abs z < 2 ^ 53)%Z -> round (inject_Z z) = of_Z z.
Proof.
  intro Hz. unfold round, of_Z.
  destruct (inject_Z z ?= 0) eqn:C; compared C.
  - assert (E : z = 0%Z) by (apply inject_Z_injective; exact C).
    subst z. reflexivity.
  - change 0 with (inject_Z 0) in C. rewrite <- Zlt_Qlt in C.
    assert (Hn : nearest (- inject_Z z) == inject_Z (- z)).
    { rewrite <- inject_Z_opp. apply nearest_Z. lia. }
    destruct (round_pos_spec (- inject_Z z)) as [[_ Hbig]|[-> _]].
    + exfalso. rewrite Hn in Hbig. rewrite pow2_Z in Hbig by lia.
      rewrite <- Zle_Qle in Hbig.
      assert ((2 ^ 53 < 2 ^ 1024)%Z) by (apply Z.pow_lt_mono_r; lia). lia.
    + cbn [neg]. f_equal. rewrite (Qred_complete _ _ Hn), Qred_inject_Z.
      rewrite inject_Z_opp. unfold inject_Z, Qopp. cbn. f_equal. lia.
  - change 0 with (inject_Z 0) in C. rewrite <- Zlt_Qlt in C.
    assert (Hn : nearest (inject_Z z) == inject_Z z) by (apply nearest_Z; lia).
    destruct (round_pos_spec (inject_Z z)) as [[_ Hbig]|[-> _]].
    + exfalso. rewrite Hn in Hbig. rewrite pow2_Z in Hbig by lia.
      rewrite <- Zle_Qle in Hbig.
      assert ((2 ^ 53 < 2 ^ 1024)%Z) by (apply Z.pow_lt_mono_r; lia). lia.
    + f_equal. rewrite (Qred_complete _ _ Hn). apply Qred_inject_Z.
Qed.

Lemma neg_neg (a : number) : same (neg (neg a)) a.
Proof. destruct a; cbn [neg same]; auto. ring. Qed.

Lemma round_opp (q : Q) : same (round (- q)) (neg (round q)).
Proof.
  unfold round.
  destruct (q ?= 0) eqn:C; compared C.
  - assert (E : (- q ?= 0) = Eq) by (apply (proj1 (Qeq_alt _ _)); lra).
    rewrite E. cbn [neg same]. reflexivity.
  - assert (E : (- q ?= 0) = Gt) by (apply (proj1 (Qgt_alt _ _)); lra).
    rewrite E. destruct (round_pos (- q)); cbn [neg same]; auto. ring.
  - assert (E : (- q ?= 0) = Lt) by (apply (proj1 (Qlt_alt _ _)); lra).
    rewrite E. rewrite (round_pos_comp (- - q) q) by lra.
    destruct (round_pos q); cbn [neg same]; auto. reflexivity.
Qed.

(** A value with a significand of at most 53 bits is its own
    rounding. *)
Lemma nearest_dyadic (m e : Z) :
  (0 < m < 2 ^ 53)%Z -> (-1074 <= e)%Z ->
  nearest (inject_Z m * 2 ^ e) == inject_Z m * 2 ^ e.
Proof.
  intros [Hm Hb] He.
  pose proof (pow2_pos e) as Pe.
  assert (Hm' : 1 <= inject_Z m < 2 ^ 53).
  { split.
    - change 1 with (inject_Z 1). rewrite <- Zle_Qle. lia.
    - rewrite pow2_Z by lia. rewrite <- Zlt_Qlt. exact Hb. }
  set (q := inject_Z m * 2 ^ e).
  assert (Hq : 0 < q) by (unfold q; nra).
  destruct (exponent_spec q Hq) as [L _].
  assert (HE : (exponent q <= 52 + e)%Z).
  { assert (H1 : 2 ^ exponent q < 2 ^ (53 + e)).
    { apply Qle_lt_trans with q; [exact L|].
      rewrite pow2_add. unfold q. apply Qmult_lt_compat_r; [exact Pe|].
      apply Hm'. }
    apply pow2_lt_inv in H1. lia. }
  unfold nearest, quantum. fold q.
  set (u := (Z.max (exponent q) (-1022) - 52)%Z).
  assert (Hu : (u <= e)%Z) by (unfold u; lia).
  set (s := (e - u)%Z).
  assert (Hs : (0 <= s)%Z) by (unfold s; lia).
  pose proof (pow2_pos u) as Pu. pose proof (pow2_pos s) as Ps.
  assert (Es : 2 ^ e == 2 ^ s * 2 ^ u).
  { rewrite <- pow2_add. replace (s + u)%Z with e by (unfold s; ring).
    reflexivity. }
  assert (E : q / 2 ^ u == inject_Z (m * 2 ^ s)).
  { unfold q. rewrite Es, inject_Z_mult, <- pow2_Z by exact Hs.
    field. lra. }
  rewrite (rne_comp _ _ E), rne_Z.
  rewrite inject_Z_mult, <- pow2_Z by exact Hs. unfold q. rewrite Es. ring.
Qed.

(** A value of magnitude at most [m * 2^e], itself a binary64 value,
    keeps that bound when it is rounded. *)
Lemma round_within (m e : Z) (q : Q) :
  (0 <= m < 2 ^ 53)%Z -> (-1074 <= e <= 970)%Z ->
  Qabs q <= inject_Z m * 2 ^ e ->
  exists r : Q, round q = Fin r /\ Qabs r <= inject_Z m * 2 ^ e.
Proof.
  intros Hm He Hq.
  destruct (Z.eq_dec m 0) as [->|Hm0].
  { assert (E : q == 0).
    { apply Qabs_Qle_condition in Hq. change (inject_Z 0) with 0 in Hq. lra. }
    exists 0. split; [apply (round_comp _ _ E)|].
    change (Qabs 0) with 0. change (inject_Z 0) with 0. lra. }
  set (b := inject_Z m * 2 ^ e) in *.
  assert (Hn : nearest b == b) by (apply nearest_dyadic; lia).
  pose proof (pow2_pos e) as Pe.
  assert (Hb : 0 < b).
  { unfold b. assert (0 < inject_Z m).
    { change 0 with (inject_Z 0). rewrite <- Zlt_Qlt. lia. }
    nra. }
  assert (Hlt : b < 2 ^ 1024).
  { apply Qlt_le_trans with (2 ^ (53 + e)); [|apply pow2_le; lia].
    rewrite pow2_add. unfold b. apply Qmult_lt_compat_r; [exact Pe|].
    rewrite pow2_Z by lia. rewrite <- Zlt_Qlt. lia. }
  assert (Rb : round b = Fin (Qred b)).
  { unfold round. assert (C : (b ?= 0) = Gt) by (apply (proj1 (Qgt_alt _ _)); exact Hb).
    rewrite C. destruct (round_pos_spec b) as [[_ Hbig]|[-> _]].
    - exfalso. lra.
    - f_equal. apply Qred_complete, Hn. }
  pose proof (round_mono q b) as Hup.
  pose proof (round_mono (- b) q) as Hlo.
  apply Qabs_Qle_condition in Hq.
  rewrite Rb in Hup.
  pose proof (round_opp b) as Ho. rewrite Rb in Ho. cbn [neg] in Ho.
  destruct (round (- b)) as [nb| | |]; cbn [same] in Ho; try contradiction.
  destruct (round q) as [r| | |]; cbn [le] in Hup, Hlo;
    try (exfalso; now (apply Hup; lra) || now (apply Hlo; lra)).
  exists r. split; [reflexivity|].
  rewrite Qred_correct in Hup, Ho.
  apply Qabs_Qle_condition. split.
  - rewrite <- Ho. apply Hlo. lra.
  - apply Hup. lra.
Qed.

Lemma Fin_inj (a b : Q) : Fin a = Fin b -> a = b.
Proof. intro H. injection H. trivial. Qed.

Lemma Qred_idem (q : Q) : Qred (Qred q) = Qred q.
Proof. apply Qred_complete, Qred_correct. Qed.

Lemma rne_at_most (q : Q) (z : Z) : q <= inject_Z z -> (rne q <= z)%Z.
Proof. intro H. rewrite <- (rne_Z z). apply rne_mono, H. Qed.

(** The integer of the significand is at most [2^53]. *)
Lemma significand_bound (q : Q) :
  0 < q -> (0 <= rne (q / 2 ^ quantum q) <= 2 ^ 53)%Z.
Proof.
  intro Hq. destruct (exponent_spec q Hq) as [_ U].
  set (u := quantum q). pose proof (pow2_pos u) as Pu. split.
  - rewrite <- (rne_Z 0). apply rne_mono.
    apply Qle_shift_div_l; [exact Pu | change (inject_Z 0) with 0; lra].
  - apply rne_at_most. apply Qle_shift_div_r; [exact Pu|].
    rewrite <- pow2_Z by lia. rewrite <- pow2_add.
    apply Qle_trans with (2 ^ (exponent q + 1)); [lra|].
    apply pow2_le. unfold u, quantum. lia.
Qed.

Lemma quantum_min (q : Q) : (-1074 <= quantum q)%Z.
Proof. unfold quantum. lia. Qed.

(** A rounded value is a binary64 value: rounding it again changes
    nothing. *)
Lemma round_pos_idem (q r : Q) :
  0 < q -> round_pos q = Fin r -> 0 <= r /\ round r = Fin r.
Proof.
  intros Hq E.
  destruct (round_pos_spec q) as [[E' _]|[E' Hlt]]; [congruence|].
  rewrite E in E'. apply Fin_inj in E'. subst r.
  pose proof (nearest_nonneg q Hq) as Hnn.
  split; [pose proof (Qred_correct (nearest q)); lra|].
  destruct (significand_bound q Hq) as [Hz0 Hz53].
  pose proof (quantum_min q) as Hu.
  unfold nearest in *. set (u := quantum q) in *.
  set (z := rne (q / 2 ^ u)) in *.
  pose proof (pow2_pos u) as Pu.
  set (v := inject_Z z * 2 ^ u) in *.
  assert (Ec : Qred v == v) by apply Qred_correct.
  destruct (Z.eq_dec z 0) as [Ez|Ez].
  { assert (Hv : v == 0).
    { unfold v. rewrite Ez. change (inject_Z 0) with 0. ring. }
    assert (E0 : Qred v = 0).
    { rewrite (Qred_complete _ _ Hv). reflexivity. }
    rewrite E0. reflexivity. }
  assert (Hpos : 0 < v).
  { unfold v. apply Qmult_lt_0_compat; [|exact Pu].
    change 0 with (inject_Z 0). rewrite <- Zlt_Qlt. lia. }
  assert (Hv : nearest v == v).
  { destruct (Z.eq_dec z (2 ^ 53)) as [Ez'|Ez'].
    - assert (Ev : v == inject_Z (2 ^ 52) * 2 ^ (u + 1)).
      { unfold v. rewrite Ez', pow2_add. change (2 ^ 1) with 2.
        rewrite <- !pow2_Z by lia.
        assert (E53 : 2 ^ 53 == 2 ^ 52 * 2).
        { change 53%Z with (52 + 1)%Z. rewrite pow2_add. reflexivity. }
        rewrite E53. ring. }
      rewrite (nearest_comp _ _ Hpos Ev), Ev.
      apply nearest_dyadic; [split; reflexivity | lia].
    - apply nearest_dyadic; lia. }
  assert (Hpos' : 0 < Qred v) by lra.
  unfold round.
  assert (C : (Qred v ?= 0) = Gt) by (apply (proj1 (Qgt_alt _ _)); exact Hpos').
  rewrite C. rewrite (round_pos_comp _ _ Hpos' Ec).
  destruct (round_pos_spec v) as [[_ Hbig]|[-> _]].
  - exfalso. lra.
  - f_equal. apply Qred_complete. exact Hv.
Qed.

Lemma round_idem_nonneg (q r : Q) :
  0 <= q -> round q = Fin r -> 0 <= r /\ round r = Fin r.
Proof.
  intros Hq E. unfold round in E.
  destruct (q ?= 0) eqn:C; compared C.
  - injection E as <-. split; [lra | reflexivity].
  - lra.
  - apply (round_pos_idem q r C E).
Qed.

End RoundingFacts.

(** Evaluates the concrete powers of two of a goal, for [lra]. *)
Ltac pow2_eval :=
  repeat match goal with
  | |- context [Qpower 2 ?k] =>
      let v := eval vm_compute in (Qpower 2 k) in change (Qpower 2 k) with v
  | H : context [Qpower 2 ?k] |- _ =>
      let v := eval vm_compute in (Qpower 2 k) in
      change (Qpower 2 k) with v in H
  end.

Section RoundedArithmetic.

Import IEEE.
Local Open Scope Q_scope.

(** The quotient of two integers, the divisor not 0. *)
Lemma div_of_Z (a b : Z) :
  b <> 0%Z -> IEEE.div (of_Z a) (of_Z b) = round (inject_Z a / inject_Z b).
Proof.
  intro Hb. unfold IEEE.div, JS.div, of_Z.
  destruct (Qeq_bool (inject_Z b) 0) eqn:E; [|reflexivity].
  apply Qeq_bool_iff in E. exfalso. apply Hb.
  apply inject_Z_injective. exact E.
Qed.

(** Rounding two values less than 1 apart to integers gives integers at
    most 1 apart. *)
Lemma half_up_close (a b : Q) :
  Qabs (a - b) < 1 -> (Z.abs (round_half_up a - round_half_up b) <= 1)%Z.
Proof.
  intro H. unfold round_half_up.
  assert (Ha := Qfloor_le (a + (1 # 2))).
  assert (Ha' := Qlt_floor (a + (1 # 2))).
  assert (Hb := Qfloor_le (b + (1 # 2))).
  assert (Hb' := Qlt_floor (b + (1 # 2))).
  rewrite inject_Z_plus in Ha', Hb'.
  set (x := Qfloor (a + (1 # 2))) in *. set (y := Qfloor (b + (1 # 2))) in *.
  assert (Hab : - (1) < a - b < 1).
  { revert H. apply Qabs_case; intros; lra. }
  assert (H1 : inject_Z x < inject_Z (y + 2)).
  { rewrite inject_Z_plus. change (inject_Z 2) with 2.
    change (inject_Z 1) with 1 in *. lra. }
  assert (H2 : inject_Z y < inject_Z (x + 2)).
  { rewrite inject_Z_plus. change (inject_Z 2) with 2.
    change (inject_Z 1) with 1 in *. lra. }
  rewrite <- Zlt_Qlt in H1, H2. lia.
Qed.

Lemma Qmax_close (x y : Q) : Qabs (Qmax 0 x - Qmax 0 y) <= Qabs (x - y).
Proof.
  destruct (Q.max_spec 0 x) as [[L E]|[L E]];
    destruct (Q.max_spec 0 y) as [[L' E']|[L' E']]; rewrite E, E';
    apply Qabs_Qle_condition; revert L L'; apply Qabs_case; intros; split; lra.
Qed.

(** What [Math.round(a * 100) / 100] can be. *)
Lemma round2_shape (a : number) :
  IEEE.round2 a = NaN \/ IEEE.round2 a = PosInf \/ IEEE.round2 a = NegInf \/
  exists z : Z, IEEE.round2 a = IEEE.div (of_Z z) n100.
Proof.
  unfold IEEE.round2. destruct (IEEE.mul a (of_Z 100)) as [y| | |].
  - right. right. right. exists (round_half_up y). reflexivity.
  - right. left. reflexivity.
  - right. right. left. reflexivity.
  - left. reflexivity.
Qed.

(** The rounding of a value in [[0, 2^k]] lies there too, and is a
    binary64 value. *)
Lemma round_nonneg_within (k : Z) (q : Q) :
  (-1074 <= k <= 970)%Z -> 0 <= q <= 2 ^ k ->
  exists p : Q, IEEE.round q = Fin p /\ 0 <= p <= 2 ^ k /\
                IEEE.round p = Fin p.
Proof.
  intros Hk Hq.
  destruct (round_within 1 k q) as (p & Ep & Hp); [lia | exact Hk | |].
  { change (inject_Z 1) with 1. rewrite Qmult_1_l.
    apply Qabs_Qle_condition. pose proof (pow2_pos k). lra. }
  change (inject_Z 1) with 1 in Hp. rewrite Qmult_1_l in Hp.
  destruct (round_idem_nonneg q p (proj1 Hq) Ep) as [Hp0 Hidem].
  exists p. split; [exact Ep|]. split; [|exact Hidem].
  apply Qabs_Qle_condition in Hp. lra.
Qed.

Lemma sum_by_snoc {A : Type} (f : A -> number) (l : list A) (x : A) :
  IEEE.sum_by f (l ++ [x]) = IEEE.add (IEEE.sum_by f l) (f x).
Proof.
  unfold IEEE.sum_by. rewrite fold_left_app. reflexivity.
Qed.

End RoundedArithmetic.

Section Sums.

Import IEEE.
Local Open Scope Q_scope.

Context {A : Type}.
Variable f : A -> Q.
Variable k : Z.
Hypothesis Hk : (-1074 <= k <= 970)%Z.

(** A running binary64 sum of values of magnitude at most [2^k] grows by
    at most [2^k] with each value. *)
Lemma running_sum_within (l : list A) (a : Q) (i : Z) :
  (0 <= i)%Z -> (i + Z.of_nat (List.length l) < 2 ^ 53)%Z ->
  Qabs a <= inject_Z i * 2 ^ k ->
  Forall (fun t => Qabs (f t) <= 2 ^ k) l ->
  exists s : Q,
    fold_left (fun sum t => IEEE.add sum (round (f t))) l (Fin a) = Fin s /\
    Qabs s <= inject_Z (i + Z.of_nat (List.length l)) * 2 ^ k.
Proof.
  revert a i. induction l as [|t rest IH]; intros a i Hi Hlen Ha Hall.
  - exists a. split; [reflexivity|]. cbn [List.length Z.of_nat].
    rewrite Z.add_0_r. exact Ha.
  - inversion Hall as [|? ? Ht Hrest]; subst.
    cbn [fold_left]. cbn [List.length] in Hlen |- *.
    destruct (round_within 1 k (f t)) as (p & Ep & Hp); [lia | exact Hk | |].
    { change (inject_Z 1) with 1. rewrite Qmult_1_l. exact Ht. }
    rewrite Ep. unfold IEEE.add, JS.add, rnd.
    change (inject_Z 1) with 1 in Hp. rewrite Qmult_1_l in Hp.
    destruct (round_within (i + 1) k (a + p)) as (s & Es & Hs);
      [lia | exact Hk | |].
    { rewrite inject_Z_plus. change (inject_Z 1) with 1.
      apply Qabs_Qle_condition in Ha, Hp. apply Qabs_Qle_condition.
      split; lra. }
    rewrite Es.
    destruct (IH s (i + 1)%Z) as (s' & Es' & Hs');
      [lia | lia | exact Hs | exact Hrest |].
    exists s'. split; [exact Es'|].
    replace (i + Z.of_nat (S (List.length rest)))%Z
      with (i + 1 + Z.of_nat (List.length rest))%Z by lia.
    exact Hs'.
Qed.

Lemma sum_by_within (l : list A) :
  (Z.of_nat (List.length l) < 2 ^ 53)%Z ->
  Forall (fun t => Qabs (f t) <= 2 ^ k) l ->
  exists s : Q,
    IEEE.sum_by (fun t => round (f t)) l = Fin s /\
    Qabs s <= inject_Z (Z.of_nat (List.length l)) * 2 ^ k.
Proof.
  intros Hlen Hall.
  destruct (running_sum_within l 0 0) as (s & Es & Hs);
    [lia | lia | | exact Hall |].
  { change (inject_Z 0) with 0. change (Qabs 0) with 0. lra. }
  exists s. split; [exact Es|]. exact Hs.
Qed.

End Sums.

Section SumErrors.

Import IEEE.
Local Open Scope Q_scope.

Context {A : Type}.
Variable f : A -> Q.
Variables k j : Z.
Hypothesis Hk : (-1022 <= k)%Z.
Hypothesis Hj : (0 <= j <= 52)%Z.
Hypothesis Hkj : (k + j <= 970)%Z.

(** The error of a running binary64 sum of at most [2^j] values of
    magnitude at most [2^k]: at most [2^(k+j-52)] for each value. *)
Lemma running_sum_error (l : list A) (a : Q) (i : Z) :
  (0 <= i)%Z -> (i + Z.of_nat (List.length l) <= 2 ^ j)%Z ->
  Qabs a <= inject_Z i * 2 ^ k ->
  Forall (fun t => Qabs (f t) <= 2 ^ k) l ->
  exists s : Q,
    fold_left (fun sum t => IEEE.add sum (round (f t))) l (Fin a) = Fin s /\
    Qabs (s - (a + Qsum (map f l))) <=
    inject_Z (Z.of_nat (List.length l)) * 2 ^ (k + j - 52).
Proof.
  assert (P : 0 < 2 ^ (k + j - 52)) by apply pow2_pos.
  assert (Hj' : (2 ^ j <= 2 ^ 52)%Z) by (apply Z.pow_le_mono_r; lia).
  revert a i. induction l as [|t rest IH]; intros a i Hi Hlen Ha Hall.
  - exists a. split; [reflexivity|]. cbn [map List.length Z.of_nat].
    change (inject_Z 0) with 0. unfold Qsum. cbn [fold_left].
    assert (E : a - (a + 0) == 0) by ring. rewrite E.
    change (Qabs 0) with 0. lra.
  - inversion Hall as [|? ? Ht Hrest]; subst.
    cbn [fold_left map]. cbn [List.length] in Hlen |- *.
    destruct (round_within 1 k (f t)) as (p & Ep & Hp); [lia | lia | |].
    { change (inject_Z 1) with 1. rewrite Qmult_1_l. exact Ht. }
    change (inject_Z 1) with 1 in Hp. rewrite Qmult_1_l in Hp.
    destruct (round_error (f t) k) as (p' & Ep' & Hpe); [exact Ht | lia |].
    rewrite Ep in Ep'. injection Ep' as <-.
    rewrite Ep. unfold IEEE.add, JS.add, rnd.
    assert (Hap : Qabs (a + p) <= inject_Z (i + 1) * 2 ^ k).
    { rewrite inject_Z_plus. change (inject_Z 1) with 1.
      apply Qabs_Qle_condition in Ha, Hp. apply Qabs_Qle_condition.
      split; lra. }
    destruct (round_within (i + 1) k (a + p)) as (s & Es & Hs);
      [lia | lia | exact Hap |].
    destruct (round_error (a + p) (k + j)) as (s' & Es' & Hse); [|lia|].
    { eapply Qle_trans; [exact Hap|].
      assert (E : 2 ^ (k + j) == 2 ^ j * 2 ^ k).
      { rewrite <- pow2_add. replace (j + k)%Z with (k + j)%Z by ring.
        reflexivity. }
      rewrite E.
      apply Qmult_le_compat_r; [|apply Qlt_le_weak, pow2_pos].
      rewrite pow2_Z by lia. rewrite <- Zle_Qle. lia. }
    rewrite Es in Es'. injection Es' as <-. rewrite Es.
    destruct (IH s (i + 1)%Z) as (r & Er & Hr);
      [lia | lia | exact Hs | exact Hrest |].
    exists r. split; [exact Er|].
    rewrite Qsum_cons.
    replace (Z.of_nat (S (List.length rest)))
      with (1 + Z.of_nat (List.length rest))%Z by lia.
    rewrite inject_Z_plus. change (inject_Z 1) with 1.
    set (n := inject_Z (Z.of_nat (List.length rest))) in *.
    set (S := Qsum (map f rest)) in *.
    assert (H1 : 2 ^ (k + j - 53) + 2 ^ (k - 53) <= 2 ^ (k + j - 52)).
    { assert (E : 2 ^ (k + j - 52) == 2 ^ (k + j - 53) + 2 ^ (k + j - 53)).
      { replace (k + j - 52)%Z with ((k + j - 53) + 1)%Z by ring.
        rewrite pow2_add. change (2 ^ 1) with 2. ring. }
      rewrite E. apply Qplus_le_r. apply pow2_le. lia. }
    replace (k + j - 53)%Z with (k + j - 53)%Z in Hse by ring.
    set (e1 := 2 ^ (k + j - 53)) in *. set (e2 := 2 ^ (k - 53)) in *.
    set (e := 2 ^ (k + j - 52)) in *.
    apply Qabs_Qle_condition in Hpe, Hse, Hr. apply Qabs_Qle_condition.
    split; nra.
Qed.

End SumErrors.

Section Dominance.

Local Open Scope Q_scope.

Context {A : Type}.
Variable f : A -> Q.
Variable k : Z.
Hypothesis Hk : (-1074 <= k <= 970)%Z.

(** A running binary64 sum of non-negative values never decreases: it
    ends at least as large as every value it added. *)
Lemma running_sum_dominates (l : list A) (a : Q) (i : Z) :
  (0 <= i)%Z -> (i + Z.of_nat (List.length l) < 2 ^ 53)%Z ->
  0 <= a <= inject_Z i * 2 ^ k -> IEEE.round a = Fin a ->
  Forall (fun t => 0 <= f t <= 2 ^ k) l ->
  exists s : Q,
    fold_left (fun sum t => IEEE.add sum (IEEE.round (f t))) l (Fin a) =
    Fin s /\
    a <= s /\
    Forall (fun t => exists p : Q,
                IEEE.round (f t) = Fin p /\ 0 <= p <= s) l.
Proof.
  revert a i. induction l as [|t rest IH]; intros a i Hi Hlen Ha Hra Hall.
  - exists a. split; [reflexivity|]. split; [lra | constructor].
  - inversion Hall as [|? ? Ht Hrest]; subst.
    cbn [fold_left]. cbn [List.length] in Hlen.
    destruct (round_nonneg_within k (f t) Hk Ht) as (p & Ep & Hp & Hrp).
    rewrite Ep. unfold IEEE.add, JS.add, IEEE.rnd.
    destruct (round_within (i + 1) k (a + p)) as (s & Es & Hs);
      [lia | exact Hk | |].
    { rewrite inject_Z_plus. change (inject_Z 1) with 1.
      apply Qabs_Qle_condition. pose proof (pow2_pos k). split; lra. }
    rewrite Es.
    assert (Has : a <= s).
    { pose proof (round_mono a (a + p)) as H. rewrite Hra, Es in H.
      apply H. lra. }
    assert (Hps : p <= s).
    { pose proof (round_mono p (a + p)) as H. rewrite Hrp, Es in H.
      apply H. lra. }
    destruct (round_idem_nonneg (a + p) s) as [Hs0 Hrs]; [lra | exact Es|].
    destruct (IH s (i + 1)%Z) as (s' & Es' & Hss' & Hall');
      [lia | lia | | exact Hrs | exact Hrest |].
    { apply Qabs_Qle_condition in Hs. lra. }
    exists s'. split; [exact Es'|]. split; [lra|].
    constructor.
    + exists p. split; [exact Ep | lra].
    + exact Hall'.
Qed.

End Dominance.

Section IntegerSums.

Local Open Scope Q_scope.

Context {A : Type}.
Variable f : A -> Z.

Lemma Zsum_nonneg (l : list A) :
  Forall (fun t => (0 <= f t)%Z) l -> (0 <= Zsum (map f l))%Z.
Proof.
  induction 1 as [|x l Hx _ IH]; cbn [map Zsum fold_right]; [lia|].
  fold (Zsum (map f l)). lia.
Qed.

Lemma Zsum_filter (p : A -> bool) (l : list A) :
  Forall (fun t => (0 <= f t)%Z) l ->
  (Zsum (map f (filter p l)) <= Zsum (map f l))%Z.
Proof.
  induction 1 as [|x l Hx _ IH]; cbn [filter map Zsum fold_right]; [lia|].
  fold (Zsum (map f l)).
  destruct (p x); cbn [map Zsum fold_right];
    fold (Zsum (map f (filter p l))); lia.
Qed.

(** A binary64 sum of non-negative integers is exact as long as it
    stays below [2^53]. *)
Lemma integer_sum_exact (l : list A) (a : Z) :
  (0 <= a)%Z ->
  Forall (fun t => (0 <= f t)%Z) l ->
  (a + Zsum (map f l) < 2 ^ 53)%Z ->
  fold_left (fun sum t => IEEE.add sum (of_Z (f t))) l (of_Z a) =
  of_Z (a + Zsum (map f l)).
Proof.
  revert a. induction l as [|t rest IH]; intros a Ha Hall Hsum.
  - cbn [fold_left map Zsum fold_right]. rewrite Z.add_0_r. reflexivity.
  - inversion Hall as [|? ? Ht Hrest]; subst.
    cbn [map Zsum fold_right] in Hsum |- *. fold (Zsum (map f rest)) in *.
    pose proof (Zsum_nonneg rest Hrest) as Hnn.
    cbn [fold_left].
    assert (E : IEEE.add (of_Z a) (of_Z (f t)) = of_Z (a + f t)).
    { unfold IEEE.add, JS.add, of_Z, IEEE.rnd.
      rewrite <- inject_Z_plus. apply round_Z. lia. }
    rewrite E, IH by (try assumption; lia). f_equal. ring.
Qed.

End IntegerSums.

(* ================================================================== *)
(** ** The rounding against the binary64 numbers of the kernel *)
(* ================================================================== *)

Section Binary64Agreement.

Import PrimFloat Binary64.
Local Set Warnings "-inexact-float".

(** [IEEE] and the kernel compute the same numbers: on the quotients and
    products of the examples below, on sums with a rounding error, on a
    subnormal value, on an overflow and on a decimal literal. *)
Example binary64_agrees_on_rates :
  to_number (109 / 400 * 100)%float =
  IEEE.mul (IEEE.div (of_Z 109) (of_Z 400)) (of_Z 100) /\
  to_number (23 / 160 * 100)%float =
  IEEE.mul (IEEE.div (of_Z 23) (of_Z 160)) (of_Z 100) /\
  to_number (1 / 3 * 100 * 3)%float =
  IEEE.mul (IEEE.mul (IEEE.div (of_Z 1) (of_Z 3)) (of_Z 100)) (of_Z 3).
Proof. vm_compute. repeat split; reflexivity. Qed.

Example binary64_agrees_on_sums :
  to_number (0.1 + 0.2)%float =
  IEEE.add (IEEE.round (1 # 10)) (IEEE.round (2 # 10)) /\
  to_number (10.11 + 10.12)%float =
  IEEE.add (IEEE.round (1011 # 100)) (IEEE.round (1012 # 100)) /\
  to_number (0.2 + 0.1 - 0.3)%float =
  IEEE.sub (IEEE.add (IEEE.round (2 # 10)) (IEEE.round (1 # 10)))
           (IEEE.round (3 # 10)).
Proof. vm_compute. repeat split; reflexivity. Qed.

Example binary64_agrees_at_the_ends :
  to_number (1e-320)%float = IEEE.round (1 / 10 ^ 320)%Q /\
  to_number (1e308 * 10)%float =
  IEEE.mul (IEEE.round (10 ^ 308)%Q) (of_Z 10) /\
  to_number (1.005 * 100)%float =
  IEEE.mul (IEEE.round (1005 # 1000)) (of_Z 100).
Proof. vm_compute. repeat split; reflexivity. Qed.

End Binary64Agreement.

(* ================================================================== *)
(** ** The performance scorecard, as it is computed *)
(* ================================================================== *)

Section RoundedPerformance.

Import PerformanceScorecard.
Local Open Scope Q_scope.

Lemma capped_ratio_rounded (a w : Z) :
  (0 <= a)%Z -> (0 < w)%Z ->
  exists c : Q,
    Math_min n100 (IEEE.mul (IEEE.div (of_Z a) (of_Z w)) n100) = Fin c /\
    0 <= c <= 100.
Proof.
  intros Ha Hw. rewrite div_of_Z by lia.
  assert (Hq : 0 <= inject_Z a / inject_Z w).
  { apply Qle_shift_div_l.
    - change 0 with (inject_Z 0). rewrite <- Zlt_Qlt. exact Hw.
    - rewrite Qmult_0_l. change 0 with (inject_Z 0). rewrite <- Zle_Qle.
      exact Ha. }
  pose proof (round_mono 0 _ Hq) as H1. change (IEEE.round 0) with (Fin 0) in H1.
  destruct (IEEE.round (inject_Z a / inject_Z w)) as [x| | |];
    cbn [IEEE.le] in H1; try contradiction.
  - unfold IEEE.mul, JS.mul, n100, of_Z, IEEE.rnd.
    change (inject_Z 100) with 100.
    assert (Hx : 0 <= x * 100) by lra.
    pose proof (round_mono 0 _ Hx) as H2.
    change (IEEE.round 0) with (Fin 0) in H2.
    destruct (IEEE.round (x * 100)) as [y| | |];
      cbn [IEEE.le] in H2; try contradiction.
    + exists (Qmin 100 y). split; [reflexivity|].
      destruct (Q.min_spec 100 y) as [[L E]|[L E]]; rewrite E; lra.
    + exists 100. split; [reflexivity | lra].
  - exists 100. split; [reflexivity | lra].
Qed.

Lemma reliability_rounded (vendor : row) :
  exists r : Q, Rounded.reliabilityScore vendor = Fin r /\ 0 <= r <= 130.
Proof.
  unfold Rounded.reliabilityScore.
  destruct (IEEE.round (avg_payment_terms vendor)) as [x| | |] eqn:Et.
  - destruct (gt (Fin x) n0) eqn:G; [|exists 50; split; [reflexivity | lra]].
    apply gt_fin in G. change (inject_Z 0) with 0 in G.
    unfold IEEE.sub at 2. unfold JS.sub, JS.add, neg, n30, of_Z, IEEE.rnd.
    change (inject_Z 30) with 30.
    assert (H0 : - (30) <= x + - (30)) by lra.
    pose proof (round_mono _ _ H0) as H1.
    change (IEEE.round (- (30))) with (Fin (- (30))) in H1.
    destruct (IEEE.round (x + - (30))) as [u| | |];
      cbn [IEEE.le] in H1; try contradiction.
    + unfold IEEE.sub, JS.sub, JS.add, neg, n100, of_Z, IEEE.rnd.
      change (inject_Z 100) with 100.
      assert (H2 : 100 + - u <= 130) by lra.
      pose proof (round_mono _ _ H2) as H3.
      change (IEEE.round 130) with (Fin 130) in H3.
      destruct (IEEE.round (100 + - u)) as [y| | |];
        cbn [IEEE.le] in H3; try contradiction.
      * exists (Qmax 0 y). split; [reflexivity|].
        destruct (Q.max_spec 0 y) as [[L E]|[L E]]; rewrite E; lra.
      * exists 0. split; [reflexivity | lra].
    + exists 0. split; [reflexivity | lra].
  - exists 0. split; [reflexivity | lra].
  - exists 50. split; [reflexivity | lra].
  - exists 50. split; [reflexivity | lra].
Qed.

Lemma mean_of_three_rounded (c v r : Q) :
  0 <= c <= 100 -> 0 <= v <= 100 -> 0 <= r <= 130 ->
  exists m : Q,
    IEEE.div (IEEE.add (IEEE.add (Fin c) (Fin v)) (Fin r)) n3 = Fin m /\
    Qabs (m - (c + v + r) / 3) <= 2 ^ (-43).
Proof.
  intros Hc Hv Hr. unfold IEEE.add at 2. unfold JS.add, IEEE.rnd.
  destruct (round_error (c + v) 8) as (s1 & E1 & A1); [|lia|].
  { apply Qabs_Qle_condition. pow2_eval. lra. }
  rewrite E1. unfold IEEE.add, JS.add, IEEE.rnd.
  apply Qabs_Qle_condition in A1. pow2_eval.
  destruct (round_error (s1 + r) 9) as (s2 & E2 & A2); [|lia|].
  { apply Qabs_Qle_condition. pow2_eval. lra. }
  rewrite E2. apply Qabs_Qle_condition in A2. pow2_eval.
  unfold IEEE.div, JS.div, n3, of_Z.
  change (Qeq_bool (inject_Z 3) 0) with false. cbv iota. unfold IEEE.rnd.
  change (inject_Z 3) with 3.
  destruct (round_error (s2 / 3) 7) as (m & Em & Am); [|lia|].
  { apply Qabs_Qle_condition. pow2_eval. split.
    - apply Qle_shift_div_l; [reflexivity | lra].
    - apply Qle_shift_div_r; [reflexivity | lra]. }
  exists m. split; [exact Em|].
  apply Qabs_Qle_condition in Am. pow2_eval.
  apply Qabs_Qle_condition. pow2_eval.
  set (t := s2 / 3) in *.
  assert (Et : (c + v + r) / 3 == t + ((c + v + r) - s2) / 3)
    by (unfold t; field).
  rewrite Et. set (d := (c + v + r - s2) / 3).
  assert (Hd : - (1 # 35184372088832) <= d <= 1 # 35184372088832).
  { unfold d. split.
    - apply Qle_shift_div_l; [reflexivity | lra].
    - apply Qle_shift_div_r; [reflexivity | lra]. }
  split; lra.
Qed.

(** C3 (as the specification states it) does not hold: on the row
    [{invoiceCount: 17, activeMonths: 5, avgPaymentTerms: 30.5}] with a
    window of 12 months the response shows consistency 42, volume 34,
    reliability 100 and overall 58, while the rounded mean of the three
    reported sub-scores is 59.  The exact reading of the arithmetic
    differs in the same way. *)
Lemma overall_is_not_mean_of_reported :
  (let score :=
     performanceScore
       (Rounded.scorecard_entry (of_Z 12) (aggregate 17 5 30.5)) in
   score =
   {| overall := of_Z 58; consistency := of_Z 42; volume := of_Z 34;
      reliability := of_Z 100 |} /\
   Math_round
     (IEEE.div (IEEE.add (IEEE.add (consistency score) (volume score))
                         (reliability score)) n3) = of_Z 59) /\
  (let score :=
     performanceScore (scorecard_entry (of_Z 12) (aggregate 17 5 30.5)) in
   overall score <>
   Math_round
     (div (add (add (consistency score) (volume score)) (reliability score))
          n3)).
Proof.
  split.
  - vm_compute. split; reflexivity.
  - intro score. intro H. vm_compute in H. discriminate H.
Qed.

(** C3, amended.  For every row with non-negative counts and a positive
    window, the overall score is the binary64 mean of the three
    unrounded sub-scores, rounded to the nearest integer, and the three
    reported sub-scores are the roundings of the same values.  All four
    reported scores are integers, and the overall field is within 1 of
    the rounded mean of the three reported sub-scores. *)
Theorem overall_is_rounded_mean_of_raw (window : Z) (vendor : row) :
  (0 < window)%Z ->
  (0 <= active_months vendor)%Z ->
  (0 <= invoice_count vendor)%Z ->
  let score :=
    performanceScore (Rounded.scorecard_entry (of_Z window) vendor) in
  overall score =
  Math_round
    (IEEE.div
       (IEEE.add (IEEE.add (Rounded.consistencyScore (of_Z window) vendor)
                           (Rounded.volumeScore vendor))
                 (Rounded.reliabilityScore vendor)) n3) /\
  consistency score =
  Math_round (Rounded.consistencyScore (of_Z window) vendor) /\
  volume score = Math_round (Rounded.volumeScore vendor) /\
  reliability score = Math_round (Rounded.reliabilityScore vendor) /\
  exists c v r o : Z,
    score = {| overall := of_Z o; consistency := of_Z c; volume := of_Z v;
               reliability := of_Z r |} /\
    (Z.abs (o - round_half_up ((inject_Z c + inject_Z v + inject_Z r) / 3))
     <= 1)%Z.
Proof.
  intros Hw Ha Hi score.
  split; [reflexivity|]. split; [reflexivity|]. split; [reflexivity|].
  split; [reflexivity|].
  unfold score, Rounded.scorecard_entry. cbn [performanceScore].
  unfold Rounded.overallScore.
  destruct (capped_ratio_rounded _ _ Ha Hw) as (c & Ec & Hc).
  destruct (capped_ratio_rounded (invoice_count vendor) 50 Hi ltac:(lia))
    as (v & Ev & Hv).
  destruct (reliability_rounded vendor) as (r & Er & Hr).
  fold (Rounded.consistencyScore (of_Z window) vendor) in Ec.
  change (of_Z 50) with n50 in Ev. fold (Rounded.volumeScore vendor) in Ev.
  rewrite Ec, Ev, Er.
  destruct (mean_of_three_rounded c v r Hc Hv Hr) as (m & Em & Am).
  rewrite Em. cbn [Math_round].
  exists (round_half_up c), (round_half_up v), (round_half_up r),
         (round_half_up m).
  split; [reflexivity|].
  apply half_up_close.
  pose proof (round_half_up_near c) as Nc.
  pose proof (round_half_up_near v) as Nv.
  pose proof (round_half_up_near r) as Nr.
  set (C := inject_Z (round_half_up c)) in *.
  set (V := inject_Z (round_half_up v)) in *.
  set (R := inject_Z (round_half_up r)) in *.
  apply Qabs_Qle_condition in Am. pow2_eval.
  set (M := (c + v + r) / 3) in *.
  assert (EM : (C + V + R) / 3 == M + ((C - c) + (V - v) + (R - r)) / 3)
    by (unfold M; field).
  rewrite EM. set (d := (C - c + (V - v) + (R - r)) / 3).
  assert (Hd : - (1 # 2) <= d <= 1 # 2).
  { unfold d. split.
    - apply Qle_shift_div_l; [reflexivity | lra].
    - apply Qle_shift_div_r; [reflexivity | lra]. }
  apply Qabs_case; intros; lra.
Qed.

(** The amended C3 on the row of the counterexample. *)
Lemma overall_is_rounded_mean_of_raw_witness :
  exists c v r o : Z,
    performanceScore (Rounded.scorecard_entry (of_Z 12) (aggregate 17 5 30.5)) =
    {| overall := of_Z o; consistency := of_Z c; volume := of_Z v;
       reliability := of_Z r |} /\
    (Z.abs (o - round_half_up ((inject_Z c + inject_Z v + inject_Z r) / 3))
     <= 1)%Z.
Proof.
  refine (proj2 (proj2 (proj2 (proj2
            (overall_is_rounded_mean_of_raw 12 (aggregate 17 5 30.5)
               _ _ _))))); cbn; lia.
Defined.

End RoundedPerformance.

(* ================================================================== *)
(** ** The payment reliability scorecard, as it is computed *)
(* ================================================================== *)

Section RoundedPayment.

Import PaymentReliability.
Import IEEE.
Local Open Scope Q_scope.

(** The rate of a part of a whole: a percentage, within [2^-45] of the
    exact one. *)
Lemma rate_accuracy (o n : Z) :
  (0 <= o <= n)%Z -> (0 < n)%Z ->
  exists r : Q,
    IEEE.mul (IEEE.div (of_Z o) (of_Z n)) n100 = Fin r /\
    0 <= r <= 100 /\
    Qabs (r - inject_Z o / inject_Z n * 100) <= 2 ^ (-45).
Proof.
  intros Ho Hn.
  assert (Hn' : 0 < inject_Z n).
  { change 0 with (inject_Z 0). rewrite <- Zlt_Qlt. exact Hn. }
  assert (Ho' : 0 <= inject_Z o <= inject_Z n).
  { change 0 with (inject_Z 0). rewrite <- !Zle_Qle. exact Ho. }
  set (q := inject_Z o / inject_Z n).
  assert (Hq : 0 <= q <= 1).
  { unfold q. split.
    - apply Qle_shift_div_l; [exact Hn' | lra].
    - apply Qle_shift_div_r; [exact Hn' | lra]. }
  rewrite div_of_Z by lia. fold q.
  destruct (round_between 0 1 0 1 q) as (r1 & E1 & B1);
    [reflexivity | reflexivity | exact Hq |].
  destruct (round_error q 0) as (r1' & E1' & A1); [|lia|].
  { apply Qabs_Qle_condition. change (2 ^ 0) with 1. lra. }
  rewrite E1 in E1'. injection E1' as <-.
  rewrite E1. unfold n100, of_Z, IEEE.mul, JS.mul, rnd.
  change (inject_Z 100) with 100.
  destruct (round_between 0 100 0 100 (r1 * 100)) as (r2 & E2 & B2);
    [reflexivity | reflexivity | lra |].
  destruct (round_error (r1 * 100) 7) as (r2' & E2' & A2); [|lia|].
  { apply Qabs_Qle_condition. pow2_eval. lra. }
  rewrite E2 in E2'. injection E2' as <-.
  exists r2. split; [exact E2|]. split; [exact B2|].
  apply Qabs_Qle_condition in A1, A2. apply Qabs_Qle_condition.
  pow2_eval. lra.
Qed.

(** [100 - rate * 2], within [2^-44] of the exact value. *)
Lemma score_accuracy (r : Q) :
  0 <= r <= 100 ->
  exists x : Q,
    IEEE.sub n100 (IEEE.mul (Fin r) (of_Z 2)) = Fin x /\
    Qabs (x - (100 - r * 2)) <= 2 ^ (-44).
Proof.
  intro Hr. unfold n100, of_Z, IEEE.mul, JS.mul, rnd.
  change (inject_Z 100) with 100. change (inject_Z 2) with 2.
  destruct (round_error (r * 2) 8) as (t & Et & At); [|lia|].
  { apply Qabs_Qle_condition. pow2_eval. lra. }
  rewrite Et. unfold IEEE.sub, JS.sub, JS.add, neg, rnd.
  apply Qabs_Qle_condition in At.
  destruct (round_error (100 + - t) 7) as (x & Ex & Ax); [|lia|].
  { apply Qabs_Qle_condition. pow2_eval. pow2_eval. lra. }
  exists x. split; [exact Ex|].
  apply Qabs_Qle_condition in Ax. apply Qabs_Qle_condition.
  pow2_eval. lra.
Qed.

(** C6 (as the specification states it) does not hold.  With 109
    overdue payments of 400 the quotient [109 / 400 * 100] is
    27.250000000000004 in binary64, so [100 - overdueRate * 2] is just
    below 45.5 and the reliability score is 45, where the formula of the
    claim gives [round(45.5) = 46].  With 23 of 160 the rate
    14.374999999999998 is reported as 14.37, where the claimed rate 14.375
    rounds to 14.38. *)
Lemma reliability_score_at_a_tie :
  reliabilityScore (Rounded.reliability_entry (aggregate 109 400)) = of_Z 45 /\
  round_half_up (Qmax 0 (100 - (109 / 400 * 100) * 2)) = 46%Z /\
  overdueRate (Rounded.reliability_entry (aggregate 23 160)) =
  IEEE.round (1437 / 100) /\
  round_half_up (23 / 160 * 100 * 100) = 1438%Z.
Proof. vm_compute. repeat split; reflexivity. Qed.

(** C6, amended.  The overdue rate is [(overdue_count / payment_records)
    * 100], each operation rounded to binary64, when [payment_records >
    0], and 0 otherwise; the response shows it rounded to 2 decimals,
    and shows [reliabilityScore = round(max(0, 100 - overdueRate * 2))]
    computed in the same arithmetic.  With no payment record the rate
    is 0 and the score 100.  When the overdue payments are counted among
    the records, the rate is within [2^-45] of the exact quotient and the
    score within 1 of the score of the exact formula.  With 0 overdue of
    10 records the rate is 0 and the score 100; with 5 of 10 the rate is
    50 and the score 0. *)
Theorem reliability_score_formula (vendor : row) :
  let rate := Rounded.overdueRate_raw vendor in
  let shown := Rounded.reliability_entry vendor in
  rate =
  (if (0 <? payment_records vendor)%Z
   then IEEE.mul (IEEE.div (of_Z (overdue_count vendor))
                           (of_Z (payment_records vendor))) n100
   else n0) /\
  overdueRate shown = IEEE.round2 rate /\
  reliabilityScore shown =
  Math_round (Math_max n0 (IEEE.sub n100 (IEEE.mul rate (of_Z 2)))) /\
  ((payment_records vendor <= 0)%Z ->
   rate = n0 /\ overdueRate shown = n0 /\ reliabilityScore shown = n100) /\
  ((0 <= overdue_count vendor <= payment_records vendor)%Z ->
   (0 < payment_records vendor)%Z ->
   let exact :=
     inject_Z (overdue_count vendor) / inject_Z (payment_records vendor)
     * 100 in
   exists r x : Q,
     rate = Fin r /\ Qabs (r - exact) <= 2 ^ (-45) /\
     Qabs (x - (100 - exact * 2)) <= 2 ^ (-43) /\
     reliabilityScore shown = of_Z (round_half_up (Qmax 0 x)) /\
     (Z.abs (round_half_up (Qmax 0 x) -
             round_half_up (Qmax 0 (100 - exact * 2))) <= 1)%Z) /\
  (Rounded.overdueRate_raw (aggregate 0 10) = of_Z 0 /\
   overdueRate (Rounded.reliability_entry (aggregate 0 10)) = of_Z 0 /\
   reliabilityScore (Rounded.reliability_entry (aggregate 0 10)) = of_Z 100) /\
  (Rounded.overdueRate_raw (aggregate 5 10) = of_Z 50 /\
   overdueRate (Rounded.reliability_entry (aggregate 5 10)) = of_Z 50 /\
   reliabilityScore (Rounded.reliability_entry (aggregate 5 10)) = of_Z 0).
Proof.
  intros rate shown.
  assert (Hrate : rate =
                  (if (0 <? payment_records vendor)%Z
                   then IEEE.mul (IEEE.div (of_Z (overdue_count vendor))
                                           (of_Z (payment_records vendor)))
                                 n100
                   else n0)).
  { unfold rate, Rounded.overdueRate_raw. unfold n0 at 1.
    rewrite gt_of_Z. reflexivity. }
  split; [exact Hrate|]. split; [reflexivity|]. split; [reflexivity|].
  split; [|split; [|split; vm_compute; repeat split; reflexivity]].
  - intro Hn. assert (E : rate = n0).
    { rewrite Hrate. destruct (Z.ltb_spec 0 (payment_records vendor));
        [lia | reflexivity]. }
    split; [exact E|]. unfold shown, Rounded.reliability_entry.
    cbn [overdueRate reliabilityScore]. unfold Rounded.reliabilityScore_raw.
    fold rate. rewrite E. split; vm_compute; reflexivity.
  - intros Ho Hn exact.
    destruct (rate_accuracy _ _ Ho Hn) as (r & Er & Br & Ar).
    assert (E : rate = Fin r).
    { rewrite Hrate. destruct (Z.ltb_spec 0 (payment_records vendor));
        [exact Er | lia]. }
    destruct (score_accuracy r Br) as (x & Ex & Ax).
    exists r, x. split; [exact E|]. split; [exact Ar|].
    assert (Hx : Qabs (x - (100 - exact * 2)) <= 2 ^ (-43)).
    { fold exact in Ar. apply Qabs_Qle_condition in Ar, Ax.
      apply Qabs_Qle_condition. pow2_eval. lra. }
    split; [exact Hx|]. split.
    + unfold shown, Rounded.reliability_entry. cbn [reliabilityScore].
      unfold Rounded.reliabilityScore_raw. fold rate. rewrite E, Ex.
      reflexivity.
    + apply half_up_close.
      eapply Qle_lt_trans; [apply Qmax_close|].
      eapply Qle_lt_trans; [exact Hx|]. reflexivity.
Qed.

(** X5.  [Math.round(x * 100) / 100] of a finite number of magnitude at
    most [2^20] is the binary64 value of a whole number of hundredths
    [z / 100], and [z / 100] is within half a hundredth, and [2^-32]
    for the rounding of the product, of [x]. *)
Theorem round2_accuracy (x : Q) :
  Qabs x <= 2 ^ 20 ->
  exists z : Z,
    IEEE.round2 (Fin x) = IEEE.round (inject_Z z / 100) /\
    Qabs (inject_Z z / 100 - x) <= (1 # 200) + 2 ^ (-32).
Proof.
  intro Hx. unfold IEEE.round2, IEEE.mul, JS.mul, of_Z, rnd.
  change (inject_Z 100) with 100.
  destruct (round_error (x * 100) 27) as (y & Ey & Ay); [|lia|].
  { apply Qabs_Qle_condition in Hx. apply Qabs_Qle_condition.
    pow2_eval. lra. }
  rewrite Ey. cbn [Math_round]. exists (round_half_up y). split.
  - apply (div_of_Z _ 100). discriminate.
  - unfold round_half_up.
    pose proof (Qfloor_le (y + (1 # 2))) as L.
    pose proof (Qlt_floor (y + (1 # 2))) as U.
    rewrite inject_Z_plus in U. change (inject_Z 1) with 1 in U.
    set (z := inject_Z (Qfloor (y + (1 # 2)))) in *.
    apply Qabs_Qle_condition in Ay. apply Qabs_Qle_condition.
    pow2_eval. split.
    + apply Qle_minus_iff. 
      assert (E : z / 100 - x + - - ((1 # 200) + (1 # 4294967296)) ==
                  (z - (x * 100 - (1 # 2) - (100 # 4294967296))) / 100)
        by field.
      rewrite E. apply Qle_shift_div_l; [reflexivity|]. lra.
    + apply Qle_minus_iff.
      assert (E : (1 # 200) + (1 # 4294967296) + - (z / 100 - x) ==
                  ((x * 100 + (1 # 2) + (100 # 4294967296)) - z) / 100)
        by field.
      rewrite E. apply Qle_shift_div_l; [reflexivity|]. lra.
Qed.

(** X5 at 1.005, which is shown as 1: the product [1.005 * 100] is
    100.49999999999999. *)
Lemma round2_accuracy_witness :
  Qabs (1005 / 1000) <= 2 ^ 20 /\
  exists z : Z,
    IEEE.round2 (Fin (1005 / 1000)) = IEEE.round (inject_Z z / 100) /\
    Qabs (inject_Z z / 100 - 1005 / 1000) <= (1 # 200) + 2 ^ (-32).
Proof.
  assert (H : Qabs (1005 / 1000) <= 2 ^ 20) by (vm_compute; discriminate).
  split; [exact H | exact (round2_accuracy (1005 / 1000) H)].
Defined.

Example round2_of_1_005 : IEEE.round2 (IEEE.round 1.005) = of_Z 1.
Proof. vm_compute. reflexivity. Qed.

End RoundedPayment.

(* ================================================================== *)
(** ** The spending trends, as they are computed *)
(* ================================================================== *)

Section RoundedTrends.

Import SpendingTrends.
Import IEEE.
Local Open Scope Q_scope.

(** The average of months whose spends are not astronomically large is
    a finite number, or [NaN] for no month. *)
Lemma average_is_not_infinite (l : list trend) :
  (Z.of_nat (List.length l) < 2 ^ 53)%Z ->
  Forall (fun t => Qabs (monthlySpend t) <= 2 ^ 900) l ->
  IEEE.div (Rounded.spend_sum l) (length_of l) = NaN \/
  exists r : Q, IEEE.div (Rounded.spend_sum l) (length_of l) = Fin r.
Proof.
  intros Hlen Hall. unfold Rounded.spend_sum, length_of.
  destruct (sum_by_within monthlySpend 900 ltac:(lia) l Hlen Hall)
    as (s & -> & Hs).
  destruct l as [|t rest].
  - left. cbn [List.length Z.of_nat] in Hs. change (inject_Z 0) with 0 in Hs.
    rewrite Qmult_0_l in Hs. assert (E : s == 0).
    { apply Qabs_Qle_condition in Hs. lra. }
    unfold IEEE.div, JS.div, of_Z. cbn [List.length Z.of_nat].
    change (Qeq_bool (inject_Z 0) 0) with true. cbv iota.
    assert (C : (s ?= 0) = Eq) by (apply (proj1 (Qeq_alt _ _)); exact E).
    rewrite C. reflexivity.
  - right. set (n := Z.of_nat (List.length (t :: rest))) in *.
    assert (Hn : (1 <= n)%Z) by (unfold n; cbn [List.length]; lia).
    assert (Hn' : 1 <= inject_Z n).
    { change 1 with (inject_Z 1). rewrite <- Zle_Qle. exact Hn. }
    unfold IEEE.div, JS.div, of_Z.
    destruct (Qeq_bool (inject_Z n) 0) eqn:E.
    { apply Qeq_bool_iff in E. lra. }
    unfold rnd.
    destruct (round_within n 900 (s / inject_Z n)) as (r & Er & _);
      [lia | lia | | exists r; exact Er].
    pose proof (pow2_pos 900) as P.
    apply Qabs_Qle_condition in Hs. apply Qabs_Qle_condition. split.
    + apply Qle_shift_div_l; [lra|]. nra.
    + apply Qle_shift_div_r; [lra|]. nra.
Qed.

(** With no previous window the growth is 0. *)
Lemma growth_without_previous (vendor_trends : list trend) :
  previous vendor_trends = [] ->
  Rounded.recentAvg vendor_trends <> PosInf ->
  Rounded.growthRate_raw vendor_trends = n0.
Proof.
  intros Hprev Hfin. unfold Rounded.growthRate_raw, Rounded.previousAvg.
  rewrite length_of_positive, Hprev.
  destruct (Rounded.recentAvg vendor_trends) as [r| | |] eqn:E;
    try reflexivity; [|contradiction].
  destruct (gt (Fin r) n0) eqn:G; [|reflexivity].
  apply gt_fin in G. change (inject_Z 0) with 0 in G.
  unfold IEEE.sub, JS.sub, JS.add, neg, rnd.
  assert (E0 : r + - r == 0) by ring.
  rewrite (round_comp _ _ E0). change (round 0) with (Fin 0).
  unfold IEEE.div, JS.div.
  destruct (Qeq_bool r 0) eqn:Z0.
  { apply Qeq_bool_iff in Z0. lra. }
  unfold rnd. assert (E1 : 0 / r == 0) by (field; lra).
  rewrite (round_comp _ _ E1). change (round 0) with (Fin 0).
  reflexivity.
Qed.

Lemma Forall_last_n {A : Type} (P : A -> Prop) (n : nat) (l : list A) :
  Forall P l -> Forall P (last_n n l).
Proof.
  intro H. unfold last_n.
  rewrite <- (firstn_skipn (List.length l - n) l) in H.
  apply Forall_app in H. apply H.
Qed.

(** C7 (as the specification states it) does not hold.  For the months
    160, 183, 183, 183 the recent average is 183 and the previous one
    160; the growth [(183 - 160) / 160 * 100] is 14.374999999999998 in
    binary64 and is reported as 14.37, where the claimed value 14.375
    rounds to 14.38. *)
Lemma growth_rate_at_a_tie :
  growthRate
    (summary_of
       (Rounded.trend_entry EmptyString
          [point 1 160; point 2 183; point 3 183; point 4 183])) =
  IEEE.round (1437 / 100) /\
  (183 - 160) / 160 * 100 == 14375 / 1000 /\
  round_half_up ((183 - 160) / 160 * 100 * 100) = 1438%Z.
Proof. vm_compute. repeat split; reflexivity. Qed.

(** C7, amended.  The months are put in ascending order, a
    rearrangement of the vendor's months; [recent] is the last 3 of them
    and [previous] the 3 before.  The growth rate is [((recentAvg -
    previousAvg) / previousAvg) * 100], each operation rounded to
    binary64, when [previousAvg > 0], and 0 otherwise, with
    [previousAvg] standing for [recentAvg] when [previous] is empty; it
    is reported through [Math.round(x * 100) / 100], so as [NaN], an
    infinity or the binary64 value of a whole number of hundredths.
    When [previous] is empty (and no spend is astronomically large) the
    reported growth rate is 0; so it is for the single month
    [{monthlySpend: 100}].  Six months of 100, 100, 100, 115, 115, 116
    give 15.33. *)
Theorem growth_rate_formula (name : string) (vendor_trends : list trend) :
  let sorted := sortedTrends vendor_trends in
  let recentAvg :=
    IEEE.div (Rounded.spend_sum (recent vendor_trends))
             (length_of (recent vendor_trends)) in
  let previousAvg :=
    match previous vendor_trends with
    | [] => recentAvg
    | _ :: _ =>
        IEEE.div (Rounded.spend_sum (previous vendor_trends))
                 (length_of (previous vendor_trends))
    end in
  let reported :=
    growthRate (summary_of (Rounded.trend_entry name vendor_trends)) in
  Sorted month_le sorted /\
  Permutation vendor_trends sorted /\
  recent vendor_trends = last_n 3 sorted /\
  previous vendor_trends = last_n 3 (drop_last_n 3 sorted) /\
  Rounded.growthRate_raw vendor_trends =
  (if gt previousAvg n0
   then IEEE.mul (IEEE.div (IEEE.sub recentAvg previousAvg) previousAvg)
                 n100
   else n0) /\
  reported = IEEE.round2 (Rounded.growthRate_raw vendor_trends) /\
  (reported = NaN \/ reported = PosInf \/ reported = NegInf \/
   exists z : Z, reported = IEEE.div (of_Z z) n100) /\
  (previous vendor_trends = [] ->
   Forall (fun t => Qabs (monthlySpend t) <= 2 ^ 900) vendor_trends ->
   reported = n0) /\
  (recent [point 1 100] = [point 1 100] /\
   previous [point 1 100] = [] /\
   growthRate (summary_of (Rounded.trend_entry name [point 1 100])) = n0) /\
  growthRate
    (summary_of
       (Rounded.trend_entry name
          [point 1 100; point 2 100; point 3 100;
           point 4 115; point 5 115; point 6 116])) =
  IEEE.round (1533 / 100).
Proof.
  intros sorted recentAvg previousAvg reported.
  destruct (sortedTrends_sorted vendor_trends) as [Hsorted Hperm].
  assert (Hrecent : recent vendor_trends = last_n 3 sorted)
    by apply slice_last_3.
  split; [exact Hsorted|]. split; [exact Hperm|].
  split; [exact Hrecent|]. split; [apply slice_previous_3|].
  split.
  { unfold Rounded.growthRate_raw, Rounded.previousAvg, previousAvg.
    rewrite length_of_positive.
    destruct (previous vendor_trends); reflexivity. }
  split; [reflexivity|]. split; [apply round2_shape|].
  split; [|split; [vm_compute; repeat split; reflexivity
                  |vm_compute; reflexivity]].
  intros Hprev Hall. unfold reported, Rounded.trend_entry.
  cbn [summary_of growthRate].
  rewrite growth_without_previous; [reflexivity | exact Hprev |].
  assert (Hall' : Forall (fun t => Qabs (monthlySpend t) <= 2 ^ 900)
                         (recent vendor_trends)).
  { rewrite Hrecent. apply Forall_last_n.
    apply (Permutation_Forall Hperm), Hall. }
  assert (Hlen : (Z.of_nat (List.length (recent vendor_trends)) < 2 ^ 53)%Z).
  { rewrite Hrecent. unfold last_n. rewrite length_skipn.
    apply Z.le_lt_trans with 3%Z; [lia | reflexivity]. }
  unfold Rounded.recentAvg.
  destruct (average_is_not_infinite _ Hlen Hall') as [->|[r ->]];
    discriminate.
Qed.

(** X14.  The summary of a vendor adds up all its months, whatever
    their order in the query result.  For at most [2^j] months with
    spends of magnitude at most [2^k], [totalSpend] is a finite number
    within [2^(k+j-52)] per month of the exact sum of the spends;
    [totalInvoices] is the exact sum of the invoice counts, as long as
    it stays below [2^53]; [activeMonths] is the number of months; and
    [avgMonthlySpend] is the total over that number, through
    [Math.round(x * 100) / 100]. *)
Theorem trend_summary_totals (name : string) (vendor_trends : list trend)
        (k j : Z) :
  (-1022 <= k)%Z -> (0 <= j <= 52)%Z -> (k + j <= 970)%Z ->
  (Z.of_nat (List.length vendor_trends) <= 2 ^ j)%Z ->
  Forall (fun t => Qabs (monthlySpend t) <= 2 ^ k) vendor_trends ->
  Forall (fun t => (0 <= invoiceCount t)%Z) vendor_trends ->
  (Zsum (map invoiceCount vendor_trends) < 2 ^ 53)%Z ->
  let summary := summary_of (Rounded.trend_entry name vendor_trends) in
  let months := Z.of_nat (List.length vendor_trends) in
  (exists total : Q,
      totalSpend summary = Fin total /\
      Qabs (total - Qsum (map monthlySpend vendor_trends)) <=
      inject_Z months * 2 ^ (k + j - 52)) /\
  totalInvoices summary = of_Z (Zsum (map invoiceCount vendor_trends)) /\
  activeMonths summary = months /\
  avgMonthlySpend summary =
  IEEE.round2 (IEEE.div (totalSpend summary) (of_Z months)).
Proof.
  intros Hk Hj Hkj Hlen Hspend Hcount Hsum summary months.
  pose proof (sort_perm by_month vendor_trends) as Hperm.
  fold (sortedTrends vendor_trends) in Hperm.
  assert (Hl : List.length (sortedTrends vendor_trends) =
               List.length vendor_trends)
    by (symmetry; apply Permutation_length, Hperm).
  unfold summary, Rounded.trend_entry.
  cbn [summary_of totalSpend totalInvoices activeMonths avgMonthlySpend].
  split; [|split; [|split]].
  - unfold Rounded.total_spend, Rounded.spend_sum, IEEE.sum_by.
    destruct (running_sum_error monthlySpend k j Hk Hj Hkj
                (sortedTrends vendor_trends) 0 0) as (s & Es & He).
    + lia.
    + rewrite Hl. lia.
    + change (inject_Z 0) with 0. change (Qabs 0) with 0. lra.
    + apply (Permutation_Forall Hperm), Hspend.
    + exists s. split; [exact Es|].
      rewrite Hl in He. fold months in He.
      assert (E : Qsum (map monthlySpend vendor_trends) ==
                  0 + Qsum (map monthlySpend (sortedTrends vendor_trends))).
      { rewrite Qplus_0_l. apply Qsum_perm, Permutation_map, Hperm. }
      rewrite E. exact He.
  - unfold IEEE.sum_by.
    rewrite (integer_sum_exact invoiceCount (sortedTrends vendor_trends) 0).
    + f_equal. rewrite Z.add_0_l.
      apply Zsum_perm, Permutation_map, Permutation_sym, Hperm.
    + lia.
    + apply (Permutation_Forall Hperm), Hcount.
    + rewrite Z.add_0_l.
      rewrite (Zsum_perm _ (map invoiceCount vendor_trends)); [exact Hsum|].
      apply Permutation_map, Permutation_sym, Hperm.
  - rewrite Hl. reflexivity.
  - unfold Rounded.avgMonthlySpend_raw, length_of. rewrite Hl. reflexivity.
Qed.

(** X14 on the months 10.12 and 10.11, whose binary64 sum is
    20.229999999999997. *)
Lemma trend_summary_totals_witness :
  exists total : Q,
    totalSpend
      (summary_of
         (Rounded.trend_entry EmptyString [point 2 10.12; point 1 10.11])) =
    Fin total /\
    Qabs (total - Qsum (map monthlySpend [point 2 10.12; point 1 10.11])) <=
    inject_Z 2 * 2 ^ (4 + 1 - 52).
Proof.
  refine (proj1 (trend_summary_totals EmptyString
                   [point 2 10.12; point 1 10.11] 4 1 _ _ _ _ _ _ _)).
  - lia.
  - lia.
  - lia.
  - vm_compute. discriminate.
  - repeat constructor; vm_compute; discriminate.
  - repeat constructor; vm_compute; discriminate.
  - vm_compute. reflexivity.
Defined.

Example total_of_10_11_and_10_12 :
  let summary :=
    summary_of
      (Rounded.trend_entry EmptyString [point 2 10.12; point 1 10.11]) in
  totalSpend summary = IEEE.add (IEEE.round 10.11) (IEEE.round 10.12) /\
  totalSpend summary <> IEEE.round 20.23 /\
  avgMonthlySpend summary = IEEE.round 10.11.
Proof.
  vm_compute. repeat split; try reflexivity. intro H. discriminate H.
Qed.

End RoundedTrends.

(* ================================================================== *)
(** ** The properties of a grouping object *)
(* ================================================================== *)

Section ReduceFacts.

Context {A R : Type}.
Variable bad : R -> bool.
Variable text : string.
Variable update : A -> R -> A.

(** A reduction whose callback throws on the rows [bad] selects, and
    updates the accumulator on the others. *)
Lemma reduce_guarded (rows : list R) (acc : A) :
  reduce (fun acc r => if bad r then Thrown text else Returned (update acc r))
         rows acc =
  if existsb bad rows then Thrown text
  else Returned (fold_left update rows acc).
Proof.
  revert acc. induction rows as [|r rest IH]; intro acc; [reflexivity|].
  cbn [reduce existsb fold_left]. destruct (bad r); [reflexivity|].
  cbn [orb]. apply IH.
Qed.

End ReduceFacts.

Section OwnOrder.

Context {A : Type}.
Variable key : A -> string.

Lemma insert_by_index_perm (x : A) (l : list A) :
  Permutation (x :: l) (Keys.insert_by_index key x l).
Proof.
  induction l as [|y rest IH]; cbn [Keys.insert_by_index]; [reflexivity|].
  destruct (Keys.index_of (key x) <=? Keys.index_of (key y))%N;
    [reflexivity|].
  rewrite perm_swap. apply perm_skip, IH.
Qed.

Lemma index_sort_perm (l : list A) :
  Permutation l (fold_right (Keys.insert_by_index key) [] l).
Proof.
  induction l as [|x rest IH]; cbn [fold_right]; [reflexivity|].
  rewrite <- insert_by_index_perm. apply perm_skip, IH.
Qed.

Lemma own_order_perm (l : list A) : Permutation l (Keys.own_order key l).
Proof.
  unfold Keys.own_order. rewrite <- index_sort_perm.
  induction l as [|x rest IH]; cbn [filter]; [reflexivity|].
  destruct (Keys.is_index (key x)); cbn [negb app].
  - apply perm_skip, IH.
  - rewrite <- Permutation_middle. apply perm_skip, IH.
Qed.

Lemma insert_by_index_sorted (x : A) (l : list A) :
  StronglySorted (fun a b => (Keys.index_of (key a) <= Keys.index_of (key b))%N) l ->
  StronglySorted (fun a b => (Keys.index_of (key a) <= Keys.index_of (key b))%N)
                 (Keys.insert_by_index key x l).
Proof.
  induction 1 as [|y rest Hrest IH Hy]; cbn [Keys.insert_by_index].
  - repeat constructor.
  - destruct (N.leb_spec (Keys.index_of (key x)) (Keys.index_of (key y)))
      as [Hle|Hlt].
    + constructor; [constructor; assumption|].
      constructor; [exact Hle|].
      eapply Forall_impl; [|exact Hy]. cbn beta. intros. lia.
    + constructor; [exact IH|].
      apply (Permutation_Forall (insert_by_index_perm x rest)).
      constructor; [lia | exact Hy].
Qed.

Lemma index_sort_sorted (l : list A) :
  StronglySorted (fun a b => (Keys.index_of (key a) <= Keys.index_of (key b))%N)
                 (fold_right (Keys.insert_by_index key) [] l).
Proof.
  induction l as [|x rest IH]; cbn [fold_right]; [constructor|].
  apply insert_by_index_sorted, IH.
Qed.

Lemma StronglySorted_map {B : Type} (f : A -> B) (P : B -> B -> Prop)
      (l : list A) :
  StronglySorted (fun a b => P (f a) (f b)) l -> StronglySorted P (map f l).
Proof.
  induction 1 as [|x rest Hrest IH Hx]; cbn [map]; constructor;
    [exact IH|]. apply Forall_map. exact Hx.
Qed.

(** The keys of the properties as [Object.keys] lists them. *)
Lemma own_order_keys (l : list A) :
  own_key_order (map key l) (map key (Keys.own_order key l)).
Proof.
  unfold Keys.own_order.
  set (idx := fold_right (Keys.insert_by_index key) []
                (filter (fun a => Keys.is_index (key a)) l)).
  exists (map key idx),
         (map key (filter (fun a => negb (Keys.is_index (key a))) l)).
  split; [apply map_app|].
  assert (Hperm : Permutation (filter (fun a => Keys.is_index (key a)) l) idx)
    by apply index_sort_perm.
  assert (Hf : forall (p : string -> bool) (l' : list A),
             map key (filter (fun a => p (key a)) l') = filter p (map key l')).
  { intros p l'. induction l' as [|a rest IH]; [reflexivity|].
    simpl. destruct (p (key a)); simpl; rewrite IH; reflexivity. }
  split; [|split; [|split]].
  - apply Forall_map. apply (Permutation_Forall Hperm).
    apply Forall_forall. intros a Ha. apply filter_In in Ha. apply Ha.
  - rewrite <- Hf. apply Permutation_map, Permutation_sym, Hperm.
  - apply StronglySorted_map, index_sort_sorted.
  - apply (Hf (fun name => negb (Keys.is_index name))).
Qed.

Lemma own_order_plain (l : list A) :
  Forall (fun a => Keys.is_index (key a) = false) l ->
  Keys.own_order key l = l.
Proof.
  intro H. unfold Keys.own_order.
  assert (E1 : filter (fun a => Keys.is_index (key a)) l = []).
  { induction H as [|a rest Ha _ IH]; [reflexivity|].
    cbn [filter]. rewrite Ha. exact IH. }
  assert (E2 : filter (fun a => negb (Keys.is_index (key a))) l = l).
  { clear E1. induction H as [|a rest Ha _ IH]; [reflexivity|].
    cbn [filter]. rewrite Ha. cbn [negb]. f_equal. exact IH. }
  rewrite E1, E2. reflexivity.
Qed.

End OwnOrder.

(* ================================================================== *)
(** ** The grouping of the spending trends *)
(* ================================================================== *)

Section RoundedTrendGrouping.

Import SpendingTrends.
Local Open Scope Q_scope.

Lemma push_trend_names (name : string) (t : trend)
      (acc : list (string * list trend)) :
  map fst (push_trend name t acc) =
  if existsb (String.eqb name) (map fst acc) then map fst acc
  else map fst acc ++ [name].
Proof.
  induction acc as [|[key pushed] rest IH]; cbn [push_trend map fst existsb];
    [reflexivity|].
  rewrite (String.eqb_sym name key).
  destruct (String.eqb key name); cbn [map fst orb]; [reflexivity|].
  rewrite IH. destruct (existsb (String.eqb name) (map fst rest));
    reflexivity.
Qed.

Lemma trends_pushed_names (rows : list row) :
  map fst (trends_pushed rows) = first_appearances (map r_vendorName rows).
Proof.
  unfold trends_pushed, first_appearances.
  change (@nil string) with (map fst (@nil (string * list trend))) at 2.
  generalize (@nil (string * list trend)).
  induction rows as [|r rest IH]; intro acc; [reflexivity|].
  cbn [fold_left map]. rewrite IH, push_trend_names. reflexivity.
Qed.

Lemma trendsByVendor_outcome (rows : list row) :
  trendsByVendor rows =
  if existsb (fun r => Keys.inherited (r_vendorName r)) rows
  then Thrown "acc[vendorName].push is not a function"
  else Returned (trends_pushed rows).
Proof.
  apply (reduce_guarded (fun r => Keys.inherited (r_vendorName r)) _
           (fun acc record =>
              push_trend (r_vendorName record) (to_trend record) acc)).
Qed.

(** X15.  The reduce of the spending trends throws as soon as a vendor
    is named like a property of [Object.prototype].  Otherwise it groups
    the rows of the monthly query by vendor: the keys are the vendor
    names in the order of their first appearance, each once; the array
    under a key holds exactly the rows of that vendor in query order and
    is never empty; every row falls under the key of its vendor; and the
    arrays together hold as many points as the query returned rows. *)
Theorem trends_grouped_by_vendor (spendingTrends : list row) :
  match trendsByVendor spendingTrends with
  | Thrown message =>
      message <> EmptyString /\
      Exists (fun r => Keys.inherited (r_vendorName r) = true) spendingTrends
  | Returned groups =>
      Forall (fun r => Keys.inherited (r_vendorName r) = false)
             spendingTrends /\
      map fst groups = first_appearances (map r_vendorName spendingTrends) /\
      NoDup (map fst groups) /\
      Forall (trend_group_of spendingTrends) groups /\
      Forall (fun r => In (r_vendorName r) (map fst groups)) spendingTrends /\
      list_sum (map (fun kv => List.length (snd kv)) groups) =
      List.length spendingTrends
  end.
Proof.
  rewrite trendsByVendor_outcome.
  destruct (existsb (fun r => Keys.inherited (r_vendorName r)) spendingTrends)
    eqn:E.
  - split; [discriminate|]. apply Exists_exists.
    apply existsb_exists in E. exact E.
  - split.
    { apply Forall_forall. intros r Hr.
      destruct (Keys.inherited (r_vendorName r)) eqn:Hi; [|reflexivity].
      assert (H : existsb (fun r => Keys.inherited (r_vendorName r))
                          spendingTrends = true).
      { apply existsb_exists. exists r. split; assumption. }
      congruence. }
    split; [apply trends_pushed_names|].
    exact (trend_groups_hold_rows spendingTrends).
Qed.

Lemma sorted_is_not_empty (v : list trend) : v <> [] -> sortedTrends v <> [].
Proof.
  intros Hv Hnil. apply (f_equal (@List.length trend)) in Hnil.
  unfold sortedTrends in Hnil. rewrite sort_length in Hnil.
  destruct v; [contradiction | discriminate].
Qed.

Lemma list_sum_perm (l l' : list nat) :
  Permutation l l' -> list_sum l = list_sum l'.
Proof.
  induction 1 as [|x l l' _ IH|x y l|l l' l'' _ IH1 _ IH2]; simpl; lia.
Qed.

(** X16.  When the grouping throws, the request fails with status 500
    and the message of the error.  Otherwise the response has one entry
    per vendor of the monthly query, whatever [topVendors] asked for,
    listed as [Object.entries] lists the keys: the vendor names that are
    array indices first, in ascending numeric order, then the other
    names in the order of their first appearance.  Every entry has at
    least one month, and the entries together hold one month per row. *)
Theorem trend_entries_per_vendor (topVendors : number)
        (topVendorsList : list top_vendor) (spendingTrends : list row) :
  match trendsByVendor spendingTrends with
  | Thrown message =>
      handler topVendors (Rows topVendorsList) (Rows spendingTrends) =
      Failure500 message
  | Returned groups =>
      exists body : response,
        handler topVendors (Rows topVendorsList) (Rows spendingTrends) =
        Success body /\
        topVendorsCount body = topVendors /\
        own_key_order (map fst groups) (map vendorName (data body)) /\
        NoDup (map vendorName (data body)) /\
        Forall (fun e => trends e <> [] /\
                         (1 <= activeMonths (summary_of e))%Z)
               (data body) /\
        list_sum (map (fun e => List.length (trends e)) (data body)) =
        List.length spendingTrends
  end.
Proof.
  unfold handler. rewrite trendsByVendor_outcome.
  destruct (existsb (fun r => Keys.inherited (r_vendorName r)) spendingTrends);
    [reflexivity|].
  eexists. split; [reflexivity|]. split; [reflexivity|].
  cbn [respond data]. unfold trendsData.
  destruct (trend_groups_hold_rows spendingTrends)
    as (Hnodup & Hgroups & _ & Hsize).
  set (groups := trends_pushed spendingTrends) in *.
  pose proof (own_order_perm fst groups) as Hperm.
  assert (Hnames : map vendorName
                     (map (fun kv =>
                             Rounded.trend_entry (fst kv) (snd kv))
                          (Keys.own_order fst groups)) =
                   map fst (Keys.own_order fst groups)).
  { rewrite map_map. apply map_ext. reflexivity. }
  rewrite Hnames. split; [apply own_order_keys|]. split.
  { apply (Permutation_NoDup (Permutation_map fst Hperm)), Hnodup. }
  split.
  - apply Forall_map. apply (Permutation_Forall Hperm).
    eapply Forall_impl; [|exact Hgroups].
    intros [name v] [_ Hv]. cbn [fst snd] in *.
    cbn [Rounded.trend_entry trends summary_of activeMonths].
    pose proof (sorted_is_not_empty v Hv) as Hs.
    split; [exact Hs|].
    destruct (sortedTrends v); [contradiction|]. cbn [List.length]. lia.
  - rewrite map_map. cbn [Rounded.trend_entry trends].
    rewrite <- Hsize.
    rewrite (list_sum_perm _ _
               (Permutation_map (fun kv => List.length (snd kv)) Hperm)).
    f_equal. apply map_ext. intros [name v]. cbn [snd].
    unfold sortedTrends. apply sort_length.
Qed.

(** The vendors "b", "10" and "2" are listed as 2, 10, b; a vendor named
    "constructor" makes the request fail. *)
Example trend_entries_of_numbered_vendors :
  (exists body : response,
      handler (of_Z 10) (Rows [])
        (Rows [{| r_vendorName := "b"; r_month := 1; invoice_count := 1;
                  monthly_spend := 5; avg_invoice_value := 5 |};
               {| r_vendorName := "10"; r_month := 1; invoice_count := 1;
                  monthly_spend := 5; avg_invoice_value := 5 |};
               {| r_vendorName := "2"; r_month := 1; invoice_count := 1;
                  monthly_spend := 5; avg_invoice_value := 5 |}]) =
      Success body /\
      map vendorName (data body) = ["2"; "10"; "b"]%string) /\
  handler (of_Z 10) (Rows [])
    (Rows [{| r_vendorName := "constructor"; r_month := 1;
              invoice_count := 1; monthly_spend := 5;
              avg_invoice_value := 5 |}]) =
  Failure500 "acc[vendorName].push is not a function".
Proof.
  split; [|reflexivity].
  eexists. split; [reflexivity|]. vm_compute. reflexivity.
Qed.

End RoundedTrendGrouping.

(* ================================================================== *)
(** ** The category analysis, as it is computed *)
(* ================================================================== *)

Section RoundedGrouping.

Import CategoryAnalysis.
Local Open Scope Q_scope.

Lemma upsert_name_list (name : string) (update : vendor_group -> vendor_group)
      (acc : list vendor_group) :
  (forall g, g_vendorName (update g) = g_vendorName g) ->
  map g_vendorName (upsert name update acc) =
  if existsb (String.eqb name) (map g_vendorName acc)
  then map g_vendorName acc
  else map g_vendorName acc ++ [name].
Proof.
  intro Hupdate.
  induction acc as [|g rest IH]; cbn [upsert map existsb].
  - rewrite Hupdate. reflexivity.
  - rewrite (String.eqb_sym name (g_vendorName g)).
    destruct (String.eqb (g_vendorName g) name); cbn [map orb].
    + rewrite Hupdate. reflexivity.
    + rewrite IH. destruct (existsb (String.eqb name) (map g_vendorName rest));
        reflexivity.
Qed.

Lemma groups_built_names (rows : list row) :
  map g_vendorName (groups_built rows) =
  first_appearances (map vendorName rows).
Proof.
  unfold groups_built, first_appearances.
  change (@nil string) with (map g_vendorName (@nil vendor_group)) at 2.
  generalize (@nil vendor_group).
  induction rows as [|r rest IH]; intro acc; [reflexivity|].
  cbn [fold_left map]. rewrite IH, upsert_name_list; reflexivity.
Qed.

Lemma groups_built_snoc (rows : list row) (r : row) :
  groups_built (rows ++ [r]) =
  upsert (vendorName r) (Rounded.add_row r) (groups_built rows).
Proof.
  unfold groups_built. rewrite fold_left_app. reflexivity.
Qed.

(** What the reduction keeps true of its accumulator. *)
Lemma groups_built_invariant (rows : list row) :
  NoDup (map g_vendorName (groups_built rows)) /\
  (forall k, In k (map g_vendorName (groups_built rows)) <->
             exists r, In r rows /\ vendorName r = k) /\
  (forall g, In g (groups_built rows) ->
             let own := category_rows_of (g_vendorName g) rows in
             categories g = map Rounded.item own /\
             totalSpend g =
             IEEE.sum_by (fun r => IEEE.round (category_spend r)) own /\
             totalItems g =
             IEEE.sum_by (fun r => of_Z (item_count r)) own).
Proof.
  induction rows as [|r rows (Hnodup & Hkeys & Hgroups)] using rev_ind.
  - split; [constructor|]. split; [|intros g []].
    intro k. cbn. split; [intros []|intros (r & [] & _)].
  - rewrite groups_built_snoc.
    set (update := Rounded.add_row r).
    assert (Hupdate : forall g, g_vendorName (update g) = g_vendorName g)
      by reflexivity.
    split; [apply (upsert_nodup _ _ Hupdate), Hnodup|]. split.
    + intro k. rewrite (upsert_names _ _ Hupdate), Hkeys. split.
      * intros [->|(r' & Hin & Hname)].
        -- exists r. split; [apply in_or_app; right; left|]; reflexivity.
        -- exists r'. split; [apply in_or_app; left|]; assumption.
      * intros (r' & Hin & Hname). apply in_app_or in Hin as [Hin|[->|[]]].
        -- right. exists r'. split; assumption.
        -- left. symmetry. exact Hname.
    + intros g' Hin. cbv zeta. rewrite category_rows_of_snoc.
      destruct (upsert_in _ _ _ _ Hnodup Hin)
        as [[Hold Hother]|[(g & Hold & Hname & ->)|[Hnew ->]]].
      * destruct (String.eqb (vendorName r) (g_vendorName g')) eqn:Hk;
          [apply String.eqb_eq in Hk; congruence|].
        rewrite app_nil_r. apply Hgroups, Hold.
      * rewrite Hupdate, Hname, String.eqb_refl.
        destruct (Hgroups g Hold) as (Hc & Hs & Hi). rewrite Hname in *.
        unfold update, Rounded.add_row.
        cbn [categories totalSpend totalItems].
        rewrite Hc, Hs, Hi, map_app, !sum_by_snoc. repeat split.
      * rewrite Hupdate. cbn [g_vendorName]. rewrite String.eqb_refl.
        assert (Hnone : category_rows_of (vendorName r) rows = []).
        { unfold category_rows_of.
          destruct (filter _ rows) as [|r' rest] eqn:Hfilter; [reflexivity|].
          exfalso. apply Hnew, Hkeys. exists r'.
          assert (Hin' : In r' (filter (fun r0 => String.eqb (vendorName r0)
                                                   (vendorName r)) rows))
            by (rewrite Hfilter; left; reflexivity).
          apply filter_In in Hin' as [Hin' Heq].
          split; [exact Hin' | apply String.eqb_eq, Heq]. }
        rewrite Hnone. unfold update. repeat split.
Qed.

(** The groups against the rows they were built from. *)
Lemma groups_built_hold_rows (rows : list row) :
  NoDup (map g_vendorName (groups_built rows)) /\
  Forall (rounded_group_of rows) (groups_built rows) /\
  Forall (fun r => In (vendorName r) (map g_vendorName (groups_built rows)))
         rows.
Proof.
  destruct (groups_built_invariant rows) as (Hnodup & Hkeys & Hgroups).
  split; [exact Hnodup|]. split.
  - apply Forall_forall. intros g Hin.
    destruct (Hgroups g Hin) as (Hc & Hs & Hi).
    unfold rounded_group_of. cbv zeta.
    split; [|split; [exact Hc | split; [exact Hs | exact Hi]]].
    assert (Hk : In (g_vendorName g) (map g_vendorName (groups_built rows)))
      by (apply in_map, Hin).
    apply Hkeys in Hk as (r & Hr & Hname).
    assert (Hin' : In r (category_rows_of (g_vendorName g) rows)).
    { apply filter_In. split; [exact Hr|]. apply String.eqb_eq, Hname. }
    intro Hnil. rewrite Hnil in Hin'. exact Hin'.
  - apply Forall_forall. intros r Hr. apply Hkeys. exists r.
    split; [exact Hr | reflexivity].
Qed.

Lemma vendorCategories_outcome (rows : list row) :
  Rounded.vendorCategories rows =
  if existsb (fun r => Keys.inherited (vendorName r)) rows
  then Thrown "Cannot read properties of undefined (reading 'push')"
  else Returned (groups_built rows).
Proof.
  apply (reduce_guarded (fun r => Keys.inherited (vendorName r)) _
           (fun acc record =>
              upsert (vendorName record) (Rounded.add_row record) acc)).
Qed.

Lemma none_inherited {R : Type} (bad : R -> bool) (rows : list R) :
  existsb bad rows = false -> Forall (fun r => bad r = false) rows.
Proof.
  intro E. apply Forall_forall. intros r Hr.
  destruct (bad r) eqn:Hb; [|reflexivity].
  assert (H : existsb bad rows = true)
    by (apply existsb_exists; exists r; split; assumption).
  congruence.
Qed.

(** X17.  The reduce of the category analysis throws as soon as a
    vendor is named like a property of [Object.prototype].  Otherwise it
    groups the query rows by vendor: the groups are created in the
    order in which the vendors first appear, one per vendor name; the
    categories of a group are the rows of that vendor in query order, at
    least one; its [totalSpend] and [totalItems] are the running
    binary64 sums of their spends and item counts; and every row belongs
    to the group of its vendor.  With non-negative item counts adding up
    to less than [2^53], [totalItems] is their exact sum. *)
Theorem categories_grouped_by_vendor (categoryAnalysis : list row) :
  match Rounded.vendorCategories categoryAnalysis with
  | Thrown message =>
      message <> EmptyString /\
      Exists (fun r => Keys.inherited (vendorName r) = true) categoryAnalysis
  | Returned groups =>
      Forall (fun r => Keys.inherited (vendorName r) = false)
             categoryAnalysis /\
      map g_vendorName groups =
      first_appearances (map vendorName categoryAnalysis) /\
      NoDup (map g_vendorName groups) /\
      Forall (rounded_group_of categoryAnalysis) groups /\
      Forall (fun r => In (vendorName r) (map g_vendorName groups))
             categoryAnalysis /\
      (Forall (fun r => (0 <= item_count r)%Z) categoryAnalysis ->
       (Zsum (map item_count categoryAnalysis) < 2 ^ 53)%Z ->
       Forall (fun g =>
                 totalItems g =
                 of_Z (Zsum (map item_count
                               (category_rows_of (g_vendorName g)
                                                 categoryAnalysis))))
              groups)
  end.
Proof.
  rewrite vendorCategories_outcome.
  destruct (existsb (fun r => Keys.inherited (vendorName r)) categoryAnalysis)
    eqn:E.
  - split; [discriminate|]. apply Exists_exists.
    apply existsb_exists in E. exact E.
  - split; [exact (none_inherited _ _ E)|].
    split; [apply groups_built_names|].
    destruct (groups_built_hold_rows categoryAnalysis)
      as (Hnodup & Hgroups & Hrows).
    split; [exact Hnodup|]. split; [exact Hgroups|]. split; [exact Hrows|].
    intros Hcount Hsum. eapply Forall_impl; [|exact Hgroups].
    intros g (_ & _ & _ & Hi). rewrite Hi. unfold IEEE.sum_by.
    rewrite (integer_sum_exact item_count _ 0).
    + rewrite Z.add_0_l. reflexivity.
    + lia.
    + unfold category_rows_of. apply Forall_forall. intros r Hr.
      apply filter_In in Hr. rewrite Forall_forall in Hcount.
      apply Hcount, Hr.
    + rewrite Z.add_0_l. unfold category_rows_of.
      pose proof (Zsum_filter item_count
                    (fun r => String.eqb (vendorName r) (g_vendorName g))
                    categoryAnalysis Hcount). lia.
Qed.

End RoundedGrouping.

Section RoundedPercentages.

Import CategoryAnalysis.
Local Open Scope Q_scope.

(** The percentage of a spend in a total that is at least the spend. *)
Lemma percentage_rounded (p s : Q) :
  0 <= p <= s -> 0 < s ->
  exists v : Q,
    IEEE.div
      (Math_round (IEEE.mul (IEEE.div (Fin p) (Fin s)) (of_Z 10000))) n100 =
    Fin v /\ 0 <= v <= 100.
Proof.
  intros Hp Hs. unfold IEEE.div at 2, JS.div.
  destruct (Qeq_bool s 0) eqn:E.
  { apply Qeq_bool_iff in E. lra. }
  unfold IEEE.rnd.
  destruct (round_between 0 1 0 1 (p / s)) as (q1 & E1 & B1);
    [reflexivity | reflexivity | |].
  { split.
    - apply Qle_shift_div_l; [exact Hs | lra].
    - apply Qle_shift_div_r; [exact Hs | lra]. }
  rewrite E1. unfold IEEE.mul, JS.mul, of_Z, IEEE.rnd.
  change (inject_Z 10000) with 10000.
  destruct (round_between 0 10000 0 10000 (q1 * 10000)) as (q2 & E2 & B2);
    [reflexivity | reflexivity | lra |].
  rewrite E2. cbn [Math_round]. unfold n100.
  rewrite div_of_Z by discriminate.
  assert (Hz : (0 <= round_half_up q2 <= 10000)%Z).
  { unfold round_half_up.
    pose proof (Qfloor_le (q2 + (1 # 2))) as L.
    pose proof (Qlt_floor (q2 + (1 # 2))) as U.
    split.
    - apply Zlt_succ_le. rewrite Zlt_Qlt. unfold Z.succ.
      change (inject_Z 0) with 0. lra.
    - apply Zlt_succ_le. rewrite Zlt_Qlt. unfold Z.succ.
      rewrite inject_Z_plus. change (inject_Z 10000) with 10000.
      change (inject_Z 1) with 1. lra. }
  destruct (round_between 0 100 0 100 (inject_Z (round_half_up q2) / 100))
    as (v & Ev & Bv); [reflexivity | reflexivity | | exists v; auto].
  destruct Hz as [Hz0 Hz1]. rewrite Zle_Qle in Hz0, Hz1.
  change (inject_Z 0) with 0 in Hz0. change (inject_Z 10000) with 10000 in Hz1.
  change (inject_Z 100) with 100. split.
  - apply Qle_shift_div_l; [reflexivity | lra].
  - apply Qle_shift_div_r; [reflexivity | lra].
Qed.

Lemma percentages_of_group (rows : list row) (g : vendor_group) :
  (Z.of_nat (List.length rows) < 2 ^ 53)%Z ->
  Forall (fun r => 0 <= category_spend r <= 2 ^ 900) rows ->
  rounded_group_of rows g ->
  percentages_in_range (Rounded.with_percentages g).
Proof.
  intros Hlen Hall (_ & Hc & Hs & _).
  set (own := category_rows_of (g_vendorName g) rows) in *.
  assert (Hown : Forall (fun r => 0 <= category_spend r <= 2 ^ 900) own).
  { apply Forall_forall. intros r Hr. apply filter_In in Hr.
    rewrite Forall_forall in Hall. apply Hall, Hr. }
  assert (Hlen' : (0 + Z.of_nat (List.length own) < 2 ^ 53)%Z).
  { pose proof (filter_length_le
                  (fun r => String.eqb (vendorName r) (g_vendorName g)) rows).
    unfold own, category_rows_of. lia. }
  destruct (running_sum_dominates category_spend 900 ltac:(lia) own 0 0)
    as (s & Es & Hs0 & Hdom); try assumption; try lia.
  { change (inject_Z 0) with 0. lra. }
  { reflexivity. }
  unfold percentages_in_range, Rounded.with_percentages.
  cbn [totalSpend categories]. exists s.
  assert (Et : totalSpend g = Fin s).
  { rewrite Hs. exact Es. }
  split; [exact Et|]. split; [exact Hs0|].
  apply Forall_map.
  apply (Permutation_Forall (sort_perm Rounded.by_category_spend _)).
  rewrite Hc. apply Forall_map.
  eapply Forall_impl; [|exact Hdom].
  intros r (p & Ep & Hp). cbn [Rounded.item percentage categorySpend].
  rewrite Et, Ep.
  destruct (gt (Fin s) n0) eqn:G.
  - apply gt_fin in G. change (inject_Z 0) with 0 in G.
    destruct (percentage_rounded p s Hp G) as (v & Ev & Bv).
    exists v. split; [rewrite Ev; reflexivity|]. split; [exact Bv|].
    intro H0. lra.
  - exists 0. split; [reflexivity|]. split; [lra | reflexivity].
Qed.

(** X20.  When the query rows have spends between 0 and [2^900], every
    vendor of the ranking has a finite, non-negative total spend and
    every category carries a percentage between 0 and 100, which is 0
    when the total is 0. *)
Theorem percentages_of_a_vendor_in_range (categoryAnalysis : list row)
        (groups : list vendor_group) :
  Rounded.vendorCategories categoryAnalysis = Returned groups ->
  (Z.of_nat (List.length categoryAnalysis) < 2 ^ 53)%Z ->
  Forall (fun r => 0 <= category_spend r <= 2 ^ 900) categoryAnalysis ->
  Forall percentages_in_range (Rounded.ranked groups).
Proof.
  intros Hreturned Hlen Hall.
  rewrite vendorCategories_outcome in Hreturned.
  destruct (existsb _ categoryAnalysis); [discriminate|].
  injection Hreturned as <-.
  destruct (groups_built_hold_rows categoryAnalysis) as (_ & Hgroups & _).
  unfold Rounded.ranked.
  apply (Permutation_Forall (sort_perm Rounded.by_total_spend _)).
  apply Forall_map.
  apply (Permutation_Forall (own_order_perm g_vendorName _)).
  eapply Forall_impl; [|exact Hgroups].
  intros g Hg. apply (percentages_of_group categoryAnalysis g Hlen Hall Hg).
Qed.

(** X20 on two vendors with three categories. *)
Lemma percentages_of_a_vendor_in_range_witness :
  Forall percentages_in_range
         (Rounded.ranked
            (groups_built [line "a" "x" 10; line "a" "y" 30; line "b" "x" 5])).
Proof.
  apply (percentages_of_a_vendor_in_range
           [line "a" "x" 10; line "a" "y" 30; line "b" "x" 5]).
  - reflexivity.
  - reflexivity.
  - repeat constructor; vm_compute; discriminate.
Defined.

End RoundedPercentages.

Section RoundedRanking.

Import CategoryAnalysis.
Local Open Scope Q_scope.

(** Inserting [x] into a sorted array leaves the elements selected by
    [p] in their order, when [x] passes none of them or is not one of
    them. *)
Lemma sort_insert_keeps {A : Type} (cmp : A -> A -> number)
      (p : A -> bool) (x : A) (l : list A) :
  (p x = true ->
   forall y, gt (of_Z 0) (cmp y x) = true -> p y = false) ->
  filter p (sort_insert cmp x l) = filter p (x :: l).
Proof.
  intro H. induction l as [|y rest IH]; cbn [sort_insert]; [reflexivity|].
  destruct (gt (of_Z 0) (cmp y x)) eqn:C; [|reflexivity].
  cbn [filter] in *. rewrite IH.
  destruct (p x) eqn:Px; [|reflexivity].
  rewrite (H eq_refl y C). reflexivity.
Qed.

Lemma sort_keeps {A : Type} (cmp : A -> A -> number) (p : A -> bool)
      (l : list A) :
  (forall x y, p x = true -> gt (of_Z 0) (cmp y x) = true -> p y = false) ->
  filter p (sort cmp l) = filter p l.
Proof.
  intro H. induction l as [|x rest IH]; [reflexivity|].
  cbn [sort fold_right]. fold (sort cmp rest).
  rewrite sort_insert_keeps by (intros Px y; apply H; exact Px).
  cbn [filter]. rewrite IH. reflexivity.
Qed.

(** A binary64 difference is negative only when the exact one is. *)
Lemma difference_negative (a b : Q) :
  gt (of_Z 0) (IEEE.sub (Fin a) (Fin b)) = true -> a < b.
Proof.
  intro H. destruct (Qlt_le_dec a b) as [Hlt|Hle]; [exact Hlt|].
  exfalso. unfold IEEE.sub, JS.sub, JS.add, neg, IEEE.rnd in H.
  assert (Hd : 0 <= a + - b) by lra.
  pose proof (round_mono 0 (a + - b) Hd) as Hm.
  change (IEEE.round 0) with (Fin 0) in Hm.
  destruct (IEEE.round (a + - b)) as [r| | |]; cbn [IEEE.le] in Hm;
    try contradiction; try discriminate H.
  apply gt_fin in H. change (inject_Z 0) with 0 in H. lra.
Qed.

(** X19.  Vendors with equal total spend are not reordered by the
    ranking sort: among the vendors of any given total, the ranking
    keeps the order of [Object.values(vendorCategories)], whatever the
    groups are.  That order lists the vendors whose names are array
    indices first: the vendors "b", "10" and "2", with equal totals, are
    ranked 2, 10, b. *)
Theorem ranking_keeps_ties_in_order (obj : list vendor_group) (x : Q) :
  filter (has_total x) (Rounded.ranked obj) =
  filter (has_total x)
         (map Rounded.with_percentages (Keys.own_order g_vendorName obj)) /\
  map g_vendorName
      (Rounded.ranked
         (groups_built [line "b" "x" 5; line "10" "x" 5; line "2" "x" 5])) =
  ["2"; "10"; "b"]%string.
Proof.
  split; [|vm_compute; reflexivity].
  unfold Rounded.ranked. apply sort_keeps.
  intros g h Pg C. unfold has_total in *.
  unfold Rounded.by_total_spend in C.
  destruct (totalSpend g) as [tg| | |]; try discriminate Pg.
  destruct (totalSpend h) as [th| | |]; try reflexivity.
  apply difference_negative in C. apply Qeq_bool_iff in Pg.
  apply not_true_iff_false. intro Ph. apply Qeq_bool_iff in Ph. lra.
Qed.

End RoundedRanking.

(* ================================================================== *)
(** ** The report assembly *)
(* ================================================================== *)

Section Assembly.

Import CategoryAnalysis.

(** [arr.slice(0, limit)] keeps a prefix of [arr]. *)
Lemma slice_keeps_a_prefix {A : Type} (arr : list A) (limit : number) :
  (exists rest, arr = slice arr n0 (Some limit) ++ rest) /\
  (List.length (slice arr n0 (Some limit)) <= List.length arr)%nat /\
  slice arr n0 (Some n0) = [] /\
  slice arr n0 (Some NaN) = [] /\
  (forall n : nat,
      slice arr n0 (Some (of_Z (Z.of_nat n))) = firstn n arr) /\
  (forall n : nat,
      slice arr n0 (Some (of_Z (- Z.of_nat (S n)))) =
      drop_last_n (S n) arr).
Proof.
  split.
  { rewrite slice_from_0. eexists. symmetry. apply firstn_skipn. }
  split.
  { rewrite slice_from_0, length_firstn. lia. }
  split; [rewrite slice_from_0, relative_index_0 by lia; reflexivity|].
  split; [rewrite slice_from_0; reflexivity|].
  split.
  { intro n. rewrite slice_from_0.
    unfold relative_index, of_Z, trunc.
    assert (Hnonneg : Qle_bool 0 (inject_Z (Z.of_nat n)) = true).
    { apply Qle_bool_iff, inject_Z_nonneg. lia. }
    rewrite Hnonneg, Qfloor_Z. cbv zeta.
    destruct (Z.of_nat n <? 0)%Z eqn:Hneg; [apply Z.ltb_lt in Hneg; lia|].
    set (len := List.length arr).
    destruct (Nat.le_gt_cases n len) as [Hle|Hgt].
    - f_equal. lia.
    - replace (Z.to_nat (Z.min (Z.of_nat n) (Z.of_nat len))) with len by lia.
      unfold len. rewrite firstn_all. symmetry. apply firstn_all2.
      fold len. lia. }
  intro n. rewrite slice_from_0. unfold drop_last_n.
  set (len := List.length arr).
  unfold relative_index, of_Z, trunc.
  assert (Hneg : Qle_bool 0 (inject_Z (- Z.of_nat (S n))) = false).
  { apply not_true_iff_false. rewrite Qle_bool_iff.
    change 0%Q with (inject_Z 0). rewrite <- Zle_Qle. lia. }
  rewrite Hneg. unfold Qceiling. rewrite <- inject_Z_opp, Qfloor_Z.
  cbv zeta.
  destruct (- - - Z.of_nat (S n) <? 0)%Z eqn:Hlt;
    [|apply Z.ltb_ge in Hlt; lia].
  f_equal. lia.
Qed.

Lemma ranked_length (obj : list vendor_group) :
  List.length (Rounded.ranked obj) = List.length obj.
Proof.
  unfold Rounded.ranked. rewrite sort_length, length_map.
  symmetry. apply Permutation_length, own_order_perm.
Qed.

(** C8 (as the specification states it) does not hold.  The query of
    the category analysis ends in [LIMIT parseInt(limit) * 5]; with
    [parseInt(limit) = -1] PostgreSQL rejects it, and the request fails
    with status 500: a thrown query never gives a successful response.
    Were the three vendors of a query result to reach the assembly with
    that limit, [slice(0, -1)] would keep two of them, not none. *)
Lemma negative_limit_keeps_rows :
  handler (of_Z (-1)) (Throws "LIMIT must not be negative") =
  Failure500 "LIMIT must not be negative" /\
  (forall (message : string) (body : response),
      handler (of_Z (-1)) (Throws message) <> Success body) /\
  (exists body : response,
      handler (of_Z (-1)) (Rows three_vendors) = Success body /\
      map g_vendorName (data body) = ["b"%string; "a"%string] /\
      totalVendors body = 2%Z).
Proof.
  split; [reflexivity|]. split.
  - intros message body H. discriminate H.
  - eexists. split; [reflexivity|]. split; vm_compute; reflexivity.
Qed.

(** C8, amended.  The data of the category analysis is a prefix of the
    ranking of the vendors: it has no more rows than there are vendors
    and keeps their order.  A limit of 0 (or one that does not parse)
    gives an empty array, a limit [n >= 0] the first [n] vendors, and a
    negative limit [-n] the ranking without its last [n] vendors.  The
    request succeeds when the query returns rows none of which names its
    vendor like a property of [Object.prototype]; it fails with status
    500 when the query throws, and when a row has such a name.  The
    performance scorecard has one entry per queried row, in the order
    of the rows. *)
Theorem assembly_keeps_a_prefix (limit : number) (obj : list vendor_group) :
  (exists rest,
      Rounded.ranked obj = Rounded.categoryData limit obj ++ rest) /\
  (List.length (Rounded.categoryData limit obj) <= List.length obj)%nat /\
  Rounded.categoryData n0 obj = [] /\
  Rounded.categoryData NaN obj = [] /\
  (forall n : nat,
      Rounded.categoryData (of_Z (Z.of_nat n)) obj =
      firstn n (Rounded.ranked obj)) /\
  (forall n : nat,
      Rounded.categoryData (of_Z (- Z.of_nat (S n))) obj =
      drop_last_n (S n) (Rounded.ranked obj)) /\
  (forall categoryAnalysis : list row,
      match Rounded.vendorCategories categoryAnalysis with
      | Returned groups =>
          Forall (fun r => Keys.inherited (vendorName r) = false)
                 categoryAnalysis /\
          handler limit (Rows categoryAnalysis) =
          Success (Rounded.respond limit groups) /\
          totalVendors (Rounded.respond limit groups) =
          Z.of_nat (List.length (data (Rounded.respond limit groups)))
      | Thrown message =>
          Exists (fun r => Keys.inherited (vendorName r) = true)
                 categoryAnalysis /\
          message <> EmptyString /\
          handler limit (Rows categoryAnalysis) = Failure500 message
      end) /\
  (forall message : string,
      handler limit (Throws message) =
      Failure500
        (message_or message "Failed to get category analysis data")) /\
  (forall (timeframe : number) (rows : list PerformanceScorecard.row)
          (i : nat),
      nth_error (PerformanceScorecard.Rounded.scorecardData timeframe rows) i =
      option_map (PerformanceScorecard.Rounded.scorecard_entry timeframe)
                 (nth_error rows i)).
Proof.
  destruct (slice_keeps_a_prefix (Rounded.ranked obj) limit)
    as (H1 & H2 & H3 & H4 & H5 & H6).
  unfold Rounded.categoryData.
  split; [exact H1|].
  split; [rewrite <- (ranked_length obj); exact H2|].
  split; [exact H3|]. split; [exact H4|]. split; [exact H5|].
  split; [exact H6|]. split; [|split].
  - intro categoryAnalysis. unfold handler.
    rewrite vendorCategories_outcome.
    destruct (existsb (fun r => Keys.inherited (vendorName r))
                      categoryAnalysis) eqn:E.
    + split; [|split; [discriminate | reflexivity]].
      apply Exists_exists. apply existsb_exists in E. exact E.
    + split; [exact (none_inherited _ _ E)|]. split; reflexivity.
  - reflexivity.
  - intros timeframe rows i. apply nth_error_map.
Qed.

End Assembly.
